(** * mcpiuse: the data loader and matrix renderer of [app.js]

    A shallow embedding of the client script of the compatibility-matrix
    site: the support-value parser, the JSON loader, the combination
    builder, the feature-matrix renderer and the click handlers, together
    with the properties the specification states about them.

    Conventions of the embedding.
    - A JavaScript string is the list of its UTF-16 code units ([jsstring]);
      [js "..."] writes an ASCII literal.
    - A plain object used as a dictionary is an insertion-ordered list of
      own properties ([jsobj]); [Object.keys] and [Object.entries]
      enumerate it in that order (no key the script stores is an array
      index).  A lookup [o[k]] under a key taken from the data goes
      through the prototype chain ([obj_lookup]): it finds the own
      property, or else the member of that name which the object inherits
      from [Object.prototype].  A lookup under a constant of [IDE_FILES] or
      [FEATURE_FILES], under ["native"], under a combination key (which
      holds a [+]) or under a note reference (digits) can find no
      inherited member and is an own-property lookup ([obj_get]).
    - [undefined] and [null] are [None].
    - The markup assigned to [innerHTML] is represented by the element
      tree it denotes: rows, cells and their attributes.  A text written
      into an attribute is taken to be free of double quotes, which
      [escapeHtml] leaves as they are.
    - The documents of the data files are records of the fields the script
      reads, with the types the site's data give them. *)

From Stdlib Require Import String Ascii List NArith ZArith Lia Bool PeanoNat.
From Stdlib Require Import Permutation Sorted.
Import ListNotations.
Open Scope list_scope.

(* ------------------------------------------------------------------ *)
(** ** Strings *)

Definition jsstring := list N.

Definition js (s : string) : jsstring :=
  map N_of_ascii (list_ascii_of_string s).

Definition jsstring_eq_dec (a b : jsstring) : {a = b} + {a <> b} :=
  list_eq_dec N.eq_dec a b.

Definition jseqb (a b : jsstring) : bool :=
  if jsstring_eq_dec a b then true else false.

(** [x || null] on a string or [undefined]: the empty string is falsy. *)
Definition or_null (v : option jsstring) : option jsstring :=
  match v with
  | Some (ch :: s) => Some (ch :: s)
  | Some [] | None => None
  end.

Fixpoint take_while (p : N -> bool) (s : jsstring) : jsstring :=
  match s with
  | ch :: s' => if p ch then ch :: take_while p s' else []
  | [] => []
  end.

Fixpoint drop_while (p : N -> bool) (s : jsstring) : jsstring :=
  match s with
  | ch :: s' => if p ch then drop_while p s' else s
  | [] => []
  end.

(* ------------------------------------------------------------------ *)
(** ** Regular expressions

    A backtracking matcher in continuation-passing style for the fragment
    of the JavaScript pattern language the script uses: anchors, character
    classes, sequence, alternation, the greedy quantifiers and capture
    groups.  [exec_from] tries every start index in turn, as
    [RegExp.prototype.exec] does for a pattern without the [g] or [y]
    flag. *)

Module RegExp.

Inductive regex : Type :=
| Start
| End
| Class (p : N -> bool)
| Seq (r1 r2 : regex)
| Alt (r1 r2 : regex)
| Star (r : regex)
| Plus (r : regex)
| Opt (r : regex)
| Group (i : nat) (r : regex).

Definition captures := list (nat * jsstring).
Definition cont := nat -> jsstring -> captures -> option captures.
Definition matcher := nat -> jsstring -> captures -> cont -> option captures.

(** Greedy iteration: take one more round of [step] when it consumes
    input and the rest of the pattern then succeeds, else stop here. *)
Fixpoint star_loop (step : matcher) (fuel : nat) (pos : nat) (s : jsstring)
    (c : captures) (k : cont) : option captures :=
  match fuel with
  | O => k pos s c
  | S fuel' =>
      match step pos s c (fun pos' s' c' =>
              if pos <? pos' then star_loop step fuel' pos' s' c' k
              else None) with
      | Some r => Some r
      | None => k pos s c
      end
  end.

(** [m r pos s c k]: match [r] at index [pos], where [s] is the input
    from [pos] on and [c] the groups captured so far. *)
Fixpoint m (r : regex) (pos : nat) (s : jsstring) (c : captures) (k : cont)
    : option captures :=
  match r with
  | Start => if pos =? 0 then k pos s c else None
  | End => match s with [] => k pos s c | _ :: _ => None end
  | Class p =>
      match s with
      | ch :: s' => if p ch then k (S pos) s' c else None
      | [] => None
      end
  | Seq r1 r2 => m r1 pos s c (fun pos' s' c' => m r2 pos' s' c' k)
  | Alt r1 r2 =>
      match m r1 pos s c k with
      | Some x => Some x
      | None => m r2 pos s c k
      end
  | Star r1 => star_loop (m r1) (length s) pos s c k
  | Plus r1 =>
      m r1 pos s c (fun pos' s' c' =>
        star_loop (m r1) (length s') pos' s' c' k)
  | Opt r1 =>
      match m r1 pos s c k with
      | Some x => Some x
      | None => k pos s c
      end
  | Group i r1 =>
      m r1 pos s c (fun pos' s' c' =>
        k pos' s' ((i, firstn (pos' - pos) s) :: c'))
  end.

(** The continuation of a whole pattern: the match is found. *)
Definition final : cont := fun _ _ c => Some c.

Fixpoint exec_from (r : regex) (pos : nat) (s : jsstring) {struct s}
    : option captures :=
  match m r pos s [] final with
  | Some c => Some c
  | None =>
      match s with
      | [] => None
      | _ :: s' => exec_from r (S pos) s'
      end
  end.

(** [s.match(r)]: the captures of the first match, or [None] for [null]. *)
Definition str_match (s : jsstring) (r : regex) : option captures :=
  exec_from r 0 s.

(** [match[i]]: [None] when group [i] did not take part in the match. *)
Fixpoint group (i : nat) (c : captures) : option jsstring :=
  match c with
  | [] => None
  | (j, v) :: c' => if i =? j then Some v else group i c'
  end.

(** A literal character, and a class given by its members. *)
Definition one_of (members : string) (ch : N) : bool :=
  existsb (N.eqb ch) (js members).

Definition lit (a : string) : regex := Class (one_of a).

(** [\d] *)
Definition is_digit (ch : N) : bool :=
  ((48 <=? ch) && (ch <=? 57))%N.

(** [\s]: WhiteSpace and LineTerminator code units. *)
Definition is_space (ch : N) : bool :=
  existsb (N.eqb ch)
    [9; 10; 11; 12; 13; 32; 160; 5760; 8232; 8233; 8239; 8287; 12288; 65279]%N
  || ((8192 <=? ch) && (ch <=? 8202))%N.

End RegExp.
Import RegExp.

(* ------------------------------------------------------------------ *)
(** ** parseSupport *)

Record SupportValue : Type := mkSupport {
  code : option jsstring;
  noteRef : option jsstring
}.

(** [/^([yandu])\s*(?:#(\d+))?$/] *)
Definition support_re : regex :=
  Seq Start
 (Seq (Group 1 (Class (one_of "yandu")))
 (Seq (Star (Class is_space))
 (Seq (Opt (Seq (Class (one_of "#")) (Group 2 (Plus (Class is_digit)))))
      End))).

Definition unknown : SupportValue :=
  {| code := Some (js "u"); noteRef := None |}.

Definition parseSupport (value : option jsstring) : SupportValue :=
  match value with
  | None | Some [] => unknown
  | Some v =>
      match str_match v support_re with
      | Some mt => {| code := group 1 mt; noteRef := or_null (group 2 mt) |}
      | None => unknown
      end
  end.

(** The grammar as the specification words it:
    [^(y|a|n|d|u)( *#<digits>)?$]. *)
Definition spec_support_re : regex :=
  Seq Start
 (Seq (Group 1 (Alt (lit "y") (Alt (lit "a") (Alt (lit "n")
                (Alt (lit "d") (lit "u"))))))
 (Seq (Opt (Seq (Star (lit " ")) (Seq (lit "#") (Group 2 (Plus (Class is_digit))))))
      End)).

Definition matches_spec_grammar (s : jsstring) : bool :=
  match str_match s spec_support_re with
  | Some _ => true
  | None => false
  end.

(** The codes of the specification, and a numeric string. *)
Definition support_codes : list jsstring :=
  [js "y"; js "a"; js "n"; js "u"; js "d"].

Definition numeric_string (s : jsstring) : Prop :=
  s <> [] /\ Forall (fun ch => is_digit ch = true) s.

Definition well_formed_support (r : SupportValue) : Prop :=
  (exists c, code r = Some c /\ In c support_codes) /\
  (noteRef r = None \/ exists d, noteRef r = Some d /\ numeric_string d).

(** The strings the pattern of the source accepts, with what they denote:
    a code letter, any run of white space, then nothing or [#] and
    digits. *)
Inductive support_syntax : jsstring -> jsstring -> option jsstring -> Prop :=
| syntax_plain (c : N) (ws : jsstring) :
    one_of "yandu" c = true ->
    Forall (fun ch => is_space ch = true) ws ->
    support_syntax (c :: ws) [c] None
| syntax_noted (c : N) (ws ds : jsstring) :
    one_of "yandu" c = true ->
    Forall (fun ch => is_space ch = true) ws ->
    numeric_string ds ->
    support_syntax (c :: ws ++ 35%N :: ds) [c] (Some ds).

(* ------------------------------------------------------------------ *)
(** ** Objects used as dictionaries

    Own properties in insertion order.  Assigning to an existing key keeps
    its position; a new key goes to the end. *)

Definition jsobj (A : Type) : Type := list (jsstring * A).

Fixpoint obj_get {A : Type} (o : jsobj A) (k : jsstring) : option A :=
  match o with
  | [] => None
  | (k', v) :: o' => if jsstring_eq_dec k k' then Some v else obj_get o' k
  end.

Fixpoint obj_set {A : Type} (o : jsobj A) (k : jsstring) (v : A) : jsobj A :=
  match o with
  | [] => [(k, v)]
  | (k', v') :: o' =>
      if jsstring_eq_dec k k' then (k', v) :: o'
      else (k', v') :: obj_set o' k v
  end.

Definition obj_keys {A : Type} (o : jsobj A) : list jsstring := map fst o.

Definition obj_entries {A : Type} (o : jsobj A) : list (jsstring * A) := o.

(** A property key made from a value that may be [undefined]. *)
Definition to_key (k : option jsstring) : jsstring :=
  match k with
  | Some s => s
  | None => js "undefined"
  end.

(** Truthiness of a string or [undefined]. *)
Definition truthy (v : option jsstring) : bool :=
  match v with
  | Some (_ :: _) => true
  | Some [] | None => false
  end.

(** [Array.prototype.includes] on strings. *)
Definition includes (l : list jsstring) (x : jsstring) : bool :=
  existsb (jseqb x) l.

(** The members every plain object inherits from [Object.prototype]. *)
Definition prototype_members : list jsstring :=
  map js
  [ "constructor"; "__defineGetter__"; "__defineSetter__"; "hasOwnProperty";
    "__lookupGetter__"; "__lookupSetter__"; "isPrototypeOf";
    "propertyIsEnumerable"; "toString"; "valueOf"; "__proto__";
    "toLocaleString" ]%string.

Definition is_prototype_member (k : jsstring) : bool :=
  includes prototype_members k.

(** What [o[k]] finds when it is not [undefined]: the own property stored
    under [k], or the member [k] inherited from [Object.prototype], which
    is a function, or the prototype object itself for [__proto__].  Both
    kinds of inherited value are truthy. *)
Inductive Found (A : Type) : Type :=
| Stored (a : A)
| Inherited (member : jsstring).
Arguments Stored {A} a.
Arguments Inherited {A} member.

(** [o[k]] through the prototype chain; [None] is [undefined]. *)
Definition obj_lookup {A : Type} (o : jsobj A) (k : jsstring)
    : option (Found A) :=
  match obj_get o k with
  | Some v => Some (Stored v)
  | None => if is_prototype_member k then Some (Inherited k) else None
  end.

(** [v.name] of an inherited member: the name of the function, which is
    ["Object"] for [constructor]; the prototype object has no [name]. *)
Definition member_name (member : jsstring) : option jsstring :=
  if jseqb member (js "__proto__") then None
  else if jseqb member (js "constructor") then Some (js "Object")
  else Some member.

(** [String(v)] of an inherited member: ["[object Object]"] for the
    prototype object and the source text of a built-in function, in the
    spelling of V8 (other engines break the lines differently). *)
Definition member_text (member : jsstring) : jsstring :=
  match member_name member with
  | Some name => js "function " ++ name ++ js "() { [native code] }"
  | None => js "[object Object]"
  end.

(** The text [escapeHtml(v)] denotes for a string or [undefined]:
    assigning [undefined] to [textContent] leaves the element empty. *)
Definition text_of (v : option jsstring) : jsstring :=
  match v with
  | Some s => s
  | None => []
  end.

(** A value found in a dictionary of strings, as the text it is written
    as; an empty string is falsy, an inherited member is not. *)
Definition found_text (v : option (Found jsstring)) : option jsstring :=
  match v with
  | Some (Stored s) => Some s
  | Some (Inherited member) => Some (member_text member)
  | None => None
  end.

(** [s.split(sep)] for a one-character separator. *)
Fixpoint split (sep : N) (s : jsstring) : list jsstring :=
  match s with
  | [] => [[]]
  | ch :: s' =>
      if N.eqb ch sep then [] :: split sep s'
      else match split sep s' with
           | part :: parts => (ch :: part) :: parts
           | [] => [[ch]]
           end
  end.

(* ------------------------------------------------------------------ *)
(** ** The data files *)

Module Ide.
Record t : Type := mk {
  id : option jsstring;
  name : jsstring;
  compatible_ai_clients : option (list jsstring)
}.
End Ide.

Module AIClient.
Record t : Type := mk {
  name : jsstring;
  native_names : option (jsobj jsstring)
}.
End AIClient.

(** An entry of [sources]: a bare URL or a [{url, evidence}] record. *)
Inductive Source : Type :=
| SourceUrl (url : jsstring)
| SourceRecord (url evidence : option jsstring).

Module Feature.
Record t : Type := mk {
  id : jsstring;
  title : jsstring;
  description : jsstring;
  spec_url : jsstring;
  stats : option (jsobj jsstring);
  sources : option (jsobj Source);
  notes : option (jsobj jsstring)
}.
End Feature.

Record Link : Type := mkLink { link_title : jsstring; link_url : jsstring }.

Record ChangelogEntry : Type := mkEntry {
  entry_date : jsstring;
  entry_type : jsstring;
  entry_title : jsstring;
  entry_description : jsstring;
  entry_links : option (list Link)
}.

Record Changelog : Type := mkChangelog {
  entries : option (list ChangelogEntry)
}.

Definition DATA_PATH : jsstring := js "./data".

Record IconInfo : Type := mkIcon {
  icon : jsstring;
  class : jsstring;
  icon_title : jsstring
}.

Definition SUPPORT_ICONS : jsobj IconInfo :=
  [ (js "y", mkIcon (js "&#10003;") (js "support-y") (js "Supported"));
    (js "a", mkIcon (js "~") (js "support-a") (js "Partial support"));
    (js "n", mkIcon (js "&#10005;") (js "support-n") (js "Not supported"));
    (js "u", mkIcon (js "?") (js "support-u") (js "Unknown"));
    (js "d", mkIcon (js "&#9881;") (js "support-a") (js "Disabled by default")) ].

(** [SUPPORT_ICONS.u] *)
Definition SUPPORT_ICONS_u : IconInfo :=
  mkIcon (js "?") (js "support-u") (js "Unknown").

Definition IDE_FILES : list jsstring :=
  map js
  [ "vscode"; "cursor"; "visual-studio"; "jetbrains"; "android-studio"; "xcode";
    "windsurf"; "zed"; "neovim"; "emacs"; "void"; "pearai";
    "firebase-studio"; "gemini-cli"; "jules"; "lovable";
    "claude-desktop"; "claude-code"; "codex-cli"; "amp" ]%string.

Definition AI_CLIENT_FILES : list jsstring :=
  map js
  [ "github-copilot"; "cline"; "continue"; "cody"; "tabnine"; "codeium";
    "amazonq"; "gemini-code-assist"; "amp"; "augment";
    "native";
    "avante"; "codecompanion"; "gptel"; "ellama";
    "claude-code"; "codex-cli" ]%string.

Definition FEATURE_FILES : list jsstring :=
  map js
  [ "tools"; "resources"; "prompts"; "sampling"; "elicitation"; "roots" ]%string.

(* ------------------------------------------------------------------ *)
(** ** The page

    The elements the script creates and later selects: the support icons
    ([span.support-icon]), the table rows, the two matrix containers and
    the source overlay. *)

Inductive Handler : Type :=
| ShowSourceModal        (* onclick="showSourceModal(this)" *)
| ToggleNote.            (* onclick="toggleNote(this)" *)

Record Span : Type := mkSpan {
  classList : list jsstring;
  data_note : option jsstring;
  data_combo_key : option jsstring;
  data_feature_id : option jsstring;
  title_attr : option jsstring;
  onclick : option Handler;
  innerHTML : jsstring
}.

(** The first cell of a row. *)
Inductive RowLabel : Type :=
| InterfaceCell (name : jsstring)                 (* td.feature-cell *)
| StandaloneName (name : jsstring)                (* span.ai-name.standalone *)
| IdeHeaderCell (colspan : nat) (ide_name : jsstring) (plugins : nat)
| ClientName (name : jsstring).                   (* span.ai-name *)

Record Tr : Type := mkTr {
  tr_classList : list jsstring;
  tr_data_group : option jsstring;
  tr_onclick : option jsstring;      (* onclick="toggleGroup('<id>')" *)
  tr_display : jsstring;             (* style.display *)
  tr_label : RowLabel;
  tr_cells : list Span
}.

Record HeaderCell : Type := mkHeaderCell {
  head_href : jsstring;
  head_title : jsstring;
  head_text : jsstring
}.

Inductive PluginsView : Type :=
| PluginsStatic
| PluginsNoData                                   (* "No data available" *)
| PluginsTables (columns : list jsstring) (ecosystem : list Tr)
                (native_only : option (list Tr)).

Inductive FeaturesView : Type :=
| FeaturesStatic
| FeaturesNoData                                  (* "No data available" *)
| FeaturesTable (head : list HeaderCell) (body : list Tr).

Inductive EvidenceContent : Type :=
| EvidenceEmpty
| EvidenceText (evidence : jsstring)
| NoEvidenceRecorded.                             (* "No evidence recorded" *)

(** A text the script writes between the quotes of an attribute as it
    is, without [escapeHtml]: the parser ends the value at the first double
    quote of the text and decodes the character references in it, so the
    value is the text itself when the text holds neither. *)
Inductive Markup : Type :=
| Unescaped (text : jsstring).

(** [href] is the markup of the link target; [source_url] is the text
    shown under the link, which is written through [escapeHtml]. *)
Inductive LinkContent : Type :=
| LinkEmpty
| SourceLink (href : Markup) (source_url : jsstring)
| NoSourceUrl.                                    (* "No source URL available" *)

Record Modal : Type := mkModal {
  modal_title : jsstring;
  modal_client : jsstring;
  modal_note : option jsstring;
  modal_note_display : jsstring;
  modal_evidence : EvidenceContent;
  modal_evidence_display : jsstring;
  modal_link : LinkContent;
  modal_link_display : jsstring;
  modal_active : bool
}.

Record Document : Type := mkDocument {
  plugins_matrix : PluginsView;
  features_matrix : FeaturesView;
  source_modal : option Modal;
  keydown_listeners : nat
}.

(* ------------------------------------------------------------------ *)
(** ** Program state *)

Inductive Error : Type :=
| FetchFailed                  (* fetch rejected: network error *)
| HttpError (status : N)       (* new Error(`HTTP ${response.status}`) *)
| JsonSyntaxError.             (* response.json() rejected *)

Inductive LogEntry : Type :=
| FailedToLoad (path : jsstring) (e : Error)
| FeatureNotFound (featureId : option jsstring).

Record World : Type := mkWorld {
  ides : jsobj Ide.t;
  aiClients : jsobj AIClient.t;
  features : jsobj Feature.t;
  changelog : Changelog;
  console : list LogEntry;
  document : Document
}.

Definition set_ides (f : jsobj Ide.t -> jsobj Ide.t) (w : World) : World :=
  mkWorld (f (ides w)) (aiClients w) (features w) (changelog w) (console w)
          (document w).

Definition set_aiClients (f : jsobj AIClient.t -> jsobj AIClient.t) (w : World)
    : World :=
  mkWorld (ides w) (f (aiClients w)) (features w) (changelog w) (console w)
          (document w).

Definition set_features (f : jsobj Feature.t -> jsobj Feature.t) (w : World)
    : World :=
  mkWorld (ides w) (aiClients w) (f (features w)) (changelog w) (console w)
          (document w).

Definition set_changelog (c : Changelog) (w : World) : World :=
  mkWorld (ides w) (aiClients w) (features w) c (console w) (document w).

Definition console_error (e : LogEntry) (w : World) : World :=
  mkWorld (ides w) (aiClients w) (features w) (changelog w) (console w ++ [e])
          (document w).

Definition set_document (f : Document -> Document) (w : World) : World :=
  mkWorld (ides w) (aiClients w) (features w) (changelog w) (console w)
          (f (document w)).

(** The module-level bindings at script start, on the static page. *)
Definition initial_world : World :=
  mkWorld [] [] [] (mkChangelog (Some [])) []
          (mkDocument PluginsStatic FeaturesStatic None 0).

(** Synchronous code that reads and writes the program state. *)
Definition M (A : Type) : Type := World -> A * World.

Definition ret {A : Type} (a : A) : M A := fun w => (a, w).

Definition bind {A B : Type} (c : M A) (k : A -> M B) : M B :=
  fun w => let (a, w') := c w in k a w'.

Definition gets {A : Type} (f : World -> A) : M A := fun w => (f w, w).

Definition modify (f : World -> World) : M unit := fun w => (tt, f w).

Notation "x <- c ;; k" := (bind c (fun x => k))
  (at level 61, c at next level, right associativity).
Notation "c ;;; k" := (bind c (fun _ => k))
  (at level 61, right associativity).

(** [for (const x of xs) body], with the local variable the body updates. *)
Fixpoint for_of {A S : Type} (xs : list A) (body : A -> S -> M S) (s : S)
    : M S :=
  match xs with
  | [] => ret s
  | x :: xs' => s' <- body x s ;; for_of xs' body s'
  end.

Definition exec {A : Type} (c : M A) (w : World) : World := snd (c w).
Definition eval {A : Type} (c : M A) (w : World) : A := fst (c w).

(* ------------------------------------------------------------------ *)
(** ** Loading the data

    What the network answers to a request is an input of the model.  The
    loads of [loadAllData] are all started at once.  Each task has one
    effect on the program state, which happens when its call of [loadJSON]
    completes, after the response has arrived and its body has been read
    and parsed: the error is logged, or the document is stored by the
    continuation of the task.  The script does not control the order in
    which the loads complete: a schedule lists the tasks in that order. *)

Inductive JsonBody (A : Type) : Type :=
| Malformed                    (* response.json() throws *)
| JsonNull                     (* the document is the literal null *)
| JsonData (a : A).
Arguments Malformed {A}.
Arguments JsonNull {A}.
Arguments JsonData {A} a.

Inductive FetchOutcome (A : Type) : Type :=
| NetworkError
| Response (ok : bool) (status : N) (body : JsonBody A).
Arguments NetworkError {A}.
Arguments Response {A} ok status body.

Record Network : Type := mkNetwork {
  serve_ide : jsstring -> FetchOutcome Ide.t;
  serve_ai_client : jsstring -> FetchOutcome AIClient.t;
  serve_feature : jsstring -> FetchOutcome Feature.t;
  serve_changelog : jsstring -> FetchOutcome Changelog
}.

(** How a promise has settled. *)
Inductive Settled (A : Type) : Type :=
| Fulfilled (a : A)
| Rejected (e : Error).
Arguments Fulfilled {A} a.
Arguments Rejected {A} e.

(** The [try] block of [loadJSON]: [inl] is a thrown error. *)
Definition loadJSON_try {A : Type} (response : FetchOutcome A)
    : Error + option A :=
  match response with
  | NetworkError => inl FetchFailed
  | Response ok status body =>
      if negb ok then inl (HttpError status)
      else match body with
           | Malformed => inl JsonSyntaxError
           | JsonNull => inr None
           | JsonData a => inr (Some a)
           end
  end.

Definition loadJSON {A : Type} (path : jsstring) (response : FetchOutcome A)
    : M (Settled (option A)) :=
  match loadJSON_try response with
  | inr data => ret (Fulfilled data)
  | inl error =>
      modify (console_error (FailedToLoad path error)) ;;;
      ret (Fulfilled None)
  end.

Definition data_file (dir : string) (id : jsstring) : jsstring :=
  DATA_PATH ++ js "/" ++ js dir ++ js "/" ++ id ++ js ".json".

Definition changelog_file : jsstring := DATA_PATH ++ js "/changelog.json".

Inductive Task : Type :=
| LoadIde (id : jsstring)
| LoadAIClient (id : jsstring)
| LoadFeature (id : jsstring)
| LoadChangelog.

Definition task_eq_dec (a b : Task) : {a = b} + {a <> b}.
Proof. decide equality; apply jsstring_eq_dec. Defined.

(** The part of a task that runs once its [loadJSON] has returned. *)
Definition store {A : Type} (r : Settled (option A)) (assign : A -> World -> World)
    : M (Settled unit) :=
  match r with
  | Fulfilled (Some data) => modify (assign data) ;;; ret (Fulfilled tt)
  | Fulfilled None => ret (Fulfilled tt)
  | Rejected e => ret (Rejected e)
  end.

Definition run_task (net : Network) (t : Task) : M (Settled unit) :=
  match t with
  | LoadIde id =>
      data <- loadJSON (data_file "ides" id)
                (serve_ide net (data_file "ides" id)) ;;
      store data (fun d => set_ides (fun o => obj_set o id d))
  | LoadAIClient id =>
      data <- loadJSON (data_file "ai-clients" id)
                (serve_ai_client net (data_file "ai-clients" id)) ;;
      store data (fun d => set_aiClients (fun o => obj_set o id d))
  | LoadFeature id =>
      data <- loadJSON (data_file "features" id)
                (serve_feature net (data_file "features" id)) ;;
      store data (fun d => set_features (fun o => obj_set o id d))
  | LoadChangelog =>
      data <- loadJSON changelog_file (serve_changelog net changelog_file) ;;
      store data set_changelog
  end.

(** The promises [loadAllData] hands to [Promise.all], in order. *)
Definition started_tasks : list Task :=
  map LoadIde IDE_FILES ++ map LoadAIClient AI_CLIENT_FILES ++
  map LoadFeature FEATURE_FILES ++ [LoadChangelog].

(** A load in progress: the program state and, for each started task,
    how its promise settled ([None] while pending). *)
Record Loading : Type := mkLoading {
  world : World;
  promises : list (Task * option (Settled unit))
}.

Definition start (w : World) : Loading :=
  mkLoading w (map (fun t => (t, None)) started_tasks).

Fixpoint promise_of (t : Task) (ps : list (Task * option (Settled unit)))
    : option (option (Settled unit)) :=
  match ps with
  | [] => None
  | (t', s) :: ps' => if task_eq_dec t t' then Some s else promise_of t ps'
  end.

Definition is_pending (t : Task) (l : Loading) : bool :=
  match promise_of t (promises l) with
  | Some None => true
  | _ => false
  end.

Fixpoint resolve (t : Task) (s : Settled unit)
    (ps : list (Task * option (Settled unit)))
    : list (Task * option (Settled unit)) :=
  match ps with
  | [] => []
  | (t', s') :: ps' =>
      if task_eq_dec t t' then (t', Some s) :: ps'
      else (t', s') :: resolve t s ps'
  end.

(** The load of a pending task completes and the rest of the task runs. *)
Definition settle (net : Network) (l : Loading) (t : Task) : Loading :=
  if is_pending t l then
    let (s, w') := run_task net t (world l) in
    mkLoading w' (resolve t s (promises l))
  else l.

(** [Promise.all]: rejected as soon as one promise is, fulfilled when all
    are, pending otherwise. *)
Fixpoint promise_all (ps : list (Task * option (Settled unit)))
    : option (Settled unit) :=
  match ps with
  | [] => Some (Fulfilled tt)
  | (_, Some (Rejected e)) :: _ => Some (Rejected e)
  | (_, Some (Fulfilled _)) :: ps' => promise_all ps'
  | (_, None) :: ps' =>
      match promise_all ps' with
      | Some (Rejected e) => Some (Rejected e)
      | _ => None
      end
  end.

(** [loadAllData] under a schedule: the state when the loads of the listed
    tasks have completed, in that order. *)
Definition loadAllData (net : Network) (schedule : list Task) (w : World)
    : Loading :=
  fold_left (settle net) schedule (start w).

(** [await loadAllData()] has returned. *)
Definition load_complete (l : Loading) : bool :=
  match promise_all (promises l) with
  | Some (Fulfilled _) => true
  | _ => false
  end.

(* ------------------------------------------------------------------ *)
(** ** getClientCombinations *)

(** [aiClient] is the truthy value found under [aiClients[aiClientId]]:
    the document of a loaded client, or an inherited member. *)
Record Combination : Type := mkCombination {
  key : jsstring;
  ide : Ide.t;
  ideId : jsstring;
  aiClient : Found AIClient.t;
  aiClientId : jsstring
}.

(** [ide.compatible_ai_clients || []] *)
Definition compatible (i : Ide.t) : list jsstring :=
  match Ide.compatible_ai_clients i with
  | Some l => l
  | None => []
  end.

Definition combo_key (ideId aiClientId : jsstring) : jsstring :=
  ideId ++ js "+" ++ aiClientId.

Definition getClientCombinations : M (list Combination) :=
  entries <- gets (fun w => obj_entries (ides w)) ;;
  for_of entries (fun '(ideId, ide) combos =>
    for_of (compatible ide) (fun aiClientId combos =>
      aiClient <- gets (fun w => obj_lookup (aiClients w) aiClientId) ;;
      match aiClient with
      | Some aiClient =>
          ret (combos ++
               [mkCombination (combo_key ideId aiClientId) ide ideId
                              aiClient aiClientId])
      | None => ret combos
      end) combos) [].


(* ------------------------------------------------------------------ *)
(** ** Rendering a support cell *)

Definition is_truthy_source (s : option Source) : bool :=
  match s with
  | Some (SourceUrl u) => truthy (Some u)
  | Some (SourceRecord _ _) => true
  | None => false
  end.

Definition renderSupportCell (support : option jsstring)
    (notes : option (jsobj jsstring)) (source : option Source)
    (comboKey featureId : jsstring) : Span :=
  let sv := parseSupport support in
  let iconInfo :=
    match obj_get SUPPORT_ICONS (to_key (code sv)) with
    | Some info => info
    | None => SUPPORT_ICONS_u
    end in
  let noteText :=
    match noteRef sv, notes with
    | Some ref, Some notes =>
        if truthy (Some ref) && truthy (obj_get notes ref)
        then obj_get notes ref else None
    | _, _ => None
    end in
  let noteAttr := if truthy noteText then noteText else None in
  let hasSource := if is_truthy_source source then [js "has-source"] else [] in
  mkSpan ([js "support-icon"; class iconInfo] ++ hasSource)
         noteAttr (Some comboKey) (Some featureId) None
         (Some ShowSourceModal) (icon iconInfo).

(* ------------------------------------------------------------------ *)
(** ** Array.prototype.sort

    The sort is stable; with a consistent comparator every stable sort
    returns the same array, here computed by insertion. *)

Fixpoint insert_by {A : Type} (cmp : A -> A -> Z) (x : A) (l : list A)
    : list A :=
  match l with
  | [] => [x]
  | y :: l' =>
      if (cmp x y <=? 0)%Z then x :: y :: l' else y :: insert_by cmp x l'
  end.

Definition array_sort {A : Type} (cmp : A -> A -> Z) (l : list A) : list A :=
  fold_right (insert_by cmp) [] l.

(* ------------------------------------------------------------------ *)
(** ** The feature-support view

    The keys of [groupedByIde] are the [ideId]s of the combinations, which
    are keys of [ides].  Under a key that names no inherited member,
    [groupedByIde[ideId]] finds the group stored under it or nothing, as
    [group_step] has it.  Under a key that names an inherited member the
    script would find the member, create no group and throw a [TypeError]
    on [.combos.push]: [grouping_throws] is that case, which the
    definitions of this part do not describe.  The loader stores under the
    constants of [IDE_FILES] only, none of which is such a name. *)

Record RowGroup : Type := mkGroup {
  group_ide : Ide.t;
  combos : list Combination
}.

Definition grouping_throws (combos : list Combination) : bool :=
  existsb (fun combo => is_prototype_member (ideId combo)) combos.

(** One pass of the loop that fills [groupedByIde]. *)
Definition group_step (groupedByIde : jsobj RowGroup) (combo : Combination)
    : jsobj RowGroup :=
  let grouped :=
    match obj_get groupedByIde (ideId combo) with
    | Some _ => groupedByIde
    | None => obj_set groupedByIde (ideId combo) (mkGroup (ide combo) [])
    end in
  match obj_get grouped (ideId combo) with
  | Some g =>
      obj_set grouped (ideId combo)
              (mkGroup (group_ide g) (combos g ++ [combo]))
  | None => grouped
  end.

Definition group_by_ide (cs : list Combination) : jsobj RowGroup :=
  fold_left group_step cs [].

(** [groupedByIde[id].combos.length] and [groupedByIde[id].ide.name]; the
    comparator is only ever applied to keys of [groupedByIde]. *)
Definition group_size (groupedByIde : jsobj RowGroup) (id : jsstring) : Z :=
  match obj_get groupedByIde id with
  | Some g => Z.of_nat (length (combos g))
  | None => 0%Z
  end.

Definition group_name (groupedByIde : jsobj RowGroup) (id : jsstring) : jsstring :=
  match obj_get groupedByIde id with
  | Some g => Ide.name (group_ide g)
  | None => []
  end.

Definition group_id (ideId : jsstring) : jsstring := js "group-" ++ ideId.

Definition support_cells (featureList : list Feature.t) (combo : Combination)
    : list Span :=
  map (fun feature =>
    let support :=
      match Feature.stats feature with
      | Some stats => obj_get stats (key combo)
      | None => None
      end in
    let source :=
      match Feature.sources feature with
      | Some sources => obj_get sources (key combo)
      | None => None
      end in
    renderSupportCell support (Feature.notes feature) source (key combo)
                      (Feature.id feature)) featureList.

Definition header_cell (feature : Feature.t) : HeaderCell :=
  mkHeaderCell (Feature.spec_url feature) (Feature.description feature)
               (Feature.title feature).

(** [aiClient.name] and [aiClient.native_names] of the value a
    combination holds; a function has a name and no [native_names]. *)
Definition client_name (aiClient : Found AIClient.t) : option jsstring :=
  match aiClient with
  | Stored client => Some (AIClient.name client)
  | Inherited member => member_name member
  end.

Definition client_native_names (aiClient : Found AIClient.t)
    : option (jsobj jsstring) :=
  match aiClient with
  | Stored client => AIClient.native_names client
  | Inherited _ => None
  end.

(** The label of a client row inside a group. *)
Definition client_label (ideId : jsstring) (ide : Ide.t) (combo : Combination)
    : jsstring :=
  if jseqb (aiClientId combo) (js "native") then
    let nativeName :=
      match client_native_names (aiClient combo) with
      | Some names => found_text (obj_lookup names ideId)
      | None => None
      end in
    match nativeName with
    | Some (ch :: s) => ch :: s
    | Some [] | None => Ide.name ide ++ js " (Native)"
    end
  else text_of (client_name (aiClient combo)).

(** One pass of the body loop: the rows of one interface. *)
Definition render_group (featureList : list Feature.t)
    (groupedByIde : jsobj RowGroup) (ideId : jsstring) : list Tr :=
  match obj_get groupedByIde ideId with
  | None => []
  | Some group =>
      let ide := group_ide group in
      let groupId := group_id ideId in
      match combos group with
      | [combo] =>
          [mkTr [] None None (js "") (StandaloneName (Ide.name ide))
                (support_cells featureList combo)]
      | cs =>
          mkTr [js "ide-group-header"] (Some groupId) (Some groupId) (js "")
               (IdeHeaderCell (length featureList + 1) (Ide.name ide)
                              (length cs)) []
          :: map (fun combo =>
                mkTr [js "ide-group-row"; groupId] None None (js "none")
                     (ClientName (client_label ideId ide combo))
                     (support_cells featureList combo)) cs
      end
  end.

Definition set_features_matrix (v : FeaturesView) : World -> World :=
  set_document (fun d =>
    mkDocument (plugins_matrix d) v (source_modal d) (keydown_listeners d)).

Definition set_plugins_matrix (v : PluginsView) : World -> World :=
  set_document (fun d =>
    mkDocument v (features_matrix d) (source_modal d) (keydown_listeners d)).

Definition set_source_modal (m : option Modal) : World -> World :=
  set_document (fun d =>
    mkDocument (plugins_matrix d) (features_matrix d) m (keydown_listeners d)).

(** [FEATURE_FILES.map(id => features[id]).filter(f => f)] *)
Definition feature_list (fs : jsobj Feature.t) : list Feature.t :=
  flat_map (fun id =>
    match obj_get fs id with
    | Some f => [f]
    | None => []
    end) FEATURE_FILES.

Section Rendering.

(** [String.prototype.localeCompare] of the host, with default options. *)
Variable localeCompare : jsstring -> jsstring -> Z.

(** The comparator handed to [sort]: count descending, then name. *)
Definition by_count_then_name (groupedByIde : jsobj RowGroup) (a b : jsstring)
    : Z :=
  let countDiff := (group_size groupedByIde b - group_size groupedByIde a)%Z in
  if negb (countDiff =? 0)%Z then countDiff
  else localeCompare (group_name groupedByIde a) (group_name groupedByIde b).

Definition sortedIdeIds (groupedByIde : jsobj RowGroup) : list jsstring :=
  array_sort (by_count_then_name groupedByIde) (obj_keys groupedByIde).

Definition renderFeaturesMatrix : M unit :=
  combos <- getClientCombinations ;;
  fs <- gets features ;;
  if (length combos =? 0) || (length (obj_keys fs) =? 0) then
    modify (set_features_matrix FeaturesNoData)
  else
    let featureList := feature_list fs in
    let groupedByIde := group_by_ide combos in
    let head := map header_cell featureList in
    let body :=
      flat_map (render_group featureList groupedByIde)
               (sortedIdeIds groupedByIde) in
    modify (set_features_matrix (FeaturesTable head body)).

End Rendering.

(* ------------------------------------------------------------------ *)
(** ** The plugin-availability view *)

(** [{ id: ideId, ...ide }]: an [id] in the document overrides the file
    name. *)
Definition spread_ide (ideId : jsstring) (ide : Ide.t) : Ide.t :=
  Ide.mk (Some match Ide.id ide with Some i => i | None => ideId end)
         (Ide.name ide) (Ide.compatible_ai_clients ide).

Definition hasPlugins (clients : list jsstring) : bool :=
  (1 <? length clients) ||
  ((length clients =? 1) && negb (jseqb (hd [] clients) (js "native"))).

(** The loop over [IDE_FILES] that fills [pluginEcosystems] and
    [nativeOnly]. *)
Definition partition_ides (loaded : jsobj Ide.t) : list Ide.t * list Ide.t :=
  fold_left (fun '(pluginEcosystems, nativeOnly) ideId =>
    match obj_get loaded ideId with
    | None => (pluginEcosystems, nativeOnly)
    | Some ide =>
        if hasPlugins (compatible ide)
        then (pluginEcosystems ++ [spread_ide ideId ide], nativeOnly)
        else (pluginEcosystems, nativeOnly ++ [spread_ide ideId ide])
    end) IDE_FILES ([], []).

(** [Set.prototype.add], elements kept in insertion order. *)
Definition set_add (x : jsstring) (s : list jsstring) : list jsstring :=
  if includes s x then s else s ++ [x].

Definition plugin_client_ids (pluginEcosystems : list Ide.t) : list jsstring :=
  fold_left (fun ids ide =>
    fold_left (fun ids clientId =>
      if negb (jseqb clientId (js "native")) then set_add clientId ids
      else ids) (compatible ide) ids) pluginEcosystems [].

(** [aiClients['native']?.native_names?.[ide.id]] *)
Definition native_name (clients : jsobj AIClient.t) (ide : Ide.t)
    : option jsstring :=
  match obj_get clients (js "native") with
  | Some nativeClient =>
      match AIClient.native_names nativeClient with
      | Some names => found_text (obj_lookup names (to_key (Ide.id ide)))
      | None => None
      end
  | None => None
  end.

(** [client ? client.name : clientId], as the text of a column head. *)
Definition column_name (clients : jsobj AIClient.t) (clientId : jsstring)
    : jsstring :=
  match obj_lookup clients clientId with
  | Some client => text_of (client_name client)
  | None => clientId
  end.

Definition availability_icon (available : bool) (note : option jsstring)
    (title : option jsstring) : Span :=
  mkSpan [js "support-icon";
          if available then js "support-y" else js "support-n"]
         (if truthy note then note else None) None None title
         (if truthy note then Some ToggleNote else None)
         (if available then js "&#10003;" else js "&#10005;").

Definition ecosystem_row (clients : jsobj AIClient.t)
    (sortedPluginClients : list jsstring) (ide : Ide.t) : Tr :=
  mkTr [] None None (js "") (InterfaceCell (Ide.name ide))
    (availability_icon (includes (compatible ide) (js "native"))
                       (native_name clients ide) None
     :: map (fun clientId =>
          let isCompatible := includes (compatible ide) clientId in
          availability_icon isCompatible None
            (Some (if isCompatible then js "Available"
                   else js "Not available")))
        sortedPluginClients).

Definition native_only_row (clients : jsobj AIClient.t) (ide : Ide.t) : Tr :=
  mkTr [] None None (js "") (InterfaceCell (Ide.name ide))
    [availability_icon true (native_name clients ide) None].

Definition renderPluginsMatrix : M unit :=
  loaded <- gets ides ;;
  clients <- gets aiClients ;;
  if (length (obj_keys loaded) =? 0) || (length (obj_keys clients) =? 0) then
    modify (set_plugins_matrix PluginsNoData)
  else
    let (pluginEcosystems, nativeOnly) := partition_ides loaded in
    let sortedPluginClients := plugin_client_ids pluginEcosystems in
    let columns :=
      js "Native" :: map (column_name clients) sortedPluginClients in
    let ecosystem :=
      map (ecosystem_row clients sortedPluginClients) pluginEcosystems in
    let native_only :=
      if 0 <? length nativeOnly
      then Some (map (native_only_row clients) nativeOnly)
      else None in
    modify (set_plugins_matrix (PluginsTables columns ecosystem native_only)).

(* ------------------------------------------------------------------ *)
(** ** Elements of the page and their class lists *)

Definition has_class (c : jsstring) (cl : list jsstring) : bool :=
  includes cl c.

Definition classList_remove (c : jsstring) (cl : list jsstring)
    : list jsstring :=
  filter (fun c' => negb (jseqb c c')) cl.

Definition classList_add (c : jsstring) (cl : list jsstring) : list jsstring :=
  if has_class c cl then cl else cl ++ [c].

(** [classList.toggle(c)]: the new list and the returned flag. *)
Definition classList_toggle (c : jsstring) (cl : list jsstring)
    : list jsstring * bool :=
  if has_class c cl then (classList_remove c cl, false)
  else (cl ++ [c], true).

Definition set_span_classList (cl : list jsstring) (s : Span) : Span :=
  mkSpan cl (data_note s) (data_combo_key s) (data_feature_id s)
         (title_attr s) (onclick s) (innerHTML s).

Definition set_tr_classList (cl : list jsstring) (r : Tr) : Tr :=
  mkTr cl (tr_data_group r) (tr_onclick r) (tr_display r) (tr_label r)
       (tr_cells r).

Definition set_tr_display (d : jsstring) (r : Tr) : Tr :=
  mkTr (tr_classList r) (tr_data_group r) (tr_onclick r) d (tr_label r)
       (tr_cells r).

Definition set_tr_cells (cells : list Span) (r : Tr) : Tr :=
  mkTr (tr_classList r) (tr_data_group r) (tr_onclick r) (tr_display r)
       (tr_label r) cells.

(** The tables of the page in document order, and the place of a support
    icon: table, row, cell. *)
Inductive Table : Type := Ecosystem | NativeOnly | FeatureMatrix.

Definition Loc : Type := (Table * nat * nat)%type.

Definition table_eqb (a b : Table) : bool :=
  match a, b with
  | Ecosystem, Ecosystem | NativeOnly, NativeOnly
  | FeatureMatrix, FeatureMatrix => true
  | _, _ => false
  end.

Definition loc_eqb (a b : Loc) : bool :=
  let '(ta, ra, ca) := a in
  let '(tb, rb, cb) := b in
  table_eqb ta tb && (ra =? rb) && (ca =? cb).

Definition rows_of (t : Table) (d : Document) : list Tr :=
  match t with
  | Ecosystem =>
      match plugins_matrix d with
      | PluginsTables _ ecosystem _ => ecosystem
      | _ => []
      end
  | NativeOnly =>
      match plugins_matrix d with
      | PluginsTables _ _ (Some native_only) => native_only
      | _ => []
      end
  | FeatureMatrix =>
      match features_matrix d with
      | FeaturesTable _ body => body
      | _ => []
      end
  end.

Definition span_at (l : Loc) (d : Document) : option Span :=
  let '(t, r, c) := l in
  match nth_error (rows_of t d) r with
  | Some row => nth_error (tr_cells row) c
  | None => None
  end.

Fixpoint imap_from {A B : Type} (i : nat) (f : nat -> A -> B) (l : list A)
    : list B :=
  match l with
  | [] => []
  | x :: l' => f i x :: imap_from (S i) f l'
  end.

Definition map_table_spans (t : Table) (f : Loc -> Span -> Span)
    (rows : list Tr) : list Tr :=
  imap_from 0 (fun r row =>
    set_tr_cells (imap_from 0 (fun c s => f (t, r, c) s) (tr_cells row)) row)
    rows.

(** Apply [f] to every support icon of the page. *)
Definition map_spans (f : Loc -> Span -> Span) (d : Document) : Document :=
  mkDocument
    match plugins_matrix d with
    | PluginsTables columns ecosystem native_only =>
        PluginsTables columns (map_table_spans Ecosystem f ecosystem)
          match native_only with
          | Some rows => Some (map_table_spans NativeOnly f rows)
          | None => None
          end
    | v => v
    end
    match features_matrix d with
    | FeaturesTable head body =>
        FeaturesTable head (map_table_spans FeatureMatrix f body)
    | v => v
    end
    (source_modal d) (keydown_listeners d).

(** Every support icon of the page with its place, in document order. *)
Definition table_spans (t : Table) (rows : list Tr) : list (Loc * Span) :=
  concat (imap_from 0 (fun r row =>
    imap_from 0 (fun c s => ((t, r, c), s)) (tr_cells row)) rows).

Definition all_spans (d : Document) : list (Loc * Span) :=
  table_spans Ecosystem (rows_of Ecosystem d) ++
  table_spans NativeOnly (rows_of NativeOnly d) ++
  table_spans FeatureMatrix (rows_of FeatureMatrix d).

(* ------------------------------------------------------------------ *)
(** ** toggleGroup

    Only rows of the feature table carry [data-group] or a group class, so
    the two selectors are evaluated on its body.  [None] is the
    [TypeError] raised when no header matches. *)

Definition is_group_header (groupId : jsstring) (row : Tr) : bool :=
  match tr_data_group row with
  | Some g => jseqb g groupId
  | None => false
  end.

(** [header.classList.toggle('expanded')] on the first matching row. *)
Fixpoint toggle_header (groupId : jsstring) (rows : list Tr)
    : option (list Tr * bool) :=
  match rows with
  | [] => None
  | row :: rows' =>
      if is_group_header groupId row then
        let (cl, isExpanded) :=
          classList_toggle (js "expanded") (tr_classList row) in
        Some (set_tr_classList cl row :: rows', isExpanded)
      else
        match toggle_header groupId rows' with
        | Some (toggled, isExpanded) => Some (row :: toggled, isExpanded)
        | None => None
        end
  end.

Definition toggle_rows (groupId : jsstring) (body : list Tr)
    : option (list Tr) :=
  match toggle_header groupId body with
  | None => None
  | Some (toggled, isExpanded) =>
      Some (map (fun '(before, row) =>
              if has_class groupId (tr_classList before)
              then set_tr_display (if isExpanded then js "" else js "none") row
              else row) (combine body toggled))
  end.

Definition toggleGroup (groupId : jsstring) (w : World) : option World :=
  match features_matrix (document w) with
  | FeaturesTable head body =>
      match toggle_rows groupId body with
      | Some body' => Some (set_features_matrix (FeaturesTable head body') w)
      | None => None
      end
  | _ => None
  end.

(* ------------------------------------------------------------------ *)
(** ** The source overlay

    A click handler returns whether it called [event.stopPropagation()]. *)

(** The markup given to a freshly created [#source-modal]. *)
Definition new_modal : Modal :=
  mkModal [] [] None (js "") EvidenceEmpty (js "") LinkEmpty (js "") false.

(** [feature.title] and [feature.sources] of the value found under
    [features[featureId]]; an inherited member has neither. *)
Definition feature_title (feature : Found Feature.t) : option jsstring :=
  match feature with
  | Stored f => Some (Feature.title f)
  | Inherited _ => None
  end.

Definition feature_sources (feature : Found Feature.t)
    : option (jsobj Source) :=
  match feature with
  | Stored f => Feature.sources f
  | Inherited _ => None
  end.

(** [source ? (typeof source === 'string' ? source : source.url) : null];
    an inherited member is no string and has no [url]. *)
Definition source_url_of (source : option (Found Source)) : option jsstring :=
  match source with
  | Some (Stored (SourceUrl u)) => if truthy (Some u) then Some u else None
  | Some (Stored (SourceRecord u _)) => u
  | Some (Inherited _) | None => None
  end.

(** [source && typeof source === 'object' ? source.evidence : null] *)
Definition source_evidence_of (source : option (Found Source))
    : option jsstring :=
  match source with
  | Some (Stored (SourceRecord _ e)) => e
  | Some (Stored (SourceUrl _)) | Some (Inherited _) | None => None
  end.

(** [ide ? ide.name : ideId] *)
Definition ide_display (w : World) (ideId : jsstring) : option jsstring :=
  match obj_lookup (ides w) ideId with
  | Some (Stored ide) => Some (Ide.name ide)
  | Some (Inherited member) => member_name member
  | None => Some ideId
  end.

(** The text shown for the combination of a cell; in a template literal
    [undefined] reads ["undefined"]. *)
Definition client_display (w : World) (comboKey : option jsstring) : jsstring :=
  if truthy comboKey then
    let parts := split 43 (to_key comboKey) in
    let ideId := hd [] parts in
    let aiClientId := nth_error parts 1 in
    let ideName := ide_display w ideId in
    let aiName :=
      match obj_lookup (aiClients w) (to_key aiClientId) with
      | Some aiClient =>
          if jseqb (to_key aiClientId) (js "native") then
            let nativeName :=
              match client_native_names aiClient with
              | Some names => found_text (obj_lookup names ideId)
              | None => None
              end in
            if truthy nativeName then nativeName else Some (js "Native")
          else client_name aiClient
      | None => aiClientId
      end in
    to_key ideName ++ js " + " ++ to_key aiName
  else [].

Definition populate (featureTitle clientDisplay : jsstring)
    (note evidence url : option jsstring) (modal : Modal) : Modal :=
  mkModal featureTitle clientDisplay
    (if truthy note then note else modal_note modal)
    (if truthy note then js "block" else js "none")
    (if truthy evidence then EvidenceText (to_key evidence)
     else NoEvidenceRecorded)
    (js "block")
    (if truthy url then SourceLink (Unescaped (to_key url)) (to_key url)
     else NoSourceUrl)
    (js "block")
    true.

Definition showSourceModal (element : Span) : M bool :=
  let comboKey := data_combo_key element in
  let featureId := data_feature_id element in
  let note := data_note element in
  found <- gets (fun w => obj_lookup (features w) (to_key featureId)) ;;
  match found with
  | None =>
      modify (console_error (FeatureNotFound featureId)) ;;;
      ret true
  | Some feature =>
      let featureTitle :=
        if truthy (feature_title feature) then text_of (feature_title feature)
        else text_of featureId in
      let source :=
        match feature_sources feature with
        | Some sources => obj_lookup sources (to_key comboKey)
        | None => None
        end in
      let url := source_url_of source in
      let evidence := source_evidence_of source in
      clientDisplay <- gets (fun w => client_display w comboKey) ;;
      existing <- gets (fun w => source_modal (document w)) ;;
      modal <- match existing with
               | Some modal => ret modal
               | None =>
                   modify (set_document (fun d =>
                     mkDocument (plugins_matrix d) (features_matrix d)
                                (Some new_modal) (S (keydown_listeners d)))) ;;;
                   ret new_modal
               end ;;
      modify (set_source_modal
                (Some (populate featureTitle clientDisplay note evidence url
                                modal))) ;;;
      ret true
  end.

Definition closeSourceModal : M unit :=
  existing <- gets (fun w => source_modal (document w)) ;;
  match existing with
  | Some modal =>
      modify (set_source_modal (Some
        (mkModal (modal_title modal) (modal_client modal) (modal_note modal)
                 (modal_note_display modal) (modal_evidence modal)
                 (modal_evidence_display modal) (modal_link modal)
                 (modal_link_display modal) false)))
  | None => ret tt
  end.

(* ------------------------------------------------------------------ *)
(** ** Note tooltips *)

(** [.support-icon.show-note] *)
Definition shows_note (s : Span) : bool :=
  has_class (js "support-icon") (classList s) &&
  has_class (js "show-note") (classList s).

Definition hide_note (s : Span) : Span :=
  set_span_classList (classList_remove (js "show-note") (classList s)) s.

Definition toggleNote (element : Loc) : M bool :=
  modify (set_document (map_spans (fun l el =>
    if shows_note el && negb (loc_eqb l element) then hide_note el else el))) ;;;
  modify (set_document (map_spans (fun l el =>
    if loc_eqb l element
    then set_span_classList
           (fst (classList_toggle (js "show-note") (classList el))) el
    else el))) ;;;
  ret true.

(** The click listener registered on [document]. *)
Definition document_click : M unit :=
  modify (set_document (map_spans (fun _ el =>
    if shows_note el then hide_note el else el))).

(* ------------------------------------------------------------------ *)
(** ** Events

    A click runs the inline handler of its target, then those of the
    ancestors, then the listener of the document, unless a handler stopped
    the propagation. *)

Inductive Target : Type :=
| OnIcon (l : Loc)                   (* a support icon *)
| OnRow (t : Table) (r : nat)        (* a table row, outside its icons *)
| OnModalClose                       (* button.source-modal-close *)
| OnModalBackdrop                    (* #source-modal itself *)
| OnModalContent                     (* inside .source-modal-content *)
| Elsewhere.

Inductive Event : Type :=
| Click (target : Target)
| KeyDown (key : jsstring).

(** The inline handler of a row; an exception leaves the state as it is
    and does not stop the event. *)
Definition row_click (t : Table) (r : nat) : M unit :=
  row <- gets (fun w => nth_error (rows_of t (document w)) r) ;;
  match row with
  | Some row =>
      match tr_onclick row with
      | Some groupId =>
          modify (fun w =>
            match toggleGroup groupId w with
            | Some w' => w'
            | None => w
            end)
      | None => ret tt
      end
  | None => ret tt
  end.

(** The inline handler of the icon [el] at place [l]. *)
Definition icon_click (l : Loc) (el : Span) : M bool :=
  match onclick el with
  | Some ShowSourceModal => showSourceModal el
  | Some ToggleNote => toggleNote l
  | None => ret false
  end.

Definition dispatch (e : Event) : M unit :=
  match e with
  | Click (OnIcon l) =>
      el <- gets (fun w => span_at l (document w)) ;;
      match el with
      | Some el =>
          stopped <- icon_click l el ;;
          if stopped then ret tt
          else let '(t, r, _) := l in row_click t r ;;; document_click
      | None => ret tt                  (* no icon at this place *)
      end
  | Click (OnRow t r) => row_click t r ;;; document_click
  | Click OnModalClose => closeSourceModal ;;; document_click
  | Click OnModalBackdrop => closeSourceModal ;;; document_click
  | Click OnModalContent => document_click
  | Click Elsewhere => document_click
  | KeyDown k =>
      n <- gets (fun w => keydown_listeners (document w)) ;;
      for_of (repeat tt n) (fun _ _ =>
        if jseqb k (js "Escape") then closeSourceModal else ret tt) tt
  end.

Definition run_events (es : list Event) (w : World) : World :=
  fold_left (fun w e => exec (dispatch e) w) es w.

(* ------------------------------------------------------------------ *)
(** ** init

    [renderChangelog] writes only to [#changelog-list], which is not part
    of the page modelled here. *)

Section Init.

Variable localeCompare : jsstring -> jsstring -> Z.

Definition render_all : M unit :=
  renderPluginsMatrix ;;; renderFeaturesMatrix localeCompare.

(** The page when the loads have completed as [schedule] says: the
    matrices are rendered once [await loadAllData()] has returned. *)
Definition init (net : Network) (schedule : list Task) (w : World) : World :=
  let l := loadAllData net schedule w in
  if load_complete l then exec render_all (world l) else world l.

End Init.

(* ------------------------------------------------------------------ *)
(** ** escapeHtml

    [div.textContent = text] replaces the children of the fresh [div] by
    a single text node holding [text], or by nothing when [text] is empty;
    [div.innerHTML] serialises the children, writing the data of a text
    node with [&], the no-break space, [<] and [>] replaced by character
    references.  The references contain none of the four characters, so
    the replacements are made unit by unit. *)

Inductive Node : Type :=
| TextNode (data : jsstring).

Definition set_textContent (text : jsstring) : list Node :=
  match text with
  | [] => []
  | _ :: _ => [TextNode text]
  end.

Definition escape_unit (ch : N) : jsstring :=
  if (ch =? 38)%N then js "&amp;"
  else if (ch =? 160)%N then js "&nbsp;"
  else if (ch =? 60)%N then js "&lt;"
  else if (ch =? 62)%N then js "&gt;"
  else [ch].

Definition serialize_children (children : list Node) : jsstring :=
  flat_map (fun '(TextNode data) => flat_map escape_unit data) children.

Definition escapeHtml (text : jsstring) : jsstring :=
  serialize_children (set_textContent text).

(* ------------------------------------------------------------------ *)
(** ** renderChangelog

    [#changelog-list] is not part of [Document]; [renderChangelog] is
    given by the content it assigns to that container. *)

Record Article : Type := mkArticle {
  article_classList : list jsstring;
  article_title : jsstring;
  article_date : jsstring;
  article_type : jsstring;
  article_description : jsstring;
  article_links : option (list Link)      (* div.changelog-links *)
}.

Inductive ChangelogView : Type :=
| NoChangelogEntries                      (* "No changelog entries" *)
| ChangelogArticles (articles : list Article).

Section Changelog.

(** The time value of [new Date(s)] in milliseconds, [None] for an
    invalid date, whose time value is NaN. *)
Variable Date_value : jsstring -> option Z.

(** [new Date(b.date) - new Date(a.date)].  [sort] reads a NaN as [+0]
    and otherwise only the sign of the result, which is that of the exact
    difference. *)
Definition by_date_descending (a b : ChangelogEntry) : Z :=
  match Date_value (entry_date b), Date_value (entry_date a) with
  | Some tb, Some ta => (tb - ta)%Z
  | _, _ => 0%Z
  end.

Definition changelog_article (entry : ChangelogEntry) : Article :=
  let typeClass :=
    if jseqb (entry_type entry) (js "spec") then js "type-spec"
    else js "type-client" in
  mkArticle [js "changelog-entry"; typeClass] (entry_title entry)
    (entry_date entry) (entry_type entry) (entry_description entry)
    match entry_links entry with
    | Some (link :: links) => Some (link :: links)
    | Some [] | None => None
    end.

Definition renderChangelog (w : World) : ChangelogView :=
  match entries (changelog w) with
  | None | Some [] => NoChangelogEntries
  | Some (entry :: es) =>
      ChangelogArticles
        (map changelog_article (array_sort by_date_descending (entry :: es)))
  end.

End Changelog.

(* ------------------------------------------------------------------ *)
(** ** Vocabulary of the properties *)

(** The document a response yields, if any: what [loadJSON] returns. *)
Definition fetched {A : Type} (response : FetchOutcome A) : option A :=
  match loadJSON_try response with
  | inr data => data
  | inl _ => None
  end.

(** The entries a dictionary receives when the listed identifiers are
    stored in this order, each if its document was fetched. *)
Definition loaded_entries {A : Type} (serve : jsstring -> FetchOutcome A)
    (dir : string) (ids : list jsstring) : jsobj A :=
  flat_map (fun id =>
    match fetched (serve (data_file dir id)) with
    | Some data => [(id, data)]
    | None => []
    end) ids.

(** The identifiers of one kind of task, in the order of the schedule. *)
Definition ide_ids (schedule : list Task) : list jsstring :=
  flat_map (fun t => match t with LoadIde id => [id] | _ => [] end) schedule.

Definition ai_client_ids (schedule : list Task) : list jsstring :=
  flat_map (fun t => match t with LoadAIClient id => [id] | _ => [] end)
           schedule.

Definition feature_ids (schedule : list Task) : list jsstring :=
  flat_map (fun t => match t with LoadFeature id => [id] | _ => [] end)
           schedule.


(** The titles of the feature columns a view shows. *)
Definition columns (v : FeaturesView) : list jsstring :=
  match v with
  | FeaturesTable head _ => map head_text head
  | FeaturesStatic | FeaturesNoData => []
  end.

(** The combinations one interface contributes, in the order of its
    compatibility list. *)
Definition combinations_of (clients : jsobj AIClient.t)
    (entry : jsstring * Ide.t) : list Combination :=
  flat_map (fun aiClientId =>
    match obj_lookup clients aiClientId with
    | Some aiClient =>
        [mkCombination (combo_key (fst entry) aiClientId) (snd entry)
                       (fst entry) aiClient aiClientId]
    | None => []
    end) (compatible (snd entry)).



(** The view [renderFeaturesMatrix] leaves in [#features-matrix]. *)
Definition features_view (localeCompare : jsstring -> jsstring -> Z)
    (w : World) : FeaturesView :=
  let combos :=
    flat_map (combinations_of (aiClients w)) (obj_entries (ides w)) in
  if (length combos =? 0) || (length (obj_keys (features w)) =? 0)
  then FeaturesNoData
  else FeaturesTable (map header_cell (feature_list (features w)))
         (flat_map (render_group (feature_list (features w))
                                 (group_by_ide combos))
                   (sortedIdeIds localeCompare (group_by_ide combos))).

(** Tasks that are pairwise distinct. *)
Fixpoint distinct (ts : list Task) : bool :=
  match ts with
  | [] => true
  | t :: ts' =>
      negb (existsb (fun t' => if task_eq_dec t t' then true else false) ts')
      && distinct ts'
  end.

(** A promise that is pending or fulfilled. *)
Definition settled_ok (p : Task * option (Settled unit)) : Prop :=
  snd p = None \/ snd p = Some (Fulfilled tt).

(** A load in which the listed tasks are still pending and have stored
    nothing. *)
Record fresh_for (sched : list Task) (l : Loading) : Prop := {
  fresh_pending : forall t, In t sched -> is_pending t l = true;
  fresh_ide : forall id, In (LoadIde id) sched ->
                obj_get (ides (world l)) id = None;
  fresh_ai : forall id, In (LoadAIClient id) sched ->
                obj_get (aiClients (world l)) id = None;
  fresh_feature : forall id, In (LoadFeature id) sched ->
                obj_get (features (world l)) id = None
}.

(** The combinations of one interface, and the group they form. *)
Definition of_interface (id : jsstring) (c : Combination) : bool :=
  jseqb (ideId c) id.

Definition group_spec (cs : list Combination) (id : jsstring) : option RowGroup :=
  match filter (of_interface id) cs with
  | [] => None
  | c :: l => Some (mkGroup (ide c) (c :: l))
  end.

(** The name a row group is headed by. *)
Definition leader (row : Tr) : list jsstring :=
  match tr_label row with
  | StandaloneName name => [name]
  | IdeHeaderCell _ name _ => [name]
  | InterfaceCell _ | ClientName _ => []
  end.

(** [style.display] of the rows of a group with the given flag. *)
Definition display_for (isExpanded : bool) : jsstring :=
  if isExpanded then js "" else js "none".

Definition clicks_on (groupId : jsstring) (clicks : list jsstring) : nat :=
  count_occ jsstring_eq_dec clicks groupId.

(** A run of [toggleGroup] calls; a call that throws changes nothing. *)
Definition toggle_groups (clicks : list jsstring) (w : World) : World :=
  fold_left (fun w groupId =>
    match toggleGroup groupId w with
    | Some w' => w'
    | None => w
    end) clicks w.

(** The [data-group] attributes of a table body. *)
Definition headers (body : list Tr) : list jsstring :=
  flat_map (fun row =>
    match tr_data_group row with
    | Some g => [g]
    | None => []
    end) body.

(** One call of [toggleGroup], row by row. *)
Definition toggle_row (groupId : jsstring) (isExpanded : bool) (row : Tr) : Tr :=
  let row1 :=
    if is_group_header groupId row
    then set_tr_classList
           (fst (classList_toggle (js "expanded") (tr_classList row))) row
    else row in
  if has_class groupId (tr_classList row)
  then set_tr_display (display_for isExpanded) row1
  else row1.

(** A rendered row after the given header clicks. *)
Definition after_clicks (clicks : list jsstring) (row : Tr) : Tr :=
  match tr_data_group row with
  | Some groupId =>
      set_tr_classList
        (js "ide-group-header"
         :: if Nat.odd (clicks_on groupId clicks) then [js "expanded"] else [])
        row
  | None =>
      match tr_classList row with
      | [_; groupId] =>
          set_tr_display (display_for (Nat.odd (clicks_on groupId clicks))) row
      | _ => row
      end
  end.

(** The three kinds of rows [renderFeaturesMatrix] writes. *)
Inductive rendered_row (groups : list jsstring) (row : Tr) : Prop :=
| plain_row :
    tr_data_group row = None -> tr_classList row = [] ->
    rendered_row groups row
| header_row id :
    tr_data_group row = Some (group_id id) ->
    tr_classList row = [js "ide-group-header"] ->
    rendered_row groups row
| member_row id :
    In (group_id id) groups -> tr_data_group row = None ->
    tr_classList row = [js "ide-group-row"; group_id id] ->
    tr_display row = js "none" ->
    rendered_row groups row.

(** An icon whose note is shown, and the icons of a page that show one. *)
Definition is_shown (s : Span) : bool := has_class (js "show-note") (classList s).

Definition shown_notes (d : Document) : list (Loc * Span) :=
  filter (fun p => is_shown (snd p)) (all_spans d).

(** Every icon carries the class [support-icon]. *)
Definition icons_classed (d : Document) : Prop :=
  forall l s, In (l, s) (all_spans d) ->
    has_class (js "support-icon") (classList s) = true.

Definition tooltips_ok (d : Document) : Prop :=
  icons_classed d /\ length (shown_notes d) <= 1.

(** An icon as the renderers write it. *)
Definition fresh_icon (s : Span) : Prop :=
  has_class (js "support-icon") (classList s) = true /\ is_shown s = false.

Definition fresh_rows (rows : list Tr) : Prop :=
  forall row s, In row rows -> In s (tr_cells row) -> fresh_icon s.

(** The two passes of [toggleNote] over the icons. *)
Definition note_pass1 (element : Loc) (l : Loc) (el : Span) : Span :=
  if shows_note el && negb (loc_eqb l element) then hide_note el else el.

Definition note_pass2 (element : Loc) (l : Loc) (el : Span) : Span :=
  if loc_eqb l element
  then set_span_classList
         (fst (classList_toggle (js "show-note") (classList el))) el
  else el.

(** The character references [escapeHtml] writes, after their [&]. *)
Definition reference_names : list jsstring :=
  [js "amp;"; js "nbsp;"; js "lt;"; js "gt;"].

(** The code units [escapeHtml] replaces: [&], no-break space, [<], [>]. *)
Definition is_escaped (ch : N) : bool :=
  ((ch =? 38) || (ch =? 160) || (ch =? 60) || (ch =? 62))%N.

(** The entries dated [t], by the time value of their date. *)
Definition dated (Date_value : jsstring -> option Z) (t : Z)
    (entry : ChangelogEntry) : bool :=
  match Date_value (entry_date entry) with
  | Some t' => (t' =? t)%Z
  | None => false
  end.

(** The error [loadJSON] catches for a response, if any; the path a task
    fetches; and what a task leaves on the console. *)
Definition error_of {A : Type} (response : FetchOutcome A) : option Error :=
  match loadJSON_try response with
  | inl error => Some error
  | inr _ => None
  end.

Definition task_path (t : Task) : jsstring :=
  match t with
  | LoadIde id => data_file "ides" id
  | LoadAIClient id => data_file "ai-clients" id
  | LoadFeature id => data_file "features" id
  | LoadChangelog => changelog_file
  end.

Definition task_error (net : Network) (t : Task) : option Error :=
  match t with
  | LoadIde _ => error_of (serve_ide net (task_path t))
  | LoadAIClient _ => error_of (serve_ai_client net (task_path t))
  | LoadFeature _ => error_of (serve_feature net (task_path t))
  | LoadChangelog => error_of (serve_changelog net (task_path t))
  end.

Definition logged (net : Network) (t : Task) : list LogEntry :=
  match task_error net t with
  | Some error => [FailedToLoad (task_path t) error]
  | None => []
  end.

(** The loaded interfaces in the order of [IDE_FILES]: those with a
    plugin ecosystem ([p] true) and the others. *)
Definition interfaces_where (p : bool) (loaded : jsobj Ide.t) : list Ide.t :=
  flat_map (fun ideId =>
    match obj_get loaded ideId with
    | Some ide =>
        if Bool.eqb (hasPlugins (compatible ide)) p
        then [spread_ide ideId ide] else []
    | None => []
    end) IDE_FILES.

(** The view [renderPluginsMatrix] leaves in [#plugins-matrix]. *)
Definition plugins_view (w : World) : PluginsView :=
  if (length (obj_keys (ides w)) =? 0) || (length (obj_keys (aiClients w)) =? 0)
  then PluginsNoData
  else
    let pluginEcosystems := interfaces_where true (ides w) in
    let nativeOnly := interfaces_where false (ides w) in
    let sortedPluginClients := plugin_client_ids pluginEcosystems in
    PluginsTables
      (js "Native" :: map (column_name (aiClients w)) sortedPluginClients)
      (map (ecosystem_row (aiClients w) sortedPluginClients) pluginEcosystems)
      (if 0 <? length nativeOnly
       then Some (map (native_only_row (aiClients w)) nativeOnly)
       else None).

(** The name a row of the plugin view is labelled with. *)
Definition interface_name (row : Tr) : list jsstring :=
  match tr_label row with
  | InterfaceCell name => [name]
  | StandaloneName _ | IdeHeaderCell _ _ _ | ClientName _ => []
  end.

(** A row that shows a combination: a standalone row or a client row. *)
Definition is_data_row (row : Tr) : bool :=
  match tr_label row with
  | StandaloneName _ | ClientName _ => true
  | InterfaceCell _ | IdeHeaderCell _ _ _ => false
  end.

(** The rows of a table body that carry the class of a group. *)
Definition members_of (groupId : jsstring) (body : list Tr) : list Tr :=
  filter (fun row => has_class groupId (tr_classList row)) body.

(** A feature view whose table is a rendered one after some run of
    toggles, whatever classes its icons have taken since. *)
Definition toggled_view (v : FeaturesView) : Prop :=
  match v with
  | FeaturesTable _ body =>
      exists body0 clicks,
        NoDup (headers body0) /\
        Forall (rendered_row (headers body0)) body0 /\
        (forall g, In g (headers body0) -> exists id, g = group_id id) /\
        body = map (after_clicks clicks) body0
  | FeaturesStatic | FeaturesNoData => True
  end.

(** The overlay and its key listener are created together, once. *)
Definition overlay_ok (d : Document) : Prop :=
  keydown_listeners d = match source_modal d with Some _ => 1 | None => 0 end.

(* ------------------------------------------------------------------ *)
(** ** Sample data *)

Module Sample.

Definition vscode : Ide.t :=
  Ide.mk (Some (js "vscode")) (js "VS Code")
         (Some [js "github-copilot"; js "cline"]).

Definition cursor : Ide.t :=
  Ide.mk (Some (js "cursor")) (js "Cursor") (Some [js "native"; js "cline"]).

Definition zed : Ide.t :=
  Ide.mk (Some (js "zed")) (js "Zed") (Some [js "native"]).

Definition copilot : AIClient.t := AIClient.mk (js "GitHub Copilot") None.

Definition cline : AIClient.t := AIClient.mk (js "Cline") None.

Definition native : AIClient.t :=
  AIClient.mk (js "Native")
    (Some [(js "cursor", js "Cursor Agent"); (js "zed", js "Zed Assistant")]).

Definition feature (id title : string) : Feature.t :=
  Feature.mk (js id) (js title) (js "An MCP capability")
    (js "https://modelcontextprotocol.io/specification")
    (Some [(js "vscode+cline", js "y #1"); (js "cursor+native", js "a");
           (js "zed+native", js "n")])
    (Some [(js "vscode+cline", SourceUrl (js "https://docs.cline.bot/mcp"));
           (js "cursor+native",
            SourceRecord (Some (js "https://docs.cursor.com/mcp"))
                         (Some (js "Listed under supported features")))])
    (Some [(js "1", js "Since version 3")]).

Definition found {A : Type} (a : A) : FetchOutcome A :=
  Response true 200 (JsonData a).

Definition not_found {A : Type} : FetchOutcome A :=
  Response false 404 Malformed.

(** Answers looked up by path. *)
Fixpoint lookup {A : Type} (files : list (jsstring * A)) (path : jsstring)
    : FetchOutcome A :=
  match files with
  | [] => not_found
  | (p, a) :: files' => if jseqb path p then found a else lookup files' path
  end.

(** A small site: three interfaces, three clients and three features;
    every other document, that of ["roots"] among them, is missing. *)
Definition network : Network :=
  mkNetwork
    (lookup [(data_file "ides" (js "vscode"), vscode);
             (data_file "ides" (js "cursor"), cursor);
             (data_file "ides" (js "zed"), zed)])
    (lookup [(data_file "ai-clients" (js "github-copilot"), copilot);
             (data_file "ai-clients" (js "cline"), cline);
             (data_file "ai-clients" (js "native"), native)])
    (lookup [(data_file "features" (js "tools"), feature "tools" "Tools");
             (data_file "features" (js "resources"),
              feature "resources" "Resources");
             (data_file "features" (js "prompts"), feature "prompts" "Prompts")])
    (fun _ => found (mkChangelog (Some []))).

(** A site where every document exists but that of ["roots"], and no
    interface declares a compatible client. *)
Definition unpaired_network : Network :=
  mkNetwork
    (fun _ => found (Ide.mk None (js "An editor") None))
    (fun _ => found cline)
    (lookup [(data_file "features" (js "tools"), feature "tools" "Tools");
             (data_file "features" (js "resources"),
              feature "resources" "Resources");
             (data_file "features" (js "prompts"), feature "prompts" "Prompts");
             (data_file "features" (js "sampling"),
              feature "sampling" "Sampling");
             (data_file "features" (js "elicitation"),
              feature "elicitation" "Elicitation")])
    (fun _ => found (mkChangelog (Some []))).

(** A comparison of names by their first letter, ignoring case. *)
Definition fold_case (ch : N) : N :=
  if ((65 <=? ch) && (ch <=? 90))%N then (ch + 32)%N else ch.

Definition first_letter (s : jsstring) : Z :=
  match s with
  | ch :: _ => Z.of_N (fold_case ch)
  | [] => 0%Z
  end.

Definition compare_names (a b : jsstring) : Z :=
  (first_letter a - first_letter b)%Z.

(** The state of the sample site once every load has completed in the order
    of the file lists, its combinations and its page. *)
Definition loaded : World :=
  world (loadAllData network started_tasks initial_world).


Definition page : World :=
  init compare_names network started_tasks initial_world.

Definition head : list HeaderCell :=
  match features_matrix (document page) with
  | FeaturesTable head _ => head
  | _ => []
  end.

Definition body : list Tr :=
  match features_matrix (document page) with
  | FeaturesTable _ body => body
  | _ => []
  end.














(** A stand-in for the date parser of the host: the digits of an ISO
    date read as one number; a text with any other character, or none, is
    an invalid date. *)
Definition day_number (s : jsstring) : option Z :=
  if forallb (fun ch => is_digit ch || (ch =? 45)%N) s && (0 <? length s)
  then Some (fold_left (fun n ch =>
               if is_digit ch then (10 * n + Z.of_N (ch - 48))%Z else n) s 0%Z)
  else None.

Definition changelog_entry (date type title : string) : ChangelogEntry :=
  mkEntry (js date) (js type) (js title) (js "What changed") None.

Definition changelog_entries : list ChangelogEntry :=
  [ changelog_entry "2025-03-26" "spec" "Specification revision";
    changelog_entry "2025-06-18" "spec" "Elicitation added";
    changelog_entry "2025-03-26" "client" "Cline supports resources" ].

Definition world_with_changelog : World :=
  mkWorld [] [] [] (mkChangelog (Some changelog_entries)) []
          (mkDocument PluginsStatic FeaturesStatic None 0).

End Sample.

(* ================================================================== *)
(** * Properties *)

(* ------------------------------------------------------------------ *)
(** ** Properties of [parseSupport] *)

Lemma take_drop_while p s : take_while p s ++ drop_while p s = s.
Proof.
  induction s as [|ch s IH]; simpl; [reflexivity|].
  destruct (p ch); simpl; [now rewrite IH | reflexivity].
Qed.

Lemma take_while_Forall p s : Forall (fun ch => p ch = true) (take_while p s).
Proof.
  induction s as [|ch s IH]; simpl; [constructor|].
  destruct (p ch) eqn:E; [constructor; assumption | constructor].
Qed.

Lemma drop_while_head p s ch t : drop_while p s = ch :: t -> p ch = false.
Proof.
  induction s as [|x s IH]; simpl; [discriminate|].
  destruct (p x) eqn:E; [assumption|].
  intros H; injection H as -> _; assumption.
Qed.

Lemma take_while_all p ws t :
  Forall (fun ch => p ch = true) ws ->
  (forall ch t', t = ch :: t' -> p ch = false) ->
  take_while p (ws ++ t) = ws /\ drop_while p (ws ++ t) = t.
Proof.
  intros Hws Ht; induction Hws as [|x ws Hx _ IH]; simpl.
  - destruct t as [|ch t']; simpl; [split; reflexivity|].
    rewrite (Ht ch t' eq_refl); split; reflexivity.
  - rewrite Hx; destruct IH as [-> ->]; split; reflexivity.
Qed.

(** Iterating a character class greedily: when the rest of the pattern
    cannot succeed in front of a character of the class, the loop stops
    exactly after the longest run of such characters. *)
Lemma star_loop_class p (step : matcher) (k : cont) :
  (forall pos s c k', step pos s c k' = m (Class p) pos s c k') ->
  (forall pos ch s c, p ch = true -> k pos (ch :: s) c = None) ->
  forall fuel pos s c, length s <= fuel ->
  star_loop step fuel pos s c k
  = k (pos + length (take_while p s)) (drop_while p s) c.
Proof.
  intros Hstep Hk; induction fuel as [|fuel IH]; intros pos s c Hlen.
  - destruct s; [|simpl in Hlen; lia]. simpl. now rewrite Nat.add_0_r.
  - cbn [star_loop]. rewrite Hstep. destruct s as [|ch s]; simpl.
    + now rewrite Nat.add_0_r.
    + destruct (p ch) eqn:E.
      * assert (Hlt : (pos <? S pos) = true) by (apply Nat.ltb_lt; lia).
        rewrite Hlt, IH by (simpl in Hlen; lia).
        cbn [length]. rewrite <- Nat.add_succ_comm.
        destruct (k (S pos + _) _ c) eqn:R; [reflexivity|].
        now apply Hk.
      * now rewrite Nat.add_0_r.
Qed.

Lemma space_not_hash ch : is_space ch = true -> one_of "#" ch = false.
Proof.
  intros H. unfold one_of; simpl. destruct (N.eqb_spec ch 35) as [->|]; [|reflexivity].
  vm_compute in H; discriminate.
Qed.

(** The digits of a note reference: [(\d+)] followed by [$]. *)
Lemma match_note_digits pos t c :
  m (Group 2 (Plus (Class is_digit))) pos t c (fun p s c' => m End p s c' final)
  = match take_while is_digit t, drop_while is_digit t with
    | d :: ds, [] => Some ((2, d :: ds) :: c)
    | _, _ => None
    end.
Proof.
  cbn [m]. destruct t as [|d t]; [reflexivity|].
  cbn [take_while drop_while]. destruct (is_digit d) eqn:Ed; [|reflexivity].
  rewrite (star_loop_class is_digit); [|reflexivity|intros; reflexivity|lia].
  pose proof (take_drop_while is_digit t) as Htd.
  destruct (drop_while is_digit t) as [|x r]; [|reflexivity].
  rewrite app_nil_r in Htd. unfold final. do 3 f_equal.
  replace (S pos + length (take_while is_digit t) - pos) with (S (length t))
    by (rewrite Htd; lia).
  rewrite Htd. cbn [firstn]. now rewrite firstn_all.
Qed.

(** What follows the code letter and the white space: [(?:#(\d+))?$]. *)
Lemma match_note_tail pos s c :
  m (Seq (Opt (Seq (Class (one_of "#")) (Group 2 (Plus (Class is_digit))))) End)
    pos s c final
  = match s with
    | [] => Some c
    | h :: t =>
        if one_of "#" h then
          match take_while is_digit t, drop_while is_digit t with
          | d :: ds, [] => Some ((2, d :: ds) :: c)
          | _, _ => None
          end
        else None
    end.
Proof.
  cbn [m]. destruct s as [|h t]; [reflexivity|].
  destruct (one_of "#" h); [|reflexivity].
  pose proof (match_note_digits (S pos) t c) as H. cbn [m] in H. rewrite H.
  destruct (take_while is_digit t), (drop_while is_digit t); reflexivity.
Qed.

Lemma match_support_at_0 s :
  m support_re 0 s [] final
  = match s with
    | [] => None
    | c :: t =>
        if one_of "yandu" c then
          match drop_while is_space t with
          | [] => Some [(1, [c])]
          | h :: t2 =>
              if one_of "#" h then
                match take_while is_digit t2, drop_while is_digit t2 with
                | d :: ds, [] => Some [(2, d :: ds); (1, [c])]
                | _, _ => None
                end
              else None
          end
        else None
    end.
Proof.
  unfold support_re. cbn [m Nat.eqb]. destruct s as [|c t]; [reflexivity|].
  destruct (one_of "yandu" c); [|reflexivity].
  rewrite (star_loop_class is_space); [|reflexivity|intros pos ch s c0 Hs|lia].
  - exact (match_note_tail _ _ _).
  - etransitivity; [exact (match_note_tail pos (ch :: s) c0)|].
    now rewrite (space_not_hash _ Hs).
Qed.

Lemma match_support_later s pos :
  pos <> 0 -> exec_from support_re pos s = None.
Proof.
  revert pos; induction s as [|x s IH]; intros pos Hpos; cbn [exec_from].
  - unfold support_re; cbn [m]. now destruct pos.
  - replace (m support_re pos (x :: s) [] _) with (@None captures).
    + now apply IH.
    + unfold support_re; cbn [m]. now destruct pos.
Qed.

Lemma str_match_support s :
  str_match s support_re = m support_re 0 s [] final.
Proof.
  unfold str_match. destruct s as [|x s]; cbn [exec_from]; fold final.
  - now destruct (m support_re 0 [] [] final).
  - destruct (m support_re 0 (x :: s) [] final); [reflexivity|].
    now apply match_support_later.
Qed.

Lemma one_of_hash ch : one_of "#" ch = true -> ch = 35%N.
Proof.
  unfold one_of; simpl. destruct (N.eqb_spec ch 35); [auto|discriminate].
Qed.

Lemma one_of_code ch : one_of "yandu" ch = true -> In [ch] support_codes.
Proof.
  unfold one_of; simpl. rewrite !orb_true_iff, !N.eqb_eq.
  intros [->|[->|[->|[->|[->|H]]]]]; simpl; auto 6. discriminate.
Qed.

(** The examples of the specification. *)
Example parseSupport_y :
  parseSupport (Some (js "y")) = {| code := Some (js "y"); noteRef := None |}.
Proof. reflexivity. Qed.

Example parseSupport_n_1 :
  parseSupport (Some (js "n #1"))
  = {| code := Some (js "n"); noteRef := Some (js "1") |}.
Proof. reflexivity. Qed.

Example parseSupport_weird : parseSupport (Some (js "weird")) = unknown.
Proof. reflexivity. Qed.

Example parseSupport_empty : parseSupport (Some (js "")) = unknown.
Proof. reflexivity. Qed.

Example parseSupport_absent : parseSupport None = unknown.
Proof. reflexivity. Qed.

(** Every result is the unknown value or the reading of a string of the
    syntax. *)
Lemma parseSupport_cases (v : option jsstring) :
  parseSupport v = unknown \/
  exists s c ref, v = Some s /\ support_syntax s [c] ref /\
    parseSupport v = {| code := Some [c]; noteRef := ref |}.
Proof.
  destruct v as [[|c t]|]; [now left| |now left].
  unfold parseSupport. rewrite str_match_support, match_support_at_0.
  destruct (one_of "yandu" c) eqn:Ec; [|now left].
  pose proof (take_drop_while is_space t) as Ht.
  pose proof (take_while_Forall is_space t) as Hws.
  destruct (drop_while is_space t) as [|h t2] eqn:Edw.
  - right. exists (c :: t), c, None. rewrite app_nil_r in Ht.
    split; [reflexivity|]. split; [|reflexivity].
    rewrite <- Ht. now constructor.
  - destruct (one_of "#" h) eqn:Eh; [|now left].
    apply one_of_hash in Eh; subst h.
    pose proof (take_drop_while is_digit t2) as Ht2.
    pose proof (take_while_Forall is_digit t2) as Hds.
    destruct (take_while is_digit t2) as [|d ds]; [now left|].
    destruct (drop_while is_digit t2); [|now left].
    right. exists (c :: t), c, (Some (d :: ds)). rewrite app_nil_r in Ht2.
    subst t2. split; [reflexivity|]. split; [|reflexivity].
    rewrite <- Ht. constructor; auto.
    split; [discriminate|assumption].
Qed.

Lemma support_syntax_parse s c ref :
  support_syntax s c ref ->
  parseSupport (Some s) = {| code := Some c; noteRef := ref |}.
Proof.
  intros H; destruct H as [c ws Hc Hws|c ws ds Hc Hws [Hne Hds]];
    unfold parseSupport; rewrite str_match_support, match_support_at_0, Hc.
  - destruct (take_while_all is_space ws [] Hws) as [_ Hd];
      [discriminate|].
    rewrite app_nil_r in Hd. now rewrite Hd.
  - destruct (take_while_all is_space ws (35%N :: ds) Hws) as [_ Hd].
    { intros ch t' E; injection E as <- _; reflexivity. }
    rewrite Hd. change (one_of "#" 35) with true. cbv iota.
    destruct (take_while_all is_digit ds [] Hds) as [Ht Hdr];
      [discriminate|].
    rewrite app_nil_r in Ht, Hdr. rewrite Ht, Hdr.
    destruct ds; [contradiction|reflexivity].
Qed.

Lemma parseSupport_well_formed v : well_formed_support (parseSupport v).
Proof.
  destruct (parseSupport_cases v) as [->|(s & c & ref & _ & Hs & ->)].
  - split; [exists (js "u"); split; [reflexivity|simpl; auto 6]|now left].
  - inversion Hs; subst; (split; [exists [c]; split; [reflexivity|now apply one_of_code]|]).
    + now left.
    + right; exists ds; split; [reflexivity|assumption].
Qed.

(** C1, amended.  For every input, a string or an absent value,
    [parseSupport] returns a code among y, a, n, u, d and a note reference
    that is [null] or a non-empty string of digits.  The result differs
    from [{code: 'u', noteRef: null}] only for a string of the syntax the
    pattern of the source accepts, [^[yandu]\s*(#\d+)?$]: a code letter, any
    run of white space (of any kind, also with nothing after it), then
    nothing or [#] and digits; such a string is parsed to its letter and
    its digits, and every other string and the absent value yield
    [{code: 'u', noteRef: null}]. *)
Theorem parseSupport_grammar (v : option jsstring) :
  well_formed_support (parseSupport v) /\
  (parseSupport v <> unknown ->
     exists s c ref, v = Some s /\ support_syntax s c ref) /\
  (forall s c ref, v = Some s -> support_syntax s c ref ->
     parseSupport v = {| code := Some c; noteRef := ref |}) /\
  ((forall s c ref, v = Some s -> ~ support_syntax s c ref) ->
     parseSupport v = unknown).
Proof.
  split; [apply parseSupport_well_formed|].
  destruct (parseSupport_cases v) as [E|(s & c & ref & Ev & Hs & E)].
  - split; [intros H; contradiction|]. split; [|auto].
    intros s c ref -> Hs. now apply support_syntax_parse.
  - split; [intros _; eauto|]. split.
    + intros s' c' ref' -> Hs'. now apply support_syntax_parse.
    + intros H. exfalso. exact (H s [c] ref Ev Hs).
Qed.

(** A tab between the code and the note is accepted. *)
Lemma parseSupport_grammar_witness :
  parseSupport (Some (js "n 	#12"))
  = {| code := Some (js "n"); noteRef := Some (js "12") |}.
Proof.
  destruct (parseSupport_grammar (Some (js "n 	#12"))) as (_ & _ & H & _).
  apply (H (js "n 	#12")); [reflexivity|].
  apply (syntax_noted 110%N [32;9]%N [49;50]%N).
  - reflexivity.
  - repeat constructor.
  - split; [discriminate|repeat constructor].
Defined.

(** C1 as stated fails: ["y "] does not match
    [^(y|a|n|d|u)( *#<digits>)?$], yet it is parsed to the code [y]. *)
Lemma parseSupport_spec_grammar_counterexample :
  ~ (forall s, parseSupport (Some s) <> unknown ->
               matches_spec_grammar s = true).
Proof.
  intros H. specialize (H (js "y ")).
  assert (E : matches_spec_grammar (js "y ") = false) by reflexivity.
  rewrite E in H. enough (false = true) by discriminate.
  apply H. vm_compute. discriminate.
Qed.

(* ------------------------------------------------------------------ *)
(** ** The icon lookup and the purity of the combination builder *)

(** C10.  In [renderSupportCell] the lookup [SUPPORT_ICONS[code]] succeeds
    for every input: the code [parseSupport] returns is a string, it is a
    key of [SUPPORT_ICONS], and the icon and class of the cell are those
    of the entry found, never those of the fallback. *)
Theorem support_icon_lookup_never_falls_back (support : option jsstring) :
  exists c info,
    code (parseSupport support) = Some c /\
    In c (obj_keys SUPPORT_ICONS) /\
    obj_get SUPPORT_ICONS (to_key (code (parseSupport support))) = Some info /\
    forall notes source comboKey featureId,
      let cell := renderSupportCell support notes source comboKey featureId in
      innerHTML cell = icon info /\
      nth_error (classList cell) 1 = Some (class info).
Proof.
  destruct (parseSupport_well_formed support) as [(c & Hc & Hin) _].
  unfold renderSupportCell. rewrite Hc. cbn [to_key].
  simpl in Hin.
  destruct Hin as [<-|[<-|[<-|[<-|[<-|[]]]]]];
    eexists; eexists; (split; [reflexivity|]);
    (split; [simpl; auto 6|]); (split; [reflexivity|]);
    intros; split; reflexivity.
Qed.

(** A loop whose body leaves the state alone leaves it alone. *)
Lemma for_of_pure {A S : Type} (body : A -> S -> M S) (xs : list A) :
  (forall x s w, snd (body x s w) = w) ->
  forall s w, snd (for_of xs body s w) = w.
Proof.
  intros Hbody; induction xs as [|x xs IH]; intros s w; cbn [for_of].
  - reflexivity.
  - unfold bind. specialize (Hbody x s w).
    destruct (body x s w) as [s' w']. simpl in Hbody. subst w'. apply IH.
Qed.

Lemma getClientCombinations_pure (w : World) :
  snd (getClientCombinations w) = w.
Proof.
  unfold getClientCombinations, bind, gets.
  apply for_of_pure. intros [ideId ide] s w'.
  apply for_of_pure. intros aiClientId s' w''.
  unfold bind, gets. now destruct (obj_lookup (aiClients w'') aiClientId).
Qed.

(* ------------------------------------------------------------------ *)
(** ** The source overlay *)



(* ------------------------------------------------------------------ *)
(** ** Objects *)

(** Objects *)
Lemma obj_set_fresh {A} (o : jsobj A) k v :
  obj_get o k = None -> obj_set o k v = o ++ [(k, v)].
Proof.
  induction o as [|[k' v'] o IH]; simpl; [reflexivity|].
  destruct (jsstring_eq_dec k k'); [discriminate|].
  intros H. now rewrite IH.
Qed.

Lemma obj_get_app {A} (o1 o2 : jsobj A) k :
  obj_get (o1 ++ o2) k
  = match obj_get o1 k with Some v => Some v | None => obj_get o2 k end.
Proof.
  induction o1 as [|[k' v'] o1 IH]; simpl; [reflexivity|].
  now destruct (jsstring_eq_dec k k').
Qed.

Lemma obj_get_set_same {A} (o : jsobj A) k v :
  obj_get (obj_set o k v) k = Some v.
Proof.
  induction o as [|[k' v'] o IH]; simpl.
  - now destruct (jsstring_eq_dec k k).
  - destruct (jsstring_eq_dec k k') as [E|E]; simpl.
    + now destruct (jsstring_eq_dec k k').
    + now destruct (jsstring_eq_dec k k').
Qed.

Lemma obj_get_set_other {A} (o : jsobj A) k k' v :
  k' <> k -> obj_get (obj_set o k v) k' = obj_get o k'.
Proof.
  intros Hne. induction o as [|[k0 v0] o IH]; simpl.
  - now destruct (jsstring_eq_dec k' k).
  - destruct (jsstring_eq_dec k k0) as [E|E]; simpl.
    + subst k0. now destruct (jsstring_eq_dec k' k).
    + destruct (jsstring_eq_dec k' k0); [reflexivity|apply IH].
Qed.

Lemma obj_keys_set {A} (o : jsobj A) k v :
  obj_keys (obj_set o k v)
  = match obj_get o k with Some _ => obj_keys o | None => obj_keys o ++ [k] end.
Proof.
  unfold obj_keys. induction o as [|[k0 v0] o IH]; simpl; [reflexivity|].
  destruct (jsstring_eq_dec k k0); simpl; [reflexivity|].
  rewrite IH. now destruct (obj_get o k).
Qed.

Lemma obj_get_In_keys {A} (o : jsobj A) k :
  In k (obj_keys o) <-> exists v, obj_get o k = Some v.
Proof.
  unfold obj_keys. induction o as [|[k0 v0] o IH]; simpl.
  - split; [tauto|intros [v H]; discriminate].
  - destruct (jsstring_eq_dec k k0) as [->|Hne].
    + split; eauto.
    + rewrite <- IH. split; [intros [E|H]; [congruence|assumption]|auto].
Qed.

Lemma obj_get_None_keys {A} (o : jsobj A) k :
  obj_get o k = None <-> ~ In k (obj_keys o).
Proof.
  rewrite obj_get_In_keys. destruct (obj_get o k).
  - split; [discriminate|intros H; exfalso; eauto].
  - split; [intros _ [v H]; discriminate|reflexivity].
Qed.

(* ------------------------------------------------------------------ *)
(** ** The loader *)

Lemma loadJSON_returns {A} path (r : FetchOutcome A) w :
  fst (loadJSON path r w) = Fulfilled (fetched r) /\
  ides (snd (loadJSON path r w)) = ides w /\
  aiClients (snd (loadJSON path r w)) = aiClients w /\
  features (snd (loadJSON path r w)) = features w /\
  changelog (snd (loadJSON path r w)) = changelog w /\
  document (snd (loadJSON path r w)) = document w.
Proof.
  unfold loadJSON, fetched. destruct (loadJSON_try r); repeat split.
Qed.

(** What a task does to the program state. *)
Lemma run_task_effect net t w :
  fst (run_task net t w) = Fulfilled tt /\
  document (snd (run_task net t w)) = document w /\
  ides (snd (run_task net t w))
  = match t with
    | LoadIde id =>
        match fetched (serve_ide net (data_file "ides" id)) with
        | Some d => obj_set (ides w) id d
        | None => ides w
        end
    | _ => ides w
    end /\
  aiClients (snd (run_task net t w))
  = match t with
    | LoadAIClient id =>
        match fetched (serve_ai_client net (data_file "ai-clients" id)) with
        | Some d => obj_set (aiClients w) id d
        | None => aiClients w
        end
    | _ => aiClients w
    end /\
  features (snd (run_task net t w))
  = match t with
    | LoadFeature id =>
        match fetched (serve_feature net (data_file "features" id)) with
        | Some d => obj_set (features w) id d
        | None => features w
        end
    | _ => features w
    end.
Proof.
  destruct t as [id|id|id|]; unfold run_task, bind.
  - destruct (loadJSON_returns (data_file "ides" id)
                (serve_ide net (data_file "ides" id)) w)
      as (H1 & H2 & H3 & H4 & H5 & H6).
    destruct (loadJSON _ _ w) as [r w']. simpl in *. subst r.
    destruct (fetched _); simpl; rewrite ?H2, ?H3, ?H4, ?H6; repeat split.
  - destruct (loadJSON_returns (data_file "ai-clients" id)
                (serve_ai_client net (data_file "ai-clients" id)) w)
      as (H1 & H2 & H3 & H4 & H5 & H6).
    destruct (loadJSON _ _ w) as [r w']. simpl in *. subst r.
    destruct (fetched _); simpl; rewrite ?H2, ?H3, ?H4, ?H6; repeat split.
  - destruct (loadJSON_returns (data_file "features" id)
                (serve_feature net (data_file "features" id)) w)
      as (H1 & H2 & H3 & H4 & H5 & H6).
    destruct (loadJSON _ _ w) as [r w']. simpl in *. subst r.
    destruct (fetched _); simpl; rewrite ?H2, ?H3, ?H4, ?H6; repeat split.
  - destruct (loadJSON_returns changelog_file
                (serve_changelog net changelog_file) w)
      as (H1 & H2 & H3 & H4 & H5 & H6).
    destruct (loadJSON _ _ w) as [r w']. simpl in *. subst r.
    destruct (fetched _); simpl; rewrite ?H2, ?H3, ?H4, ?H6; repeat split.
Qed.

(** Promises *)
Lemma promise_of_resolve_other t t' s ps :
  t' <> t -> promise_of t' (resolve t s ps) = promise_of t' ps.
Proof.
  intros Hne; induction ps as [|[t0 s0] ps IH]; simpl; [reflexivity|].
  destruct (task_eq_dec t t0) as [->|E]; simpl.
  - now destruct (task_eq_dec t' t0).
  - destruct (task_eq_dec t' t0); [reflexivity|apply IH].
Qed.

Lemma promise_of_resolve_same t s ps p :
  promise_of t ps = Some p -> promise_of t (resolve t s ps) = Some (Some s).
Proof.
  induction ps as [|[t0 s0] ps IH]; simpl; [discriminate|].
  destruct (task_eq_dec t t0) as [->|E]; simpl.
  - now destruct (task_eq_dec t0 t0).
  - destruct (task_eq_dec t t0); [contradiction|apply IH].
Qed.

Lemma promise_of_fresh t (ts : list Task) :
  (In t ts -> promise_of t (map (fun t => (t, None)) ts) = Some None) /\
  (~ In t ts -> promise_of t (map (fun t => (t, None)) ts) = None).
Proof.
  induction ts as [|t0 ts [IH1 IH2]]; simpl.
  - split; [contradiction|reflexivity].
  - destruct (task_eq_dec t t0) as [->|E].
    + split; [reflexivity|intros H; exfalso; auto].
    + split; [intros [H|H]; [congruence|auto]|intros H; auto].
Qed.

Lemma is_pending_start t w :
  (In t started_tasks -> is_pending t (start w) = true) /\
  (~ In t started_tasks -> is_pending t (start w) = false).
Proof.
  unfold is_pending, start. cbn [promises].
  destruct (promise_of_fresh t started_tasks) as [H1 H2].
  split; intros H; [rewrite H1|rewrite H2]; auto.
Qed.

Lemma settle_pending net l t :
  is_pending t l = true ->
  settle net l t
  = mkLoading (snd (run_task net t (world l)))
              (resolve t (Fulfilled tt) (promises l)).
Proof.
  intros H. unfold settle. rewrite H.
  pose proof (run_task_effect net t (world l)) as (E & _).
  destruct (run_task net t (world l)) as [s w']. simpl in E. now subst s.
Qed.

Lemma settle_not_pending net l t :
  is_pending t l = false -> settle net l t = l.
Proof. intros H. unfold settle. now rewrite H. Qed.

Lemma is_pending_settle_other net l t t' :
  t' <> t -> is_pending t' (settle net l t) = is_pending t' l.
Proof.
  intros Hne. destruct (is_pending t l) eqn:E.
  - rewrite settle_pending by assumption. unfold is_pending; simpl.
    now rewrite promise_of_resolve_other.
  - now rewrite settle_not_pending.
Qed.

Lemma is_pending_settle_same net l t :
  is_pending t (settle net l t) = false.
Proof.
  destruct (is_pending t l) eqn:E.
  - rewrite settle_pending by assumption. unfold is_pending in *; simpl.
    destruct (promise_of t (promises l)) as [p|] eqn:Ep; [|discriminate].
    now rewrite (promise_of_resolve_same _ _ _ _ Ep).
  - now rewrite settle_not_pending.
Qed.

Lemma settle_world net l t :
  is_pending t l = true ->
  fresh_for [t] l ->
  ides (world (settle net l t))
    = ides (world l) ++ loaded_entries (serve_ide net) "ides" (ide_ids [t]) /\
  aiClients (world (settle net l t))
    = aiClients (world l)
      ++ loaded_entries (serve_ai_client net) "ai-clients" (ai_client_ids [t]) /\
  features (world (settle net l t))
    = features (world l)
      ++ loaded_entries (serve_feature net) "features" (feature_ids [t]) /\
  document (world (settle net l t)) = document (world l).
Proof.
  intros Hp [_ Hi Ha Hf]. rewrite settle_pending by assumption. cbn [world].
  destruct (run_task_effect net t (world l)) as (_ & Hd & Ei & Ea & Ef).
  rewrite Hd, Ei, Ea, Ef. unfold loaded_entries.
  destruct t as [id|id|id|]; cbn [ide_ids ai_client_ids feature_ids flat_map app];
    rewrite ?app_nil_r; repeat split.
  - destruct (fetched _); [|now rewrite app_nil_r].
    apply obj_set_fresh, Hi. now left.
  - destruct (fetched _); [|now rewrite app_nil_r].
    apply obj_set_fresh, Ha. now left.
  - destruct (fetched _); [|now rewrite app_nil_r].
    apply obj_set_fresh, Hf. now left.
Qed.

Lemma loaded_entries_keys {A} (serve : jsstring -> FetchOutcome A) dir ids id :
  In id (obj_keys (loaded_entries serve dir ids)) -> In id ids.
Proof.
  unfold obj_keys, loaded_entries. induction ids as [|i ids IH]; simpl; [auto|].
  rewrite map_app, in_app_iff. intros [H|H]; [|auto].
  destruct (fetched _); simpl in H; [|contradiction].
  destruct H as [H|[]]; auto.
Qed.

Lemma obj_get_app_fresh {A} (o o' : jsobj A) id :
  obj_get o id = None -> ~ In id (obj_keys o') -> obj_get (o ++ o') id = None.
Proof.
  intros H1 H2. rewrite obj_get_app, H1. now apply obj_get_None_keys.
Qed.

Lemma ide_ids_app s1 s2 : ide_ids (s1 ++ s2) = ide_ids s1 ++ ide_ids s2.
Proof. apply flat_map_app. Qed.
Lemma ai_client_ids_app s1 s2 :
  ai_client_ids (s1 ++ s2) = ai_client_ids s1 ++ ai_client_ids s2.
Proof. apply flat_map_app. Qed.
Lemma feature_ids_app s1 s2 :
  feature_ids (s1 ++ s2) = feature_ids s1 ++ feature_ids s2.
Proof. apply flat_map_app. Qed.

Lemma loaded_entries_app {A} (serve : jsstring -> FetchOutcome A) dir i1 i2 :
  loaded_entries serve dir (i1 ++ i2)
  = loaded_entries serve dir i1 ++ loaded_entries serve dir i2.
Proof. apply flat_map_app. Qed.

Lemma fresh_after_settle net t ts l :
  NoDup (t :: ts) -> fresh_for (t :: ts) l -> fresh_for ts (settle net l t).
Proof.
  intros Hnd Hf. inversion Hnd as [|? ? Hnotin _]; subst.
  assert (Hp : is_pending t l = true) by (apply Hf; now left).
  assert (Hf1 : fresh_for [t] l).
  { destruct Hf as [P I A F].
    split; intros ? [E|[]]; [apply P|apply I|apply A|apply F]; left; exact E. }
  destruct (settle_world net l t Hp Hf1) as (Ei & Ea & Ef & _).
  destruct Hf as [P I A F]. split.
  - intros t' Ht'. rewrite is_pending_settle_other; [apply P; now right|].
    intros ->; contradiction.
  - intros id Hid. rewrite Ei. apply obj_get_app_fresh; [apply I; now right|].
    intros Hk. apply loaded_entries_keys in Hk.
    destruct t; simpl in Hk; try contradiction.
    destruct Hk as [E|[]]. subst. contradiction.
  - intros id Hid. rewrite Ea. apply obj_get_app_fresh; [apply A; now right|].
    intros Hk. apply loaded_entries_keys in Hk.
    destruct t; simpl in Hk; try contradiction.
    destruct Hk as [E|[]]. subst. contradiction.
  - intros id Hid. rewrite Ef. apply obj_get_app_fresh; [apply F; now right|].
    intros Hk. apply loaded_entries_keys in Hk.
    destruct t; simpl in Hk; try contradiction.
    destruct Hk as [E|[]]. subst. contradiction.
Qed.

Lemma fold_settle_world net sched :
  forall l, NoDup sched -> fresh_for sched l ->
  let l' := fold_left (settle net) sched l in
  ides (world l')
    = ides (world l) ++ loaded_entries (serve_ide net) "ides" (ide_ids sched) /\
  aiClients (world l')
    = aiClients (world l)
      ++ loaded_entries (serve_ai_client net) "ai-clients" (ai_client_ids sched) /\
  features (world l')
    = features (world l)
      ++ loaded_entries (serve_feature net) "features" (feature_ids sched) /\
  document (world l') = document (world l) /\
  (forall t, In t sched -> is_pending t l' = false) /\
  (forall t, ~ In t sched -> is_pending t l' = is_pending t l).
Proof.
  induction sched as [|t ts IH]; intros l Hnd Hf; cbn [fold_left].
  - cbn. rewrite !app_nil_r. repeat split; auto. contradiction.
  - assert (Hp : is_pending t l = true) by (apply Hf; now left).
    assert (Hf1 : fresh_for [t] l).
    { destruct Hf as [P I A F].
      split; intros ? [E|[]]; [apply P|apply I|apply A|apply F]; left; exact E. }
    destruct (settle_world net l t Hp Hf1) as (Ei & Ea & Ef & Ed).
    pose proof (fresh_after_settle net t ts l Hnd Hf) as Hf'.
    inversion Hnd as [|? ? Hnotin Hnd']; subst.
    destruct (IH (settle net l t) Hnd' Hf') as (Ii & Ia & If & Id & Ip & Iq).
    cbv zeta in *.
    rewrite Ii, Ia, If, Id, Ei, Ea, Ef, Ed.
    change (t :: ts) with ([t] ++ ts).
    rewrite ide_ids_app, ai_client_ids_app, feature_ids_app,
      !loaded_entries_app, !app_assoc.
    repeat split.
    + intros t' [<-|Ht'].
      * rewrite Iq by assumption. apply is_pending_settle_same.
      * now apply Ip.
    + intros t' Ht'. rewrite Iq by (intros H; apply Ht'; now right).
      apply is_pending_settle_other. intros ->. apply Ht'. now left.
Qed.

Lemma distinct_NoDup ts : distinct ts = true -> NoDup ts.
Proof.
  induction ts as [|t ts IH]; simpl; [constructor|].
  rewrite andb_true_iff, negb_true_iff. intros [H1 H2].
  constructor; [|auto]. intros Hin.
  assert (existsb (fun t' => if task_eq_dec t t' then true else false) ts = true).
  { apply existsb_exists. exists t. split; [assumption|].
    now destruct (task_eq_dec t t). }
  congruence.
Qed.

Lemma started_tasks_NoDup : NoDup started_tasks.
Proof. apply distinct_NoDup. vm_compute. reflexivity. Qed.

Lemma resolve_shape t ps :
  Forall settled_ok ps ->
  Forall settled_ok (resolve t (Fulfilled tt) ps) /\
  map fst (resolve t (Fulfilled tt) ps) = map fst ps.
Proof.
  induction 1 as [|[t0 s0] ps Hp Hps [IH1 IH2]]; simpl; [split; constructor|].
  destruct (task_eq_dec t t0); simpl.
  - split; [constructor; [now right|assumption]|reflexivity].
  - split; [constructor; assumption|now rewrite IH2].
Qed.

Lemma settle_shape net l t :
  Forall settled_ok (promises l) ->
  Forall settled_ok (promises (settle net l t)) /\
  map fst (promises (settle net l t)) = map fst (promises l).
Proof.
  intros H. destruct (is_pending t l) eqn:E.
  - rewrite settle_pending by assumption. now apply resolve_shape.
  - rewrite settle_not_pending by assumption. auto.
Qed.

Lemma fold_settle_shape net sched :
  forall l, Forall settled_ok (promises l) ->
  Forall settled_ok (promises (fold_left (settle net) sched l)) /\
  map fst (promises (fold_left (settle net) sched l)) = map fst (promises l).
Proof.
  induction sched as [|t ts IH]; intros l H; cbn [fold_left]; [auto|].
  destruct (settle_shape net l t H) as [H1 H2].
  destruct (IH _ H1) as [H3 H4]. split; [assumption|congruence].
Qed.

Lemma start_shape w :
  Forall settled_ok (promises (start w)) /\
  map fst (promises (start w)) = started_tasks.
Proof.
  unfold start; cbn [promises]. split.
  - apply Forall_forall. intros p Hp. apply in_map_iff in Hp.
    destruct Hp as (t & <- & _). now left.
  - rewrite map_map. exact (map_id started_tasks).
Qed.

(** [Promise.all] over promises none of which is rejected. *)
Lemma promise_all_settled_ok ps :
  Forall settled_ok ps ->
  (forall e, promise_all ps <> Some (Rejected e)) /\
  (promise_all ps = Some (Fulfilled tt) <-> forall t, ~ In (t, None) ps) /\
  (promise_all ps = None <-> exists t, In (t, None) ps).
Proof.
  induction 1 as [|[t s] ps [Hs|Hs] Hps (IH1 & IH2 & IH3)]; simpl in *.
  - split; [discriminate|]. split; [tauto|].
    split; [discriminate|intros [t []]].
  - subst s. destruct (promise_all ps) as [[[]|e]|] eqn:E.
    + split; [discriminate|]. split.
      * split; [discriminate|]. intros H. exfalso. apply (H t). now left.
      * split; eauto.
    + exfalso. now apply (IH1 e).
    + split; [discriminate|]. split.
      * split; [discriminate|]. intros H. exfalso. apply (H t). now left.
      * split; eauto.
  - subst s. split; [assumption|]. split.
    + rewrite IH2. split.
      * intros H t' [E|Hin]; [discriminate|]. now apply (H t').
      * intros H t' Hin. apply (H t'). now right.
    + rewrite IH3. split.
      * intros [t' Hin]. exists t'. now right.
      * intros [t' [E|Hin]]; [discriminate|eauto].
Qed.

Lemma promise_of_In t s ps :
  promise_of t ps = Some s -> In (t, s) ps.
Proof.
  induction ps as [|[t0 s0] ps IH]; simpl; [discriminate|].
  destruct (task_eq_dec t t0) as [->|E].
  - intros H; injection H as ->. now left.
  - intros H. right. auto.
Qed.

Lemma In_promise_of t s ps :
  NoDup (map fst ps) -> In (t, s) ps -> promise_of t ps = Some s.
Proof.
  induction ps as [|[t0 s0] ps IH]; simpl; [contradiction|].
  intros Hnd [E|Hin].
  - injection E as -> ->. now destruct (task_eq_dec t t).
  - inversion Hnd as [|? ? Hnotin Hnd']; subst.
    destruct (task_eq_dec t t0) as [->|E]; [|auto].
    exfalso. apply Hnotin. apply in_map_iff. exists (t0, s). auto.
Qed.

Lemma is_pending_In t l :
  NoDup (map fst (promises l)) ->
  is_pending t l = true <-> In (t, None) (promises l).
Proof.
  intros Hnd. unfold is_pending. split.
  - destruct (promise_of t (promises l)) as [[s|]|] eqn:E; try discriminate.
    intros _. now apply promise_of_In.
  - intros H. now rewrite (In_promise_of _ _ _ Hnd H).
Qed.

(* ------------------------------------------------------------------ *)
(** ** The combination builder in closed form *)

Lemma for_of_append {A B : Type} (f : A -> World -> list B)
    (body : A -> list B -> M (list B)) (xs : list A) :
  (forall x s w, body x s w = (s ++ f x w, w)) ->
  forall s w, for_of xs body s w = (s ++ flat_map (fun x => f x w) xs, w).
Proof.
  intros Hbody; induction xs as [|x xs IH]; intros s w; cbn [for_of flat_map].
  - unfold ret. now rewrite app_nil_r.
  - unfold bind. rewrite Hbody, IH. now rewrite app_assoc.
Qed.

Lemma getClientCombinations_eq (w : World) :
  getClientCombinations w
  = (flat_map (combinations_of (aiClients w)) (obj_entries (ides w)), w).
Proof.
  unfold getClientCombinations, bind, gets.
  rewrite (for_of_append (fun e w => combinations_of (aiClients w) e)).
  - reflexivity.
  - intros [ideId ide] s w'. unfold combinations_of.
    rewrite (for_of_append (fun aiClientId w =>
      match obj_lookup (aiClients w) aiClientId with
      | Some aiClient =>
          [mkCombination (combo_key ideId aiClientId) ide ideId aiClient
                         aiClientId]
      | None => []
      end)).
    + reflexivity.
    + intros aiClientId s' w''. unfold bind, gets, ret.
      destruct (obj_lookup (aiClients w'') aiClientId); [reflexivity|].
      now rewrite app_nil_r.
Qed.


(** C6.  [getClientCombinations] leaves the whole program state as it
    found it, so a second invocation returns the same list of combination
    records in the same order; and the list depends on the two
    dictionaries only: invocations in states with the same [ides] and
    [aiClients] return the same list. *)
Theorem getClientCombinations_idempotent (w w' : World) :
  exec getClientCombinations w = w /\
  eval getClientCombinations (exec getClientCombinations w)
  = eval getClientCombinations w /\
  (ides w' = ides w -> aiClients w' = aiClients w ->
   eval getClientCombinations w' = eval getClientCombinations w).
Proof.
  unfold exec, eval. rewrite !getClientCombinations_pure.
  split; [reflexivity|]. split; [reflexivity|].
  intros Hi Ha. rewrite !getClientCombinations_eq. cbn [fst].
  unfold obj_entries. now rewrite Hi, Ha.
Qed.

(** The rendered page and the loaded state hold the same dictionaries. *)
Lemma getClientCombinations_idempotent_witness :
  eval getClientCombinations Sample.page
  = eval getClientCombinations Sample.loaded.
Proof.
  destruct (getClientCombinations_idempotent Sample.loaded Sample.page)
    as (_ & _ & H).
  apply H; vm_compute; reflexivity.
Defined.

(** ** The loaded state *)

Lemma start_fresh sched :
  incl sched started_tasks -> fresh_for sched (start initial_world).
Proof.
  intros Hincl. split; try reflexivity.
  intros t Ht. now apply is_pending_start, Hincl.
Qed.

Lemma loadAllData_world net sched :
  NoDup sched -> incl sched started_tasks ->
  let l := loadAllData net sched initial_world in
  ides (world l) = loaded_entries (serve_ide net) "ides" (ide_ids sched) /\
  aiClients (world l)
  = loaded_entries (serve_ai_client net) "ai-clients" (ai_client_ids sched) /\
  features (world l)
  = loaded_entries (serve_feature net) "features" (feature_ids sched) /\
  document (world l) = document initial_world.
Proof.
  intros Hnd Hincl.
  destruct (fold_settle_world net sched (start initial_world) Hnd
              (start_fresh sched Hincl)) as (H1 & H2 & H3 & H4 & _).
  unfold loadAllData. cbv zeta in *. rewrite H1, H2, H3, H4. repeat split.
Qed.


Lemma load_complete_iff net sched :
  NoDup sched -> incl sched started_tasks ->
  load_complete (loadAllData net sched initial_world) = true
  <-> incl started_tasks sched.
Proof.
  intros Hnd Hincl. unfold load_complete, loadAllData.
  destruct (fold_settle_shape net sched (start initial_world)) as [Hok Hkeys];
    [apply start_shape|].
  destruct (start_shape initial_world) as [_ Hst]. rewrite Hst in Hkeys.
  destruct (fold_settle_world net sched (start initial_world) Hnd
              (start_fresh sched Hincl)) as (_ & _ & _ & _ & Hp & Hq).
  cbv zeta in *.
  set (l := fold_left (settle net) sched (start initial_world)) in *.
  assert (Hnodup : NoDup (map fst (promises l)))
    by (rewrite Hkeys; apply started_tasks_NoDup).
  destruct (promise_all_settled_ok _ Hok) as (Hrej & Hful & _).
  split.
  - intros H t Ht.
    destruct (in_dec task_eq_dec t sched) as [|Hnot]; [assumption|exfalso].
    assert (Ep : is_pending t l = true).
    { rewrite Hq by assumption. now apply is_pending_start. }
    apply (is_pending_In _ _ Hnodup) in Ep.
    destruct (promise_all (promises l)) as [[[]|]|] eqn:E; try discriminate.
    destruct Hful as [Hful _]. now apply (Hful eq_refl t).
  - intros H.
    assert (E : promise_all (promises l) = Some (Fulfilled tt)).
    { apply Hful. intros t Hin.
      assert (Ht : In t started_tasks).
      { rewrite <- Hkeys. apply in_map_iff. exists (t, None). auto. }
      apply (is_pending_In _ _ Hnodup) in Hin.
      rewrite (Hp t (H t Ht)) in Hin. discriminate. }
    now rewrite E.
Qed.

Lemma obj_get_loaded_entries {A} (serve : jsstring -> FetchOutcome A) dir ids id :
  obj_get (loaded_entries serve dir ids) id
  = if in_dec jsstring_eq_dec id ids then fetched (serve (data_file dir id))
    else None.
Proof.
  unfold loaded_entries. induction ids as [|i ids IH]; [reflexivity|].
  cbn [flat_map]. rewrite obj_get_app, IH. clear IH.
  destruct (in_dec jsstring_eq_dec id (i :: ids)) as [Hin|Hnot].
  - destruct (jsstring_eq_dec id i) as [->|Hne].
    + destruct (fetched (serve (data_file dir i))) eqn:E; simpl.
      * now destruct (jsstring_eq_dec i i).
      * now destruct (in_dec jsstring_eq_dec i ids).
    + destruct Hin as [E|Hin]; [congruence|].
      destruct (in_dec jsstring_eq_dec id ids); [|contradiction].
      destruct (fetched (serve (data_file dir i))); simpl; [|reflexivity].
      now destruct (jsstring_eq_dec id i).
  - assert (id <> i) by (intros ->; apply Hnot; now left).
    destruct (in_dec jsstring_eq_dec id ids) as [Hin|_];
      [exfalso; apply Hnot; now right|].
    destruct (fetched (serve (data_file dir i))); simpl; [|reflexivity].
    now destruct (jsstring_eq_dec id i).
Qed.

Lemma ids_of_schedule sched :
  (forall id, In id (ide_ids sched) <-> In (LoadIde id) sched) /\
  (forall id, In id (ai_client_ids sched) <-> In (LoadAIClient id) sched) /\
  (forall id, In id (feature_ids sched) <-> In (LoadFeature id) sched).
Proof.
  unfold ide_ids, ai_client_ids, feature_ids.
  repeat split; rewrite in_flat_map.
  all: try (intros (t & Ht & Hid); destruct t; simpl in Hid;
            try contradiction; destruct Hid as [<-|[]]; assumption).
  all: intros H; eexists; split; [eassumption|now left].
Qed.

Lemma started_tasks_ids :
  (forall id, In (LoadIde id) started_tasks <-> In id IDE_FILES) /\
  (forall id, In (LoadAIClient id) started_tasks <-> In id AI_CLIENT_FILES) /\
  (forall id, In (LoadFeature id) started_tasks <-> In id FEATURE_FILES).
Proof.
  unfold started_tasks.
  repeat split; rewrite !in_app_iff, !in_map_iff.
  all: try (intros [(x & E & H)|[(x & E & H)|[(x & E & H)|[E|[]]]]];
            try discriminate; injection E as <-; assumption).
  - intros H; left; eauto.
  - intros H; right; left; eauto.
  - intros H; right; right; left; eauto.
Qed.

(* ------------------------------------------------------------------ *)
(** ** Rendering *)

Lemma renderFeaturesMatrix_eq lc w :
  exec (renderFeaturesMatrix lc) w = set_features_matrix (features_view lc w) w.
Proof.
  unfold exec, renderFeaturesMatrix, bind. rewrite getClientCombinations_eq.
  unfold gets, features_view.
  now destruct ((length _ =? 0) || (length (obj_keys (features w)) =? 0)).
Qed.

Lemma renderPluginsMatrix_eq w :
  exists v, exec renderPluginsMatrix w = set_plugins_matrix v w.
Proof.
  unfold exec, renderPluginsMatrix, bind, gets.
  destruct ((length (obj_keys (ides w)) =? 0)
            || (length (obj_keys (aiClients w)) =? 0)).
  - eexists; reflexivity.
  - destruct (partition_ides (ides w)). eexists; reflexivity.
Qed.

Lemma render_all_features lc w :
  features_matrix (document (exec (render_all lc) w)) = features_view lc w.
Proof.
  unfold exec, render_all, bind.
  destruct (renderPluginsMatrix_eq w) as [v Hv]. unfold exec in Hv.
  destruct (renderPluginsMatrix w) as [u w1]. simpl in Hv. subst w1.
  pose proof (renderFeaturesMatrix_eq lc (set_plugins_matrix v w)) as H.
  unfold exec in H. rewrite H. reflexivity.
Qed.




Lemma feature_list_empty fs :
  length (obj_keys fs) = 0 -> feature_list fs = [].
Proof.
  destruct fs; [reflexivity|discriminate].
Qed.

Lemma features_view_columns lc w :
  flat_map (combinations_of (aiClients w)) (obj_entries (ides w)) <> [] ->
  columns (features_view lc w) = map Feature.title (feature_list (features w)).
Proof.
  intros Hne. unfold features_view.
  destruct (flat_map _ _) as [|c cs] eqn:E; [contradiction|].
  cbn [length Nat.eqb orb].
  destruct (length (obj_keys (features w)) =? 0) eqn:El.
  - apply Nat.eqb_eq in El. now rewrite (feature_list_empty _ El).
  - cbn [columns]. rewrite map_map. reflexivity.
Qed.

Lemma flat_map_ext_in {A B} (f g : A -> list B) l :
  (forall a, In a l -> f a = g a) -> flat_map f l = flat_map g l.
Proof.
  induction l as [|a l IH]; intros H; simpl; [reflexivity|].
  rewrite (H a) by now left. rewrite IH; [reflexivity|].
  intros; apply H; now right.
Qed.

Lemma complete_schedule sched :
  Permutation sched started_tasks ->
  NoDup sched /\ incl sched started_tasks /\ incl started_tasks sched.
Proof.
  intros Hp. split; [|split].
  - apply (Permutation_NoDup (Permutation_sym Hp)), started_tasks_NoDup.
  - intros t Ht. now apply (Permutation_in _ Hp).
  - intros t Ht. now apply (Permutation_in _ (Permutation_sym Hp)).
Qed.










(* ------------------------------------------------------------------ *)
(** ** Sorting and grouping *)

Lemma jseqb_eq a b : jseqb a b = true <-> a = b.
Proof.
  unfold jseqb. destruct (jsstring_eq_dec a b); split; congruence.
Qed.

Lemma jseqb_refl a : jseqb a a = true.
Proof. now apply jseqb_eq. Qed.

Lemma jseqb_neq a b : jseqb a b = false <-> a <> b.
Proof.
  unfold jseqb. destruct (jsstring_eq_dec a b); split; congruence.
Qed.

(** ** Sorting with a consistent comparator *)
Section Sorting.

Context {A : Type} (cmp : A -> A -> Z).
Hypothesis cmp_total : forall a b, (cmp a b <= 0 \/ cmp b a <= 0)%Z.
Hypothesis cmp_trans :
  forall a b c, (cmp a b <= 0 -> cmp b c <= 0 -> cmp a c <= 0)%Z.

Lemma insert_by_perm x l : Permutation (insert_by cmp x l) (x :: l).
Proof.
  induction l as [|y l IH]; simpl; [reflexivity|].
  destruct (cmp x y <=? 0)%Z; [reflexivity|].
  rewrite IH. apply perm_swap.
Qed.

Lemma array_sort_perm l : Permutation (array_sort cmp l) l.
Proof.
  induction l as [|x l IH]; simpl; [reflexivity|].
  rewrite insert_by_perm. now constructor.
Qed.

Lemma insert_by_sorted x l :
  StronglySorted (fun a b => (cmp a b <= 0)%Z) l ->
  StronglySorted (fun a b => (cmp a b <= 0)%Z) (insert_by cmp x l).
Proof.
  induction 1 as [|y l Hl IH Hy]; simpl.
  - constructor; constructor.
  - destruct (cmp x y <=? 0)%Z eqn:E.
    + apply Z.leb_le in E. constructor; [now constructor|].
      constructor; [assumption|].
      rewrite Forall_forall in *. intros z Hz. eapply cmp_trans; eauto.
    + apply Z.leb_gt in E. constructor; [assumption|].
      rewrite Forall_forall in *. intros z Hz.
      apply (Permutation_in _ (insert_by_perm x l)) in Hz.
      destruct Hz as [<-|Hz]; [|auto].
      destruct (cmp_total y x); [assumption|lia].
Qed.

Lemma array_sort_sorted l :
  StronglySorted (fun a b => (cmp a b <= 0)%Z) (array_sort cmp l).
Proof.
  induction l as [|x l IH]; simpl; [constructor|now apply insert_by_sorted].
Qed.

Lemma sorted_before l1 a l2 b l3 :
  StronglySorted (fun a b => (cmp a b <= 0)%Z) (l1 ++ a :: l2 ++ b :: l3) ->
  (cmp a b <= 0)%Z.
Proof.
  induction l1 as [|x l1 IH]; simpl; intros H; inversion H as [|? ? Hs Hf]; subst.
  - rewrite Forall_forall in Hf. apply Hf. apply in_or_app. right. now left.
  - auto.
Qed.

End Sorting.

(** Two members of a duplicate-free list stand in one order or the other. *)
Lemma two_members {A} (a b : A) l :
  In a l -> In b l -> a <> b ->
  (exists l1 l2 l3, l = l1 ++ a :: l2 ++ b :: l3) \/
  (exists l1 l2 l3, l = l1 ++ b :: l2 ++ a :: l3).
Proof.
  intros Ha Hb Hne. apply in_split in Ha. destruct Ha as (l1 & l2 & ->).
  apply in_app_or in Hb. destruct Hb as [Hb|[Hb|Hb]]; [|congruence|].
  - apply in_split in Hb. destruct Hb as (m1 & m2 & ->). right.
    exists m1, m2, l2. now rewrite <- app_assoc.
  - apply in_split in Hb. destruct Hb as (m1 & m2 & ->). left.
    exists l1, m1, m2. reflexivity.
Qed.

(** ** Grouping *)

Lemma obj_keys_NoDup_set {A} (o : jsobj A) k v :
  NoDup (obj_keys o) -> NoDup (obj_keys (obj_set o k v)).
Proof.
  intros H. rewrite obj_keys_set. destruct (obj_get o k) eqn:E; [assumption|].
  apply obj_get_None_keys in E.
  apply (Permutation_NoDup (l:=k :: obj_keys o)); [|now constructor].
  apply Permutation_cons_append.
Qed.

Lemma group_step_spec g p c :
  NoDup (obj_keys g) -> (forall id, obj_get g id = group_spec p id) ->
  NoDup (obj_keys (group_step g c)) /\
  (forall id, obj_get (group_step g c) id = group_spec (p ++ [c]) id).
Proof.
  intros Hnd Hg. unfold group_step.
  set (g1 := match obj_get g (ideId c) with
             | Some _ => g
             | None => obj_set g (ideId c) (mkGroup (ide c) [])
             end).
  assert (Hnd1 : NoDup (obj_keys g1)).
  { unfold g1. destruct (obj_get g (ideId c)); [assumption|].
    now apply obj_keys_NoDup_set. }
  assert (H1 : obj_get g1 (ideId c)
               = Some match obj_get g (ideId c) with
                      | Some grp => grp
                      | None => mkGroup (ide c) []
                      end).
  { unfold g1. destruct (obj_get g (ideId c)) eqn:E; [assumption|].
    apply obj_get_set_same. }
  assert (H1' : forall id, id <> ideId c -> obj_get g1 id = obj_get g id).
  { intros id Hne. unfold g1. destruct (obj_get g (ideId c)); [reflexivity|].
    now apply obj_get_set_other. }
  rewrite H1. split; [now apply obj_keys_NoDup_set|].
  intros id. unfold group_spec. rewrite filter_app. cbn [filter].
  unfold of_interface at 2. destruct (jsstring_eq_dec id (ideId c)) as [->|Hne].
  - rewrite jseqb_refl, obj_get_set_same, Hg. unfold group_spec.
    destruct (filter (of_interface (ideId c)) p); reflexivity.
  - rewrite obj_get_set_other, H1', Hg by assumption. unfold group_spec.
    assert (E : jseqb (ideId c) id = false) by (apply jseqb_neq; congruence).
    rewrite E, app_nil_r. reflexivity.
Qed.

Lemma group_by_ide_spec cs :
  NoDup (obj_keys (group_by_ide cs)) /\
  (forall id, obj_get (group_by_ide cs) id = group_spec cs id).
Proof.
  change (group_by_ide cs) with (fold_left group_step cs []).
  induction cs as [|c cs IH] using rev_ind.
  - split; [constructor|reflexivity].
  - rewrite fold_left_app. cbn [fold_left]. destruct IH as [H1 H2].
    now apply group_step_spec.
Qed.

(** ** The order of the rendered groups *)

Lemma render_group_leader fl g id grp :
  obj_get g id = Some grp ->
  flat_map leader (render_group fl g id) = [Ide.name (group_ide grp)].
Proof.
  intros E. unfold render_group. rewrite E.
  assert (Hm : forall cs,
    flat_map leader (map (fun combo =>
       mkTr [js "ide-group-row"; group_id id] None None (js "none")
            (ClientName (client_label id (group_ide grp) combo))
            (support_cells fl combo)) cs) = []).
  { induction cs as [|c cs IH]; [reflexivity|exact IH]. }
  destruct (combos grp) as [|c [|c' cs]]; try reflexivity.
  cbn [flat_map leader tr_label app].
  fold (flat_map leader (map (fun combo =>
       mkTr [js "ide-group-row"; group_id id] None None (js "none")
            (ClientName (client_label id (group_ide grp) combo))
            (support_cells fl combo)) (c :: c' :: cs))).
  now rewrite Hm.
Qed.

Lemma rendered_leaders fl g ids :
  (forall id, In id ids -> In id (obj_keys g)) ->
  flat_map leader (flat_map (render_group fl g) ids) = map (group_name g) ids.
Proof.
  induction ids as [|id ids IH]; intros Hk; [reflexivity|].
  cbn [flat_map map]. rewrite flat_map_app, IH by (intros; apply Hk; now right).
  destruct (proj1 (obj_get_In_keys g id) (Hk id (or_introl eq_refl))) as [grp E].
  rewrite (render_group_leader fl g id grp E). unfold group_name. now rewrite E.
Qed.

Section RowGroups.

Variable localeCompare : jsstring -> jsstring -> Z.
Hypothesis localeCompare_antisym :
  forall a b, (localeCompare a b < 0 <-> 0 < localeCompare b a)%Z.
Hypothesis localeCompare_trans :
  forall a b c, (localeCompare a b <= 0 -> localeCompare b c <= 0 ->
                 localeCompare a c <= 0)%Z.

Lemma by_count_then_name_cases g a b :
  (by_count_then_name localeCompare g a b <= 0)%Z <->
  (group_size g b < group_size g a)%Z \/
  (group_size g a = group_size g b /\
   (localeCompare (group_name g a) (group_name g b) <= 0)%Z).
Proof.
  unfold by_count_then_name.
  destruct (group_size g b - group_size g a =? 0)%Z eqn:E; simpl.
  - apply Z.eqb_eq in E. split; [intros H; right; split; [lia|assumption]|].
    intros [H|[_ H]]; [lia|assumption].
  - apply Z.eqb_neq in E. split; [intros H; left; lia|].
    intros [H|[H _]]; lia.
Qed.

Lemma by_count_then_name_total g a b :
  (by_count_then_name localeCompare g a b <= 0 \/
   by_count_then_name localeCompare g b a <= 0)%Z.
Proof.
  rewrite !by_count_then_name_cases.
  destruct (Z.lt_trichotomy (group_size g a) (group_size g b)) as [H|[H|H]];
    [right; now left| |left; now left].
  destruct (Z_le_gt_dec (localeCompare (group_name g a) (group_name g b)) 0)
    as [Hle|Hgt]; [left; right; auto|].
  right; right. split; [auto|].
  pose proof (localeCompare_antisym (group_name g b) (group_name g a)). lia.
Qed.

Lemma by_count_then_name_trans g a b c :
  (by_count_then_name localeCompare g a b <= 0 ->
   by_count_then_name localeCompare g b c <= 0 ->
   by_count_then_name localeCompare g a c <= 0)%Z.
Proof.
  rewrite !by_count_then_name_cases.
  intros [H1|[H1 L1]] [H2|[H2 L2]]; try (left; lia).
  right. split; [lia|]. eapply localeCompare_trans; eauto.
Qed.

Lemma group_spec_filter cs id :
  group_size (group_by_ide cs) id
  = Z.of_nat (length (filter (of_interface id) cs)).
Proof.
  unfold group_size. rewrite (proj2 (group_by_ide_spec cs)). unfold group_spec.
  now destruct (filter (of_interface id) cs).
Qed.

Lemma group_keys cs id :
  In id (obj_keys (group_by_ide cs)) <-> exists c, In c cs /\ ideId c = id.
Proof.
  rewrite obj_get_In_keys, (proj2 (group_by_ide_spec cs)). unfold group_spec.
  split.
  - intros [v H]. destruct (filter (of_interface id) cs) as [|c l] eqn:E;
      [discriminate|].
    assert (Hc : In c (filter (of_interface id) cs)) by (rewrite E; now left).
    apply filter_In in Hc. destruct Hc as [Hc Hid]. exists c. split; [auto|].
    now apply jseqb_eq.
  - intros (c & Hc & Hid).
    assert (Hin : In c (filter (of_interface id) cs)).
    { apply filter_In. split; [auto|]. now apply jseqb_eq. }
    destruct (filter (of_interface id) cs); [contradiction|eauto].
Qed.

(** The order [renderFeaturesMatrix] gives the groups of a list of
    combinations: the sorted identifiers are those of the interfaces with
    at least one combination, each once; the count of a group is the
    number of combinations of its interface; a group that comes before
    another has at least its count and, at equal counts, a name that does
    not compare after the other's; and the leading rows of the groups
    follow this order. *)
Lemma sortedIdeIds_spec (cs : list Combination) :
  let groupedByIde := group_by_ide cs in
  let sorted := sortedIdeIds localeCompare groupedByIde in
  let count id := group_size groupedByIde id in
  let name id := group_name groupedByIde id in
  Permutation sorted (obj_keys groupedByIde) /\
  NoDup sorted /\
  (forall id, In id sorted <-> exists c, In c cs /\ ideId c = id) /\
  (forall id, count id = Z.of_nat (length (filter (of_interface id) cs))) /\
  (forall l1 a l2 b l3, sorted = l1 ++ a :: l2 ++ b :: l3 ->
     (count b <= count a)%Z /\
     (count a = count b -> (localeCompare (name a) (name b) <= 0)%Z)) /\
  (forall a b, In a sorted -> In b sorted ->
     (count b < count a)%Z \/
     (count a = count b /\ (localeCompare (name a) (name b) < 0)%Z) ->
     exists l1 l2 l3, sorted = l1 ++ a :: l2 ++ b :: l3) /\
  (forall featureList,
     flat_map leader (flat_map (render_group featureList groupedByIde) sorted)
     = map name sorted).
Proof.
  cbv zeta.
  set (g := group_by_ide cs).
  assert (Hperm : Permutation (sortedIdeIds localeCompare g) (obj_keys g))
    by apply array_sort_perm.
  assert (Hnd : NoDup (sortedIdeIds localeCompare g)).
  { apply (Permutation_NoDup (Permutation_sym Hperm)).
    apply group_by_ide_spec. }
  assert (Hsorted : StronglySorted
            (fun a b => (by_count_then_name localeCompare g a b <= 0)%Z)
            (sortedIdeIds localeCompare g)).
  { apply array_sort_sorted;
      [apply by_count_then_name_total|apply by_count_then_name_trans]. }
  assert (Hord : forall l1 a l2 b l3,
            sortedIdeIds localeCompare g = l1 ++ a :: l2 ++ b :: l3 ->
            (group_size g b <= group_size g a)%Z /\
            (group_size g a = group_size g b ->
             (localeCompare (group_name g a) (group_name g b) <= 0)%Z)).
  { intros l1 a l2 b l3 E. rewrite E in Hsorted.
    apply sorted_before in Hsorted. apply by_count_then_name_cases in Hsorted.
    destruct Hsorted as [H|[H1 H2]]; split; try lia; auto. }
  split; [assumption|]. split; [assumption|].
  split.
  { intros id. rewrite <- group_keys. fold g. split; intros H.
    - now apply (Permutation_in _ Hperm).
    - now apply (Permutation_in _ (Permutation_sym Hperm)). }
  split; [intros id; apply group_spec_filter|].
  split; [assumption|].
  split; [|intros fl; apply rendered_leaders; intros id Hid;
           now apply (Permutation_in _ Hperm)].
  intros a b Ha Hb Hlt.
  assert (Hne : a <> b).
  { intros ->. destruct Hlt as [H|[_ H]]; [lia|].
    pose proof (localeCompare_antisym (group_name g b) (group_name g b)). lia. }
  destruct (two_members a b _ Ha Hb Hne) as [H|(l1 & l2 & l3 & E)];
    [assumption|exfalso].
  destruct (Hord _ _ _ _ _ E) as [H1 H2].
  destruct Hlt as [H|[He H]]; [lia|].
  specialize (H2 (eq_sym He)).
  pose proof (localeCompare_antisym (group_name g a) (group_name g b)). lia.
Qed.

End RowGroups.

(* ------------------------------------------------------------------ *)
(** ** Collapsing groups *)

Lemma combine_map_self {A B} (f : A -> B) l :
  combine l (map f l) = map (fun x => (x, f x)) l.
Proof. induction l as [|x l IH]; simpl; [reflexivity|now rewrite IH]. Qed.

Lemma is_group_header_headers groupId row :
  is_group_header groupId row = true -> tr_data_group row = Some groupId.
Proof.
  unfold is_group_header. destruct (tr_data_group row) as [g|]; [|discriminate].
  intros H. apply jseqb_eq in H. now subst.
Qed.

Lemma no_header_map groupId body :
  ~ In groupId (headers body) ->
  map (fun row =>
         if is_group_header groupId row
         then set_tr_classList
                (fst (classList_toggle (js "expanded") (tr_classList row))) row
         else row) body = body /\
  toggle_header groupId body = None.
Proof.
  induction body as [|row body IH]; intros Hn; [split; reflexivity|].
  cbn [map toggle_header].
  destruct (is_group_header groupId row) eqn:E.
  - exfalso. apply Hn. apply is_group_header_headers in E.
    unfold headers. cbn [flat_map]. rewrite E. now left.
  - destruct IH as [IH1 IH2].
    { intros H. apply Hn. unfold headers. cbn [flat_map].
      apply in_or_app. now right. }
    rewrite IH1, IH2. split; reflexivity.
Qed.

Lemma toggle_header_rowwise groupId body :
  NoDup (headers body) ->
  toggle_header groupId body
  = match find (is_group_header groupId) body with
    | None => None
    | Some h =>
        Some (map (fun row =>
                if is_group_header groupId row
                then set_tr_classList
                       (fst (classList_toggle (js "expanded")
                                              (tr_classList row))) row
                else row) body,
              negb (has_class (js "expanded") (tr_classList h)))
    end.
Proof.
  induction body as [|row body IH]; intros Hnd; [reflexivity|].
  cbn [toggle_header find map].
  destruct (is_group_header groupId row) eqn:E.
  - pose proof (is_group_header_headers _ _ E) as Hg.
    unfold headers in Hnd. cbn [flat_map] in Hnd. rewrite Hg in Hnd.
    inversion Hnd as [|? ? Hnotin _]; subst.
    destruct (no_header_map groupId body Hnotin) as [-> _].
    unfold classList_toggle.
    destruct (has_class (js "expanded") (tr_classList row)); reflexivity.
  - rewrite IH.
    + destruct (find (is_group_header groupId) body); reflexivity.
    + unfold headers in Hnd. cbn [flat_map] in Hnd.
      now apply NoDup_app_remove_l in Hnd.
Qed.

Lemma toggle_rows_rowwise groupId body :
  NoDup (headers body) ->
  toggle_rows groupId body
  = match find (is_group_header groupId) body with
    | None => None
    | Some h =>
        Some (map (toggle_row groupId
                     (negb (has_class (js "expanded") (tr_classList h)))) body)
    end.
Proof.
  intros Hnd. unfold toggle_rows. rewrite toggle_header_rowwise by assumption.
  destruct (find (is_group_header groupId) body) as [h|]; [|reflexivity].
  rewrite combine_map_self, map_map. reflexivity.
Qed.

Lemma group_id_inj a b : group_id a = group_id b -> a = b.
Proof. unfold group_id. apply app_inv_head. Qed.

Lemma group_id_not_keyword id :
  jseqb (js "expanded") (group_id id) = false /\
  jseqb (group_id id) (js "expanded") = false /\
  jseqb (group_id id) (js "ide-group-header") = false /\
  jseqb (group_id id) (js "ide-group-row") = false.
Proof.
  repeat split; apply jseqb_neq; unfold group_id; cbn; discriminate.
Qed.

Lemma clicks_on_snoc g g' cl :
  clicks_on g (cl ++ [g'])
  = if jsstring_eq_dec g' g then S (clicks_on g cl) else clicks_on g cl.
Proof.
  unfold clicks_on. rewrite count_occ_app. cbn [count_occ].
  destruct (jsstring_eq_dec g' g); lia.
Qed.

Lemma set_tr_classList_same row : set_tr_classList (tr_classList row) row = row.
Proof. now destruct row. Qed.

Lemma set_tr_display_same row : set_tr_display (tr_display row) row = row.
Proof. now destruct row. Qed.

Lemma after_no_clicks groups row :
  rendered_row groups row -> after_clicks [] row = row.
Proof.
  intros [Hd Hc|id Hd Hc|id Hin Hd Hc Hdisp]; unfold after_clicks;
    rewrite Hd, ?Hc; try change (Nat.odd (clicks_on (group_id id) [])) with false;
    cbv iota.
  - reflexivity.
  - rewrite <- Hc. apply set_tr_classList_same.
  - unfold display_for. rewrite <- Hdisp. apply set_tr_display_same.
Qed.

Lemma after_clicks_data_group cl row :
  tr_data_group (after_clicks cl row) = tr_data_group row.
Proof.
  unfold after_clicks. destruct (tr_data_group row) eqn:E; [exact E|].
  destruct (tr_classList row) as [|a [|b [|c l]]]; exact E.
Qed.

Lemma headers_after_clicks cl body :
  headers (map (after_clicks cl) body) = headers body.
Proof.
  unfold headers. induction body as [|row body IH]; [reflexivity|].
  cbn [map flat_map]. now rewrite IH, after_clicks_data_group.
Qed.

Lemma find_after_clicks groupId cl body :
  find (is_group_header groupId) (map (after_clicks cl) body)
  = option_map (after_clicks cl) (find (is_group_header groupId) body).
Proof.
  induction body as [|row body IH]; [reflexivity|]. cbn [map find].
  unfold is_group_header at 1. rewrite after_clicks_data_group.
  fold (is_group_header groupId row).
  now destruct (is_group_header groupId row).
Qed.

Lemma find_header_In groupId body h :
  find (is_group_header groupId) body = Some h ->
  In h body /\ tr_data_group h = Some groupId /\ In groupId (headers body).
Proof.
  intros H. apply find_some in H. destruct H as [Hin Hh].
  apply is_group_header_headers in Hh. repeat split; auto.
  unfold headers. apply in_flat_map. exists h. rewrite Hh. split; [auto|now left].
Qed.

Lemma find_header_None groupId body :
  find (is_group_header groupId) body = None -> ~ In groupId (headers body).
Proof.
  intros H Hin. unfold headers in Hin. apply in_flat_map in Hin.
  destruct Hin as (row & Hrow & Hg).
  destruct (tr_data_group row) as [g|] eqn:E; [|contradiction].
  destruct Hg as [->|[]].
  pose proof (find_none _ _ H row Hrow) as Hf.
  unfold is_group_header in Hf. rewrite E, jseqb_refl in Hf. discriminate.
Qed.

Lemma header_classes_expanded (o : bool) :
  has_class (js "expanded")
    (js "ide-group-header" :: if o then [js "expanded"] else []) = o.
Proof. now destruct o. Qed.

Lemma header_classes_toggle (o : bool) :
  fst (classList_toggle (js "expanded")
         (js "ide-group-header" :: if o then [js "expanded"] else []))
  = js "ide-group-header" :: if negb o then [js "expanded"] else [].
Proof. now destruct o. Qed.

Lemma header_classes_group id (o : bool) :
  has_class (group_id id)
    (js "ide-group-header" :: if o then [js "expanded"] else []) = false.
Proof.
  destruct (group_id_not_keyword id) as (_ & K2 & K3 & _).
  unfold has_class, includes.
  destruct o; cbn [existsb]; now rewrite ?K2, ?K3.
Qed.

Lemma member_classes_group id id' :
  has_class (group_id id) [js "ide-group-row"; group_id id']
  = jseqb (group_id id) (group_id id').
Proof.
  destruct (group_id_not_keyword id) as (_ & _ & _ & K4).
  unfold has_class, includes. cbn [existsb]. rewrite K4.
  now rewrite orb_false_r.
Qed.

(** The state of a header after the clicks. *)
Lemma header_after_clicks groups cl h groupId :
  rendered_row groups h -> tr_data_group h = Some groupId ->
  has_class (js "expanded") (tr_classList (after_clicks cl h))
  = Nat.odd (clicks_on groupId cl).
Proof.
  intros _ Hd. unfold after_clicks. rewrite Hd.
  cbn [tr_classList set_tr_classList]. apply header_classes_expanded.
Qed.

(** One more click on a group, row by row. *)
Lemma toggle_row_after groups cl groupId row :
  rendered_row groups row -> In groupId groups ->
  (forall g, In g groups -> exists id, g = group_id id) ->
  toggle_row groupId (negb (Nat.odd (clicks_on groupId cl))) (after_clicks cl row)
  = after_clicks (cl ++ [groupId]) row.
Proof.
  intros Hrow Hin Hgroups. destruct (Hgroups _ Hin) as [gid ->].
  destruct row as [cl0 dg oc disp lbl cells].
  destruct Hrow as [Hd Hc|id Hd Hc|id Hi Hd Hc Hdisp];
    cbn [tr_data_group tr_classList tr_display] in *; subst;
    unfold toggle_row, after_clicks, is_group_header;
    cbn [tr_data_group tr_classList set_tr_classList set_tr_display].
  - reflexivity.
  - rewrite header_classes_group, header_classes_toggle, clicks_on_snoc.
    unfold jseqb.
    destruct (jsstring_eq_dec (group_id id) (group_id gid)) as [E|E].
    + rewrite E.
      destruct (jsstring_eq_dec (group_id gid) (group_id gid)); [|contradiction].
      now rewrite Nat.odd_succ, <- Nat.negb_odd.
    + destruct (jsstring_eq_dec (group_id gid) (group_id id)); [congruence|].
      reflexivity.
  - rewrite member_classes_group, clicks_on_snoc. unfold jseqb.
    destruct (jsstring_eq_dec (group_id gid) (group_id id)) as [E|E].
    + rewrite <- E. now rewrite Nat.odd_succ, <- Nat.negb_odd.
    + reflexivity.
Qed.

(** A click on an identifier that heads no group changes no rendered row. *)
Lemma after_clicks_foreign groups cl groupId row :
  rendered_row groups row -> ~ In groupId groups ->
  (tr_data_group row = Some groupId -> False) ->
  after_clicks (cl ++ [groupId]) row = after_clicks cl row.
Proof.
  intros [Hd Hc|id Hd Hc|id Hi Hd Hc Hdisp] Hn Hh; unfold after_clicks;
    rewrite Hd, ?Hc; [reflexivity| |]; rewrite clicks_on_snoc.
  - destruct (jsstring_eq_dec groupId (group_id id)) as [->|]; [|reflexivity].
    now exfalso.
  - destruct (jsstring_eq_dec groupId (group_id id)) as [->|]; [|reflexivity].
    contradiction.
Qed.

Lemma headers_app b1 b2 : headers (b1 ++ b2) = headers b1 ++ headers b2.
Proof. apply flat_map_app. Qed.

Lemma rendered_row_incl hs hs' row :
  incl hs hs' -> rendered_row hs row -> rendered_row hs' row.
Proof.
  intros Hincl [Hd Hc|id Hd Hc|id Hi Hd Hc Hdisp].
  - now apply plain_row.
  - now apply (header_row _ _ id).
  - apply (member_row _ _ id); auto.
Qed.

Lemma render_group_rows fl g id :
  (headers (render_group fl g id) = [] \/
   headers (render_group fl g id) = [group_id id]) /\
  Forall (rendered_row (headers (render_group fl g id))) (render_group fl g id).
Proof.
  unfold render_group. destruct (obj_get g id) as [grp|];
    [|split; [now left|constructor]].
  assert (Hm : forall cs ideV,
    headers (map (fun combo =>
               mkTr [js "ide-group-row"; group_id id] None None (js "none")
                    (ClientName (client_label id ideV combo))
                    (support_cells fl combo)) cs) = []).
  { intros cs ideV. induction cs as [|c cs IH]; [reflexivity|exact IH]. }
  assert (Hr : forall cs ideV hs, In (group_id id) hs ->
    Forall (rendered_row hs)
      (map (fun combo =>
               mkTr [js "ide-group-row"; group_id id] None None (js "none")
                    (ClientName (client_label id ideV combo))
                    (support_cells fl combo)) cs)).
  { intros cs ideV hs Hin. apply Forall_forall. intros row Hrow.
    apply in_map_iff in Hrow. destruct Hrow as (c & <- & _).
    now apply (member_row _ _ id). }
  destruct (combos grp) as [|c [|c' cs]].
  - split; [now right|]. constructor; [|constructor].
    now apply (header_row _ _ id).
  - split; [now left|]. constructor; [|constructor]. now apply plain_row.
  - split.
    + right. unfold headers at 1. cbn [flat_map tr_data_group].
      fold (headers (map (fun combo =>
               mkTr [js "ide-group-row"; group_id id] None None (js "none")
                    (ClientName (client_label id (group_ide grp) combo))
                    (support_cells fl combo)) (c :: c' :: cs))).
      now rewrite Hm.
    + unfold headers at 1. cbn [flat_map tr_data_group].
      fold (headers (map (fun combo =>
               mkTr [js "ide-group-row"; group_id id] None None (js "none")
                    (ClientName (client_label id (group_ide grp) combo))
                    (support_cells fl combo)) (c :: c' :: cs))).
      rewrite Hm. constructor.
      * now apply (header_row _ _ id).
      * apply Hr. now left.
Qed.

Lemma rendered_body fl g ids :
  NoDup ids ->
  let body := flat_map (render_group fl g) ids in
  NoDup (headers body) /\
  Forall (rendered_row (headers body)) body /\
  (forall gid, In gid (headers body) -> exists id, In id ids /\ gid = group_id id).
Proof.
  cbv zeta. induction 1 as [|id ids Hnotin Hnd (IH1 & IH2 & IH3)].
  - split; [constructor|]. split; [constructor|]. intros gid [].
  - cbn [flat_map]. rewrite headers_app.
    destruct (render_group_rows fl g id) as [Hh Hrows].
    split; [|split].
    + destruct Hh as [->| ->]; [exact IH1|].
      constructor; [|exact IH1]. intros Hin.
      destruct (IH3 _ Hin) as (id' & Hid' & E).
      apply group_id_inj in E. subst id'. contradiction.
    + apply Forall_app. split.
      * eapply Forall_impl; [|exact Hrows]. intros row.
        apply rendered_row_incl. intros x Hx. apply in_or_app. now left.
      * eapply Forall_impl; [|exact IH2]. intros row.
        apply rendered_row_incl. intros x Hx. apply in_or_app. now right.
    + intros gid Hin. apply in_app_or in Hin. destruct Hin as [Hin|Hin].
      * exists id. split; [now left|].
        destruct Hh as [E|E]; rewrite E in Hin; [contradiction|].
        destruct Hin as [<-|[]]. reflexivity.
      * destruct (IH3 _ Hin) as (id' & Hid' & E). exists id'.
        split; [now right|assumption].
Qed.

(** The table after a run of [toggleGroup] calls, in closed form. *)
Lemma toggle_groups_closed head body0 :
  NoDup (headers body0) ->
  Forall (rendered_row (headers body0)) body0 ->
  (forall g, In g (headers body0) -> exists id, g = group_id id) ->
  forall clicks done w,
  features_matrix (document w)
  = FeaturesTable head (map (after_clicks done) body0) ->
  features_matrix (document (toggle_groups clicks w))
  = FeaturesTable head (map (after_clicks (done ++ clicks)) body0).
Proof.
  intros Hnd Hrows Hgroups. induction clicks as [|g clicks IH]; intros done w Hw.
  - cbn. now rewrite app_nil_r.
  - cbn [toggle_groups fold_left]. fold (toggle_groups clicks).
    replace (done ++ g :: clicks) with ((done ++ [g]) ++ clicks)
      by now rewrite <- app_assoc.
    apply IH. unfold toggleGroup. rewrite Hw.
    rewrite toggle_rows_rowwise by now rewrite headers_after_clicks.
    rewrite find_after_clicks.
    destruct (find (is_group_header g) body0) as [h|] eqn:Ef; cbn [option_map].
    + destruct (find_header_In _ _ _ Ef) as (Hh & Hd & Hg).
      rewrite Forall_forall in Hrows.
      rewrite (header_after_clicks _ done h g (Hrows h Hh) Hd).
      cbn [document features_matrix set_features_matrix set_document].
      f_equal. rewrite map_map. apply map_ext_in. intros row Hrow.
      apply (toggle_row_after (headers body0)); auto.
    + rewrite Hw. f_equal. apply map_ext_in. intros row Hrow.
      rewrite Forall_forall in Hrows. symmetry.
      apply (after_clicks_foreign (headers body0)); auto.
      * now apply find_header_None.
      * intros Hd. apply (find_header_None _ _ Ef).
        unfold headers. apply in_flat_map. exists row. rewrite Hd.
        split; [assumption|now left].
Qed.

Lemma after_clicks_classes groups cl id row :
  rendered_row groups row ->
  has_class (group_id id) (tr_classList (after_clicks cl row))
  = has_class (group_id id) (tr_classList row).
Proof.
  destruct row as [cl0 dg oc disp lbl cells].
  intros [Hd Hc|id' Hd Hc|id' Hi Hd Hc Hdisp];
    cbn [tr_data_group tr_classList tr_display] in *; subst;
    unfold after_clicks;
    cbn [tr_data_group tr_classList set_tr_classList set_tr_display];
    try reflexivity.
  rewrite header_classes_group.
  apply (header_classes_group id false).
Qed.

Lemma after_clicks_display groups cl id row :
  rendered_row groups row ->
  has_class (group_id id) (tr_classList row) = true ->
  tr_display (after_clicks cl row)
  = display_for (Nat.odd (clicks_on (group_id id) cl)).
Proof.
  destruct row as [cl0 dg oc disp lbl cells].
  intros [Hd Hc|id' Hd Hc|id' Hi Hd Hc Hdisp];
    cbn [tr_data_group tr_classList tr_display] in *; subst; intros Hm.
  - discriminate.
  - rewrite (header_classes_group id false) in Hm. discriminate.
  - rewrite member_classes_group in Hm. apply jseqb_eq in Hm.
    unfold after_clicks.
    cbn [tr_data_group tr_classList set_tr_classList set_tr_display tr_display].
    now rewrite Hm.
Qed.

Lemma sortedIdeIds_NoDup lc cs :
  NoDup (sortedIdeIds lc (group_by_ide cs)).
Proof.
  apply (Permutation_NoDup (l:=obj_keys (group_by_ide cs))).
  - apply Permutation_sym, array_sort_perm.
  - apply group_by_ide_spec.
Qed.

Lemma rendered_table lc w head body0 :
  features_matrix (document (exec (renderFeaturesMatrix lc) w))
  = FeaturesTable head body0 ->
  NoDup (headers body0) /\
  Forall (rendered_row (headers body0)) body0 /\
  (forall g, In g (headers body0) -> exists id, g = group_id id).
Proof.
  rewrite renderFeaturesMatrix_eq.
  cbn [document features_matrix set_features_matrix set_document].
  unfold features_view.
  destruct ((length _ =? 0) || (length (obj_keys (features w)) =? 0));
    [discriminate|].
  intros H; injection H as _ <-.
  destruct (rendered_body (feature_list (features w))
              (group_by_ide (flat_map (combinations_of (aiClients w))
                                      (obj_entries (ides w))))
              _ (sortedIdeIds_NoDup lc
                   (flat_map (combinations_of (aiClients w))
                             (obj_entries (ides w))))) as (H1 & H2 & H3).
  split; [exact H1|]. split; [exact H2|].
  intros g Hg. destruct (H3 g Hg) as (id & _ & E). eauto.
Qed.

Lemma map_after_no_clicks groups body :
  Forall (rendered_row groups) body -> map (after_clicks []) body = body.
Proof.
  induction 1 as [|row body Hrow _ IH]; [reflexivity|].
  cbn [map]. now rewrite IH, (after_no_clicks groups row Hrow).
Qed.

(** C7.  After any run of [toggleGroup] calls on the rendered feature
    table, for every group header: the header carries [expanded] exactly
    when it was clicked an odd number of times, the rows tagged with the
    identifier of the group are the rows rendered with that tag, and each
    of them has [display ""] when the count is odd and [display "none"]
    when it is even, in particular right after rendering. *)
Theorem toggleGroup_parity (localeCompare : jsstring -> jsstring -> Z)
    (w : World) (clicks : list jsstring) (head : list HeaderCell)
    (body0 : list Tr) :
  features_matrix (document (exec (renderFeaturesMatrix localeCompare) w))
  = FeaturesTable head body0 ->
  exists body,
    features_matrix
      (document (toggle_groups clicks
                   (exec (renderFeaturesMatrix localeCompare) w)))
    = FeaturesTable head body /\
    length body = length body0 /\
    forall i header groupId,
      nth_error body0 i = Some header ->
      tr_data_group header = Some groupId ->
      let expanded := Nat.odd (clicks_on groupId clicks) in
      (exists h, nth_error body i = Some h /\
                 tr_data_group h = Some groupId /\
                 has_class (js "expanded") (tr_classList h) = expanded) /\
      (forall j row0, nth_error body0 j = Some row0 ->
         exists row, nth_error body j = Some row /\
           has_class groupId (tr_classList row)
           = has_class groupId (tr_classList row0)) /\
      (forall row, In row body ->
         has_class groupId (tr_classList row) = true ->
         tr_display row = display_for expanded).
Proof.
  intros Hview. destruct (rendered_table _ _ _ _ Hview) as (Hnd & Hrows & Hg).
  exists (map (after_clicks clicks) body0).
  split.
  - apply (toggle_groups_closed head body0 Hnd Hrows Hg clicks [] _).
    rewrite Hview. f_equal. symmetry.
    now apply (map_after_no_clicks (headers body0)).
  - split; [apply length_map|].
    intros i header groupId Hi Hd. cbv zeta.
    rewrite Forall_forall in Hrows.
    assert (Hin : In header body0) by (eapply nth_error_In; eauto).
    assert (Hgid : exists id, groupId = group_id id).
    { apply Hg. unfold headers. apply in_flat_map. exists header.
      rewrite Hd. split; [assumption|now left]. }
    destruct Hgid as [id ->].
    split; [|split].
    + exists (after_clicks clicks header). rewrite nth_error_map, Hi.
      split; [reflexivity|]. split; [now rewrite after_clicks_data_group|].
      apply (header_after_clicks (headers body0)); auto.
    + intros j row0 Hj. exists (after_clicks clicks row0).
      rewrite nth_error_map, Hj. split; [reflexivity|].
      apply (after_clicks_classes (headers body0)). apply Hrows.
      eapply nth_error_In; eauto.
    + intros row Hrow Hm. apply in_map_iff in Hrow.
      destruct Hrow as (row0 & <- & Hrow0).
      rewrite (after_clicks_classes (headers body0)) in Hm by auto.
      apply (after_clicks_display (headers body0)); auto.
Qed.

(* ------------------------------------------------------------------ *)
(** ** The icons of the page *)

Lemma imap_from_ext {A B} (f g : nat -> A -> B) l :
  (forall k x, f k x = g k x) -> forall i, imap_from i f l = imap_from i g l.
Proof.
  intros H. induction l as [|x l IH]; intros i; simpl; [reflexivity|].
  now rewrite H, IH.
Qed.

Lemma imap_from_imap {A B C} (g : nat -> B -> C) (f : nat -> A -> B) l :
  forall i, imap_from i g (imap_from i f l)
            = imap_from i (fun k x => g k (f k x)) l.
Proof.
  induction l as [|x l IH]; intros i; simpl; [reflexivity|]. now rewrite IH.
Qed.

Lemma map_imap_from {A B C} (h : B -> C) (f : nat -> A -> B) l :
  forall i, map h (imap_from i f l) = imap_from i (fun k x => h (f k x)) l.
Proof.
  induction l as [|x l IH]; intros i; simpl; [reflexivity|]. now rewrite IH.
Qed.

Lemma imap_from_length {A B} (f : nat -> A -> B) l i :
  length (imap_from i f l) = length l.
Proof.
  revert i; induction l as [|x l IH]; intros i; simpl; [reflexivity|].
  now rewrite IH.
Qed.

Lemma table_spans_map t f rows :
  table_spans t (map_table_spans t f rows)
  = map (fun p => (fst p, f (fst p) (snd p))) (table_spans t rows).
Proof.
  unfold table_spans, map_table_spans.
  rewrite imap_from_imap, concat_map, map_imap_from.
  apply (f_equal (@concat (Loc * Span))).
  apply imap_from_ext. intros r row. destruct row as [cl dg oc disp lbl cells].
  cbn [tr_cells set_tr_cells].
  now rewrite imap_from_imap, map_imap_from.
Qed.

Lemma rows_of_map_spans t f d :
  rows_of t (map_spans f d) = map_table_spans t f (rows_of t d).
Proof.
  destruct d as [pm fm sm kl]. unfold map_spans, rows_of.
  cbn [plugins_matrix features_matrix].
  destruct t.
  - destruct pm as [| |c e n]; reflexivity.
  - destruct pm as [| |c e [n|]]; reflexivity.
  - destruct fm as [| |h b]; reflexivity.
Qed.

Lemma all_spans_map_spans f d :
  all_spans (map_spans f d)
  = map (fun p => (fst p, f (fst p) (snd p))) (all_spans d).
Proof.
  unfold all_spans. rewrite !rows_of_map_spans, !table_spans_map, !map_app.
  reflexivity.
Qed.

(** Places are distinct. *)
Lemma imap_from_locs_row (t : Table) (r : nat) (cells : list Span) :
  forall c0 l, In l (map fst (imap_from c0 (fun c (s : Span) => ((t, r, c), s)) cells)) ->
  exists c, l = (t, r, c) /\ c0 <= c.
Proof.
  induction cells as [|s cells IH]; intros c0 l; simpl; [contradiction|].
  intros [<-|H]; [eauto|].
  destruct (IH _ _ H) as (c & -> & Hc). exists c. split; [reflexivity|lia].
Qed.

Lemma row_locs_NoDup (t : Table) (r : nat) (cells : list Span) :
  forall c0, NoDup (map fst (imap_from c0 (fun c (s : Span) => ((t, r, c), s)) cells)).
Proof.
  induction cells as [|s cells IH]; intros c0; simpl; constructor; [|apply IH].
  intros H. destruct (imap_from_locs_row _ _ _ _ _ H) as (c & E & Hc).
  injection E as E. lia.
Qed.

Lemma table_locs (t : Table) (rows : list Tr) :
  forall r0 l,
  In l (map fst (concat (imap_from r0 (fun r row =>
          imap_from 0 (fun c s => ((t, r, c), s)) (tr_cells row)) rows))) ->
  exists r c, l = (t, r, c) /\ r0 <= r.
Proof.
  induction rows as [|row rows IH]; intros r0 l; simpl; [contradiction|].
  rewrite map_app, in_app_iff. intros [H|H].
  - destruct (imap_from_locs_row _ _ _ _ _ H) as (c & -> & _). eauto.
  - destruct (IH _ _ H) as (r & c & -> & Hr). exists r, c. split; [auto|lia].
Qed.

Lemma NoDup_app_disjoint {A} (l1 l2 : list A) :
  NoDup l1 -> NoDup l2 -> (forall x, In x l1 -> In x l2 -> False) ->
  NoDup (l1 ++ l2).
Proof.
  induction 1 as [|x l1 Hx Hnd IH]; intros H2 Hd; simpl; [assumption|].
  constructor.
  - rewrite in_app_iff. intros [H|H]; [contradiction|].
    apply (Hd x); [now left|assumption].
  - apply IH; [assumption|]. intros y Hy1 Hy2. apply (Hd y); [now right|auto].
Qed.

Lemma table_locs_NoDup (t : Table) (rows : list Tr) :
  forall r0,
  NoDup (map fst (concat (imap_from r0 (fun r row =>
          imap_from 0 (fun c s => ((t, r, c), s)) (tr_cells row)) rows))).
Proof.
  induction rows as [|row rows IH]; intros r0; simpl; [constructor|].
  rewrite map_app. apply NoDup_app_disjoint; [apply row_locs_NoDup|apply IH|].
  intros l H1 H2.
  destruct (imap_from_locs_row _ _ _ _ _ H1) as (c & -> & _).
  destruct (table_locs _ _ _ _ H2) as (r & c' & E & Hr).
  injection E as E _. lia.
Qed.

Lemma table_spans_table t rows l :
  In l (map fst (table_spans t rows)) -> fst (fst l) = t.
Proof.
  intros H. destruct (table_locs _ _ _ _ H) as (r & c & -> & _). reflexivity.
Qed.

Lemma all_spans_NoDup d : NoDup (map fst (all_spans d)).
Proof.
  unfold all_spans. rewrite !map_app.
  apply NoDup_app_disjoint; [apply table_locs_NoDup| |].
  - apply NoDup_app_disjoint; [apply table_locs_NoDup|apply table_locs_NoDup|].
    intros l H1 H2. apply table_spans_table in H1, H2. congruence.
  - intros l H1 H2. apply table_spans_table in H1.
    apply in_app_or in H2. destruct H2 as [H2|H2];
      apply table_spans_table in H2; congruence.
Qed.

(* ------------------------------------------------------------------ *)
(** ** Note tooltips *)

Lemma loc_eqb_eq a b : loc_eqb a b = true <-> a = b.
Proof.
  destruct a as [[ta ra] ca], b as [[tb rb] cb]. unfold loc_eqb.
  rewrite !andb_true_iff, !Nat.eqb_eq. split.
  - intros [[Ht ->] ->]. destruct ta, tb; try discriminate; reflexivity.
  - intros E. injection E as -> -> ->. repeat split. now destruct tb.
Qed.

Lemma loc_eqb_refl a : loc_eqb a a = true.
Proof. now apply loc_eqb_eq. Qed.

Lemma has_class_remove c c' cl :
  has_class c (classList_remove c' cl)
  = if jseqb c' c then false else has_class c cl.
Proof.
  unfold has_class, includes, classList_remove.
  induction cl as [|x cl IH]; simpl.
  - now destruct (jseqb c' c).
  - destruct (jseqb c' x) eqn:E; simpl.
    + rewrite IH. destruct (jseqb c' c) eqn:E'; [reflexivity|].
      apply jseqb_eq in E. subst x.
      assert (jseqb c c' = false).
      { apply jseqb_neq. apply jseqb_neq in E'. congruence. }
      now rewrite H.
    + rewrite IH. destruct (jseqb c' c) eqn:E'; [|reflexivity].
      apply jseqb_eq in E'. subst c.
      assert (jseqb c' x = false) by assumption. now rewrite H.
Qed.

Lemma has_class_snoc c c' cl :
  has_class c (cl ++ [c']) = has_class c cl || jseqb c c'.
Proof.
  unfold has_class, includes. rewrite existsb_app. simpl.
  now rewrite orb_false_r.
Qed.

Lemma is_shown_hide s : is_shown (hide_note s) = false.
Proof.
  unfold is_shown, hide_note. destruct s as [cl dn dk df ta oc ih]; cbn [classList set_span_classList].
  now rewrite has_class_remove, jseqb_refl.
Qed.

Lemma icon_class_hide s :
  has_class (js "support-icon") (classList (hide_note s))
  = has_class (js "support-icon") (classList s).
Proof.
  unfold hide_note. destruct s as [cl dn dk df ta oc ih]; cbn [classList set_span_classList].
  now rewrite has_class_remove.
Qed.

Lemma icon_class_toggle s :
  has_class (js "support-icon")
    (classList (set_span_classList
                  (fst (classList_toggle (js "show-note") (classList s))) s))
  = has_class (js "support-icon") (classList s).
Proof.
  destruct s as [cl dn dk df ta oc ih]; cbn [classList set_span_classList].
  unfold classList_toggle. destruct (has_class (js "show-note") cl); cbn [fst].
  - now rewrite has_class_remove.
  - rewrite has_class_snoc. apply orb_false_r.
Qed.

Lemma is_shown_toggle s :
  is_shown (set_span_classList
              (fst (classList_toggle (js "show-note") (classList s))) s)
  = negb (is_shown s).
Proof.
  unfold is_shown.
  destruct s as [cl dn dk df ta oc ih]; cbn [classList set_span_classList].
  unfold classList_toggle. destruct (has_class (js "show-note") cl) eqn:E;
    cbn [fst negb].
  - now rewrite has_class_remove, jseqb_refl.
  - now rewrite has_class_snoc, E, jseqb_refl.
Qed.

(** At most one entry of a list keyed by distinct places satisfies a
    predicate that holds at one place only. *)
Lemma at_most_one {A} (p : Loc * A -> bool) (l : list (Loc * A)) (x : Loc) :
  NoDup (map fst l) ->
  (forall e, In e l -> p e = true -> fst e = x) ->
  length (filter p l) <= 1.
Proof.
  induction l as [|e l IH]; simpl; intros Hnd Hp; [lia|].
  inversion Hnd as [|? ? Hnotin Hnd']; subst.
  destruct (p e) eqn:E.
  - assert (Hnil : filter p l = []).
    { destruct (filter p l) as [|e' l'] eqn:Ef; [reflexivity|exfalso].
      assert (He' : In e' (filter p l)) by (rewrite Ef; now left).
      apply filter_In in He'. destruct He' as [Hin Hpe'].
      apply Hnotin. rewrite (Hp e (or_introl eq_refl) E).
      rewrite <- (Hp e' (or_intror Hin) Hpe').
      apply in_map_iff. eauto. }
    rewrite Hnil. simpl. lia.
  - apply IH; [assumption|]. intros e' He'. apply Hp. now right.
Qed.

Lemma toggleNote_eq element w :
  toggleNote element w
  = (true, set_document (map_spans (note_pass2 element))
             (set_document (map_spans (note_pass1 element)) w)).
Proof. reflexivity. Qed.

Lemma toggleNote_spans element w :
  all_spans (document (exec (toggleNote element) w))
  = map (fun p => (fst p,
                   note_pass2 element (fst p)
                     (note_pass1 element (fst p) (snd p))))
        (all_spans (document w)).
Proof.
  unfold exec. rewrite toggleNote_eq.
  cbn [snd document set_document].
  rewrite !all_spans_map_spans, map_map. reflexivity.
Qed.

Lemma document_click_spans w :
  all_spans (document (exec document_click w))
  = map (fun p => (fst p, if shows_note (snd p) then hide_note (snd p)
                          else snd p))
        (all_spans (document w)).
Proof.
  unfold exec, document_click, modify. cbn [snd document set_document].
  now rewrite all_spans_map_spans.
Qed.

Lemma shows_note_classed s :
  has_class (js "support-icon") (classList s) = true ->
  shows_note s = is_shown s.
Proof. intros H. unfold shows_note, is_shown. now rewrite H. Qed.

(** After [toggleNote], no icon but the clicked one shows its note, and
    the clicked one has changed state. *)
Lemma toggleNote_effect element w :
  icons_classed (document w) ->
  let d := document (exec (toggleNote element) w) in
  icons_classed d /\
  (forall l s, In (l, s) (all_spans d) -> l <> element -> is_shown s = false) /\
  (forall s, In (element, s) (all_spans (document w)) ->
     exists s', In (element, s') (all_spans d) /\
                is_shown s' = negb (is_shown s)) /\
  length (shown_notes d) <= 1.
Proof.
  intros Hc. cbv zeta.
  assert (Hother : forall l s,
    In (l, s) (all_spans (document (exec (toggleNote element) w))) ->
    l <> element -> is_shown s = false).
  { intros l s Hin Hne. rewrite toggleNote_spans in Hin.
    apply in_map_iff in Hin. destruct Hin as ([l0 s0] & E & Hin0).
    cbn [fst snd] in E. injection E as -> <-.
    unfold note_pass1, note_pass2.
    assert (El : loc_eqb l element = false).
    { destruct (loc_eqb l element) eqn:E; [|reflexivity].
      apply loc_eqb_eq in E. contradiction. }
    rewrite El. cbn [negb]. rewrite andb_true_r.
    rewrite (shows_note_classed _ (Hc _ _ Hin0)).
    destruct (is_shown s0) eqn:Es; [apply is_shown_hide|assumption]. }
  split; [|split; [exact Hother|split]].
  - intros l s Hin. rewrite toggleNote_spans in Hin.
    apply in_map_iff in Hin. destruct Hin as ([l0 s0] & E & Hin0).
    cbn [fst snd] in E. injection E as -> <-.
    unfold note_pass1, note_pass2. specialize (Hc _ _ Hin0).
    destruct (loc_eqb l element).
    + cbn [negb]. rewrite andb_false_r. now rewrite icon_class_toggle.
    + cbn [negb]. rewrite andb_true_r.
      destruct (shows_note s0); [now rewrite icon_class_hide|assumption].
  - intros s Hin. eexists. split.
    + rewrite toggleNote_spans. apply in_map_iff.
      exists (element, s). cbn [fst snd]. split; [reflexivity|assumption].
    + unfold note_pass1, note_pass2. rewrite loc_eqb_refl. cbn [negb].
      rewrite andb_false_r. apply is_shown_toggle.
  - unfold shown_notes. apply (at_most_one _ _ element).
    + apply all_spans_NoDup.
    + intros [l s] Hin Hs. cbn [fst snd] in *.
      destruct (loc_eqb l element) eqn:E; [now apply loc_eqb_eq|].
      rewrite (Hother l s Hin) in Hs; [discriminate|].
      intros ->. now rewrite loc_eqb_refl in E.
Qed.

Lemma document_click_effect w :
  icons_classed (document w) ->
  let d := document (exec document_click w) in
  icons_classed d /\
  (forall l s, In (l, s) (all_spans d) -> is_shown s = false) /\
  shown_notes d = [].
Proof.
  intros Hc. cbv zeta.
  assert (Hall : forall l s,
    In (l, s) (all_spans (document (exec document_click w))) ->
    is_shown s = false).
  { intros l s Hin. rewrite document_click_spans in Hin.
    apply in_map_iff in Hin. destruct Hin as ([l0 s0] & E & Hin0).
    cbn [fst snd] in E. injection E as -> <-.
    rewrite (shows_note_classed _ (Hc _ _ Hin0)).
    destruct (is_shown s0) eqn:Es; [apply is_shown_hide|assumption]. }
  split; [|split; [exact Hall|]].
  - intros l s Hin. rewrite document_click_spans in Hin.
    apply in_map_iff in Hin. destruct Hin as ([l0 s0] & E & Hin0).
    cbn [fst snd] in E. injection E as -> <-. specialize (Hc _ _ Hin0).
    destruct (shows_note s0); [now rewrite icon_class_hide|assumption].
  - unfold shown_notes.
    destruct (filter _ _) as [|[l s] rest] eqn:Ef; [reflexivity|exfalso].
    assert (Hin : In (l, s) (filter (fun p => is_shown (snd p))
              (all_spans (document (exec document_click w)))))
      by (rewrite Ef; now left).
    apply filter_In in Hin. destruct Hin as [Hin Hs]. cbn [snd] in Hs.
    rewrite (Hall l s Hin) in Hs. discriminate.
Qed.

Lemma exec_bind {A B} (c : M A) (k : A -> M B) w :
  exec (bind c k) w = exec (k (eval c w)) (exec c w).
Proof. unfold exec, eval, bind. now destruct (c w). Qed.

Lemma eval_bind {A B} (c : M A) (k : A -> M B) w :
  eval (bind c k) w = eval (k (eval c w)) (exec c w).
Proof. unfold exec, eval, bind. now destruct (c w). Qed.

Lemma exec_gets {A B} (f : World -> A) (k : A -> M B) w :
  exec (bind (gets f) k) w = exec (k (f w)) w.
Proof. reflexivity. Qed.

Lemma eval_gets {A B} (f : World -> A) (k : A -> M B) w :
  eval (bind (gets f) k) w = eval (k (f w)) w.
Proof. reflexivity. Qed.

(** The icons of a page depend on its two matrices only. *)
Lemma all_spans_views d d' :
  plugins_matrix d' = plugins_matrix d ->
  features_matrix d' = features_matrix d ->
  all_spans d' = all_spans d.
Proof.
  intros Hp Hf. unfold all_spans, rows_of. now rewrite Hp, Hf.
Qed.

Lemma imap_from_cells {B} (g : nat -> list Span -> B) rows :
  forall i, imap_from i (fun r row => g r (tr_cells row)) rows
            = imap_from i g (map tr_cells rows).
Proof.
  induction rows as [|row rows IH]; intros i; simpl; [reflexivity|].
  now rewrite IH.
Qed.

Lemma table_spans_cells t rows rows' :
  map tr_cells rows' = map tr_cells rows ->
  table_spans t rows' = table_spans t rows.
Proof.
  intros H. unfold table_spans.
  rewrite (imap_from_cells (fun r cells =>
             imap_from 0 (fun c s => ((t, r, c), s)) cells) rows' 0).
  rewrite (imap_from_cells (fun r cells =>
             imap_from 0 (fun c s => ((t, r, c), s)) cells) rows 0).
  now rewrite H.
Qed.

Lemma toggle_header_cells groupId body toggled b :
  toggle_header groupId body = Some (toggled, b) ->
  map tr_cells toggled = map tr_cells body.
Proof.
  revert toggled b. induction body as [|row body IH]; intros toggled b;
    cbn [toggle_header]; [discriminate|].
  destruct (is_group_header groupId row).
  - destruct (classList_toggle (js "expanded") (tr_classList row)) as [cl e].
    intros H; injection H as <- _. now destruct row.
  - destruct (toggle_header groupId body) as [[t' b']|]; [|discriminate].
    intros H; injection H as <- _. cbn [map]. now rewrite (IH t' b' eq_refl).
Qed.

Lemma shown_rows_cells (f : Tr -> Tr -> Tr) body toggled :
  (forall a b, tr_cells (f a b) = tr_cells b) ->
  length toggled = length body ->
  map tr_cells (map (fun p => f (fst p) (snd p)) (combine body toggled))
  = map tr_cells toggled.
Proof.
  intros Hf. revert toggled. induction body as [|x body IH];
    intros [|y toggled]; simpl; try discriminate; [reflexivity|].
  intros H. injection H as H. now rewrite Hf, IH.
Qed.

Lemma toggle_rows_cells groupId body body' :
  toggle_rows groupId body = Some body' ->
  map tr_cells body' = map tr_cells body.
Proof.
  unfold toggle_rows.
  destruct (toggle_header groupId body) as [[toggled b]|] eqn:E; [|discriminate].
  intros H; injection H as <-.
  pose proof (toggle_header_cells _ _ _ _ E) as Hc.
  rewrite <- Hc.
  rewrite (map_ext (fun '(before, row) =>
             if has_class groupId (tr_classList before)
             then set_tr_display (if b then js "" else js "none") row
             else row)
           (fun p => (fun before row =>
              if has_class groupId (tr_classList before)
              then set_tr_display (if b then js "" else js "none") row
              else row) (fst p) (snd p))) by (intros [x y]; reflexivity).
  apply (shown_rows_cells (fun before row =>
              if has_class groupId (tr_classList before)
              then set_tr_display (if b then js "" else js "none") row
              else row)).
  - intros x y. destruct (has_class groupId (tr_classList x)); [|reflexivity].
    now destruct y.
  - rewrite <- (length_map tr_cells toggled), Hc. apply length_map.
Qed.

Lemma toggleGroup_spans groupId w w' :
  toggleGroup groupId w = Some w' ->
  all_spans (document w') = all_spans (document w).
Proof.
  unfold toggleGroup.
  destruct (features_matrix (document w)) as [| |head body] eqn:Ef;
    try discriminate.
  destruct (toggle_rows groupId body) as [body'|] eqn:Et; [|discriminate].
  intros H; injection H as <-.
  unfold all_spans, rows_of.
  cbn [document set_features_matrix set_document plugins_matrix features_matrix].
  rewrite Ef. do 2 f_equal. apply table_spans_cells.
  now apply (toggle_rows_cells groupId).
Qed.

Lemma row_click_spans t r w :
  all_spans (document (exec (row_click t r) w)) = all_spans (document w).
Proof.
  unfold row_click. rewrite exec_gets.
  destruct (nth_error (rows_of t (document w)) r) as [row|]; [|reflexivity].
  destruct (tr_onclick row) as [g|]; [|reflexivity].
  unfold exec, modify. cbn [snd].
  destruct (toggleGroup g w) eqn:E; [|reflexivity].
  now apply (toggleGroup_spans g).
Qed.

Lemma showSourceModal_spans element w :
  fst (showSourceModal element w) = true /\
  all_spans (document (exec (showSourceModal element) w))
  = all_spans (document w).
Proof.
  unfold exec, showSourceModal, bind, gets.
  destruct (obj_lookup (features w) (to_key (data_feature_id element)));
    [|split; reflexivity].
  destruct (source_modal (document w)); split; reflexivity.
Qed.

Lemma closeSourceModal_spans w :
  all_spans (document (exec closeSourceModal w)) = all_spans (document w).
Proof.
  unfold exec, closeSourceModal, bind, gets.
  now destruct (source_modal (document w)).
Qed.

Lemma keydown_spans k n u w :
  all_spans (document (exec (for_of (repeat tt n) (fun _ _ =>
     if jseqb k (js "Escape") then closeSourceModal else ret tt) u) w))
  = all_spans (document w).
Proof.
  revert u w. induction n as [|n IH]; intros u w; [reflexivity|].
  cbn [repeat for_of]. rewrite exec_bind, IH.
  destruct (jseqb k (js "Escape")); [apply closeSourceModal_spans|reflexivity].
Qed.

Lemma tooltips_ok_same d d' :
  all_spans d' = all_spans d -> tooltips_ok d -> tooltips_ok d'.
Proof.
  intros E [H1 H2]. unfold tooltips_ok, icons_classed, shown_notes in *.
  rewrite E. auto.
Qed.

Lemma icon_click_cases l el w :
  tooltips_ok (document w) ->
  (eval (icon_click l el) w = true /\
   tooltips_ok (document (exec (icon_click l el) w))) \/
  (eval (icon_click l el) w = false /\ exec (icon_click l el) w = w).
Proof.
  intros Hok. unfold icon_click.
  destruct (onclick el) as [[|]|]; [| |right; split; reflexivity].
  - left. destruct (showSourceModal_spans el w) as [H1 H2].
    split; [exact H1|]. now apply (tooltips_ok_same (document w)).
  - left. split; [reflexivity|].
    destruct (toggleNote_effect l w (proj1 Hok)) as (H1 & _ & _ & H4).
    split; assumption.
Qed.

Lemma document_click_ok w :
  tooltips_ok (document w) -> tooltips_ok (document (exec document_click w)).
Proof.
  intros [Hc _]. destruct (document_click_effect w Hc) as (H1 & _ & H3).
  split; [exact H1|]. cbv zeta in H3. rewrite H3. simpl. lia.
Qed.

Lemma dispatch_ok e w :
  tooltips_ok (document w) -> tooltips_ok (document (exec (dispatch e) w)).
Proof.
  intros Hok. destruct e as [[l|t r| | | |]|k]; cbn [dispatch].
  - rewrite exec_gets.
    destruct (span_at l (document w)) as [el|]; [|exact Hok].
    rewrite exec_bind.
    destruct (icon_click_cases l el w Hok) as [[-> H]|[-> ->]]; [exact H|].
    destruct l as [[t r] c]. rewrite exec_bind.
    apply document_click_ok.
    apply (tooltips_ok_same (document w)); [apply row_click_spans|exact Hok].
  - rewrite exec_bind. apply document_click_ok.
    apply (tooltips_ok_same (document w)); [apply row_click_spans|exact Hok].
  - rewrite exec_bind. apply document_click_ok.
    apply (tooltips_ok_same (document w)); [apply closeSourceModal_spans|exact Hok].
  - rewrite exec_bind. apply document_click_ok.
    apply (tooltips_ok_same (document w)); [apply closeSourceModal_spans|exact Hok].
  - now apply document_click_ok.
  - now apply document_click_ok.
  - rewrite exec_gets.
    apply (tooltips_ok_same (document w)); [apply keydown_spans|exact Hok].
Qed.

Lemma run_events_ok es w :
  tooltips_ok (document w) -> tooltips_ok (document (run_events es w)).
Proof.
  revert w. induction es as [|e es IH]; intros w Hok; [exact Hok|].
  cbn [run_events fold_left]. apply IH. now apply dispatch_ok.
Qed.

(** The icons of a page all satisfy a property their rows guarantee. *)
Lemma row_spans_In (t : Table) (r : nat) (cells : list Span) :
  forall c0 l s,
  In (l, s) (imap_from c0 (fun c s => ((t, r, c), s)) cells) -> In s cells.
Proof.
  induction cells as [|x cells IH]; intros c0 l s; simpl; [contradiction|].
  intros [E|H]; [injection E as _ <-; now left|right; eauto].
Qed.

Lemma rows_spans_In (t : Table) (rows : list Tr) l s :
  forall r0,
  In (l, s) (concat (imap_from r0 (fun r row =>
               imap_from 0 (fun c s => ((t, r, c), s)) (tr_cells row)) rows)) ->
  exists row, In row rows /\ In s (tr_cells row).
Proof.
  induction rows as [|row rows IH]; intros r0; simpl; [contradiction|].
  rewrite in_app_iff. intros [H|H].
  - exists row. split; [now left|]. now apply row_spans_In in H.
  - destruct (IH _ H) as (row' & Hr & Hs). exists row'. split; [now right|auto].
Qed.

Lemma table_spans_In t rows l s :
  In (l, s) (table_spans t rows) ->
  exists row, In row rows /\ In s (tr_cells row).
Proof. apply rows_spans_In. Qed.

Lemma fresh_page d :
  fresh_rows (rows_of Ecosystem d) -> fresh_rows (rows_of NativeOnly d) ->
  fresh_rows (rows_of FeatureMatrix d) -> tooltips_ok d.
Proof.
  intros H1 H2 H3.
  assert (Hall : forall l s, In (l, s) (all_spans d) -> fresh_icon s).
  { intros l s Hin. unfold all_spans in Hin. rewrite !in_app_iff in Hin.
    destruct Hin as [Hin|[Hin|Hin]]; apply table_spans_In in Hin;
      destruct Hin as (row & Hr & Hs); eauto. }
  split.
  - intros l s Hin. now apply (Hall l s).
  - unfold shown_notes.
    destruct (filter _ _) as [|[l s] rest] eqn:Ef; [simpl; lia|exfalso].
    assert (Hin : In (l, s) (filter (fun p => is_shown (snd p)) (all_spans d)))
      by (rewrite Ef; now left).
    apply filter_In in Hin. destruct Hin as [Hin Hs]. cbn [snd] in Hs.
    destruct (Hall l s Hin) as [_ Hf]. congruence.
Qed.

Lemma availability_icon_fresh a n t : fresh_icon (availability_icon a n t).
Proof. destruct a; split; reflexivity. Qed.

Lemma support_icon_class k info :
  obj_get SUPPORT_ICONS k = Some info ->
  jseqb (js "show-note") (class info) = false.
Proof.
  unfold SUPPORT_ICONS. cbn [obj_get].
  repeat (destruct (jsstring_eq_dec k _);
          [intros H; injection H as <-; reflexivity|]).
  discriminate.
Qed.

Lemma renderSupportCell_fresh support notes source comboKey featureId :
  fresh_icon (renderSupportCell support notes source comboKey featureId).
Proof.
  unfold renderSupportCell, fresh_icon, is_shown.
  cbn [classList].
  set (info := match obj_get SUPPORT_ICONS _ with
               | Some i => i | None => SUPPORT_ICONS_u end).
  assert (Hi : jseqb (js "show-note") (class info) = false).
  { unfold info. destruct (obj_get SUPPORT_ICONS _) eqn:E;
      [now apply (support_icon_class _ _ E)|reflexivity]. }
  split.
  - reflexivity.
  - unfold has_class, includes. cbn [app existsb]. rewrite Hi.
    now destruct (is_truthy_source source).
Qed.

Lemma render_group_fresh fl g id : fresh_rows (render_group fl g id).
Proof.
  intros row s Hrow Hs. unfold render_group in Hrow.
  destruct (obj_get g id) as [grp|]; [|contradiction].
  assert (Hcells : forall combo, In s (support_cells fl combo) -> fresh_icon s).
  { intros combo H. unfold support_cells in H. apply in_map_iff in H.
    destruct H as (f & <- & _). apply renderSupportCell_fresh. }
  assert (Hrows : forall cs ideV,
    In row (map (fun combo =>
              mkTr [js "ide-group-row"; group_id id] None None (js "none")
                   (ClientName (client_label id ideV combo))
                   (support_cells fl combo)) cs) -> fresh_icon s).
  { intros cs ideV H. apply in_map_iff in H. destruct H as (c & <- & _).
    now apply (Hcells c). }
  destruct (combos grp) as [|c [|c' cs]].
  - destruct Hrow as [<-|[]]. contradiction.
  - destruct Hrow as [<-|[]]. now apply (Hcells c).
  - destruct Hrow as [<-|Hrow]; [contradiction|]. now apply (Hrows _ _ Hrow).
Qed.

Lemma features_view_fresh lc w d :
  features_matrix d = features_view lc w -> fresh_rows (rows_of FeatureMatrix d).
Proof.
  intros E. unfold rows_of. rewrite E. unfold features_view.
  destruct ((length _ =? 0) || (length (obj_keys (features w)) =? 0));
    [intros ? ? []|].
  intros row s Hrow Hs. apply in_flat_map in Hrow.
  destruct Hrow as (id & _ & Hrow).
  exact (render_group_fresh _ _ _ row s Hrow Hs).
Qed.

Lemma plugin_rows_fresh w :
  let d := document (exec renderPluginsMatrix w) in
  fresh_rows (rows_of Ecosystem d) /\ fresh_rows (rows_of NativeOnly d) /\
  features_matrix d = features_matrix (document w) /\
  exists v, exec renderPluginsMatrix w = set_plugins_matrix v w.
Proof.
  cbv zeta. unfold exec, renderPluginsMatrix, bind, gets. cbn [fst snd].
  destruct ((length (obj_keys (ides w)) =? 0)
            || (length (obj_keys (aiClients w)) =? 0)).
  - split; [intros ? ? []|]. split; [intros ? ? []|].
    split; [reflexivity|eexists; reflexivity].
  - destruct (partition_ides (ides w)) as [pe no].
    unfold modify. cbn [snd document set_plugins_matrix set_document
                        rows_of plugins_matrix features_matrix].
    split; [|split; [|split; [reflexivity|]]].
    + intros row s Hrow Hs. apply in_map_iff in Hrow.
      destruct Hrow as (i & <- & _). cbn [ecosystem_row tr_cells] in Hs.
      destruct Hs as [<-|Hs]; [apply availability_icon_fresh|].
      apply in_map_iff in Hs. destruct Hs as (c & <- & _).
      apply availability_icon_fresh.
    + destruct (0 <? length no); [|intros ? ? []].
      intros row s Hrow Hs. apply in_map_iff in Hrow.
      destruct Hrow as (i & <- & _). cbn [native_only_row tr_cells] in Hs.
      destruct Hs as [<-|[]]. apply availability_icon_fresh.
    + eexists; reflexivity.
Qed.

Lemma render_all_ok lc w : tooltips_ok (document (exec (render_all lc) w)).
Proof.
  unfold render_all. rewrite exec_bind.
  destruct (plugin_rows_fresh w) as (H1 & H2 & _ & v & Hv). cbv zeta in *.
  rewrite renderFeaturesMatrix_eq.
  apply fresh_page.
  - exact H1.
  - exact H2.
  - apply (features_view_fresh lc (exec renderPluginsMatrix w)). reflexivity.
Qed.

Lemma fold_settle_document net sched :
  forall l, document (world (fold_left (settle net) sched l))
            = document (world l).
Proof.
  induction sched as [|t ts IH]; intros l; cbn [fold_left]; [reflexivity|].
  rewrite IH. destruct (is_pending t l) eqn:E.
  - rewrite settle_pending by assumption. cbn [world].
    now destruct (run_task_effect net t (world l)) as (_ & Hd & _).
  - now rewrite settle_not_pending.
Qed.

Lemma init_ok lc net sched :
  tooltips_ok (document (init lc net sched initial_world)).
Proof.
  unfold init. destruct (load_complete _); [apply render_all_ok|].
  unfold loadAllData. rewrite fold_settle_document.
  apply fresh_page; intros ? ? [].
Qed.

(* ------------------------------------------------------------------ *)
(** ** Places and icons *)
Lemma imap_from_nth {A B} (f : nat -> A -> B) l :
  forall i n, nth_error (imap_from i f l) n
              = option_map (f (i + n)) (nth_error l n).
Proof.
  induction l as [|x l IH]; intros i [|n]; simpl; try reflexivity.
  - now rewrite Nat.add_0_r.
  - rewrite IH. now rewrite Nat.add_succ_comm.
Qed.

Lemma span_at_In l d s : span_at l d = Some s -> In (l, s) (all_spans d).
Proof.
  destruct l as [[t r] c]. unfold span_at.
  destruct (nth_error (rows_of t d) r) as [row|] eqn:Er; [|discriminate].
  intros Hc.
  assert (H : In ((t, r, c), s) (table_spans t (rows_of t d))).
  { unfold table_spans. apply in_concat.
    exists (imap_from 0 (fun c s => ((t, r, c), s)) (tr_cells row)). split.
    - apply (nth_error_In _ r). now rewrite imap_from_nth, Er.
    - apply (nth_error_In _ c). now rewrite imap_from_nth, Hc. }
  unfold all_spans. rewrite !in_app_iff. destruct t; auto.
Qed.

Lemma all_spans_In_unique d l s s' :
  In (l, s) (all_spans d) -> In (l, s') (all_spans d) -> s = s'.
Proof.
  pose proof (all_spans_NoDup d) as Hnd. revert Hnd.
  induction (all_spans d) as [|[l0 s0] rest IH]; simpl; [contradiction|].
  intros Hnd. inversion Hnd as [|? ? Hnotin Hnd']; subst.
  intros [E|H] [E'|H'].
  - congruence.
  - injection E as -> ->. exfalso. apply Hnotin. apply in_map_iff.
    exists (l, s'). auto.
  - injection E' as -> ->. exfalso. apply Hnotin. apply in_map_iff.
    exists (l, s). auto.
  - auto.
Qed.

(** C8.  In any state reached from the rendered page by clicks and key
    presses, at most one icon shows its note.  A click on an icon with a
    note runs [toggleNote] and stops there, without reaching the listener
    of the document: afterwards no other icon shows its note and the
    clicked one has changed state.  A click that reaches the document
    clears every shown note. *)
Theorem at_most_one_tooltip (localeCompare : jsstring -> jsstring -> Z)
    (net : Network) (schedule : list Task) (events : list Event) :
  let w := run_events events (init localeCompare net schedule initial_world) in
  length (shown_notes (document w)) <= 1 /\
  (forall element el,
     span_at element (document w) = Some el ->
     onclick el = Some ToggleNote ->
     eval (toggleNote element) w = true /\
     exec (dispatch (Click (OnIcon element))) w = exec (toggleNote element) w /\
     let d := document (exec (dispatch (Click (OnIcon element))) w) in
     (forall l s, In (l, s) (all_spans d) -> l <> element ->
        is_shown s = false) /\
     (exists el', In (element, el') (all_spans d) /\
        is_shown el' = negb (is_shown el))) /\
  exec (dispatch (Click Elsewhere)) w = exec document_click w /\
  shown_notes (document (exec document_click w)) = [].
Proof.
  cbv zeta.
  set (w := run_events events (init localeCompare net schedule initial_world)).
  assert (Hok : tooltips_ok (document w))
    by (apply run_events_ok, init_ok).
  split; [apply Hok|]. split; [|split; [reflexivity|]].
  - intros element el Hat Hclick. split; [reflexivity|].
    assert (Hd : exec (dispatch (Click (OnIcon element))) w
                 = exec (toggleNote element) w).
    { cbn [dispatch]. rewrite exec_gets, Hat, exec_bind.
      unfold icon_click. rewrite Hclick. reflexivity. }
    split; [exact Hd|]. rewrite Hd.
    destruct (toggleNote_effect element w (proj1 Hok)) as (_ & H2 & H3 & _).
    split; [exact H2|]. apply H3. now apply span_at_In.
  - now destruct (document_click_effect w (proj1 Hok)) as (_ & _ & H).
Qed.

(** With the note of Cursor shown, a click on the note of Zed shows it. *)
Lemma at_most_one_tooltip_witness :
  let w := run_events [Click (OnIcon (Ecosystem, 1, 0))] Sample.page in
  exists el',
    In ((NativeOnly, 0, 0), el')
       (all_spans (document (exec (dispatch (Click (OnIcon (NativeOnly, 0, 0))))
                                  w))) /\
    is_shown el' = true.
Proof.
  cbv zeta.
  destruct (at_most_one_tooltip Sample.compare_names Sample.network
              started_tasks [Click (OnIcon (Ecosystem, 1, 0))]) as (_ & H & _).
  destruct (H (NativeOnly, 0, 0)
              (availability_icon true (Some (js "Zed Assistant")) None))
    as (_ & _ & _ & el' & Hin & Hs); [reflexivity|reflexivity|].
  exists el'. split; [exact Hin|exact Hs].
Defined.

(** ** The detail surface *)





(** Three clicks on the header of Cursor leave it expanded. *)
Lemma toggleGroup_parity_witness :
  exists body h,
    features_matrix
      (document (toggle_groups
         [js "group-cursor"; js "group-vscode"; js "group-cursor";
          js "group-cursor"]
         (exec (renderFeaturesMatrix Sample.compare_names) Sample.loaded)))
    = FeaturesTable Sample.head body /\
    nth_error body 0 = Some h /\
    has_class (js "expanded") (tr_classList h) = true.
Proof.
  destruct (toggleGroup_parity Sample.compare_names Sample.loaded
    [js "group-cursor"; js "group-vscode"; js "group-cursor"; js "group-cursor"]
    Sample.head Sample.body) as (body & Hb & _ & H); [vm_compute; reflexivity|].
  destruct (H 0 (mkTr [js "ide-group-header"] (Some (js "group-cursor"))
                   (Some (js "group-cursor")) (js "")
                   (IdeHeaderCell 4 (js "Cursor") 2) [])
              (js "group-cursor")) as ((h & Hn & _ & He) & _);
    [vm_compute; reflexivity|reflexivity|].
  exists body, h. split; [exact Hb|]. split; [exact Hn|exact He].
Defined.

(* ------------------------------------------------------------------ *)
(** ** Escaping text *)

Lemma escapeHtml_eq text : escapeHtml text = flat_map escape_unit text.
Proof.
  unfold escapeHtml, set_textContent, serialize_children.
  destruct text as [|ch s]; [reflexivity|].
  cbn [flat_map]. now rewrite app_nil_r.
Qed.

Lemma escapeHtml_cons ch s :
  escapeHtml (ch :: s) = escape_unit ch ++ escapeHtml s.
Proof. now rewrite !escapeHtml_eq. Qed.

Lemma escape_unit_cases ch :
  (is_escaped ch = false /\ escape_unit ch = [ch]) \/
  (is_escaped ch = true /\
   exists name, In name reference_names /\ escape_unit ch = 38%N :: name).
Proof.
  unfold is_escaped, escape_unit.
  destruct (ch =? 38)%N; [right; split; [reflexivity|]; eexists; split;
    [|reflexivity]; simpl; tauto|].
  destruct (ch =? 160)%N; [right; split; [reflexivity|]; eexists; split;
    [|reflexivity]; simpl; tauto|].
  destruct (ch =? 60)%N; [right; split; [reflexivity|]; eexists; split;
    [|reflexivity]; simpl; tauto|].
  destruct (ch =? 62)%N; [right; split; [reflexivity|]; eexists; split;
    [|reflexivity]; simpl; tauto|].
  left. split; reflexivity.
Qed.

Lemma reference_name_plain name ch :
  In name reference_names -> In ch name -> is_escaped ch = false.
Proof.
  intros Hn Hc. simpl in Hn.
  destruct Hn as [<-|[<-|[<-|[<-|[]]]]]; simpl in Hc;
    repeat (destruct Hc as [<-|Hc]; [reflexivity|]); contradiction.
Qed.

Lemma escapeHtml_units s ch :
  In ch (escapeHtml s) -> is_escaped ch = true -> ch = 38%N.
Proof.
  induction s as [|c s IH]; [intros []|].
  rewrite escapeHtml_cons, in_app_iff. intros [Hin|Hin] He; [|now apply IH].
  destruct (escape_unit_cases c) as [[Hc E]|[_ (name & Hn & E)]];
    rewrite E in Hin.
  - destruct Hin as [<-|[]]. congruence.
  - destruct Hin as [<-|Hin]; [reflexivity|].
    rewrite (reference_name_plain name ch Hn Hin) in He. discriminate.
Qed.

Lemma escapeHtml_references s : forall pre post,
  escapeHtml s = pre ++ 38%N :: post ->
  exists name rest, In name reference_names /\ post = name ++ rest.
Proof.
  induction s as [|c s IH]; intros pre post H.
  - destruct pre; discriminate.
  - rewrite escapeHtml_cons in H.
    destruct (escape_unit_cases c) as [[Hc E]|[_ (name & Hn & E)]];
      rewrite E in H.
    + destruct pre as [|p pre]; cbn in H; injection H as E1 E2.
      * subst c. discriminate.
      * now apply (IH pre post).
    + destruct pre as [|p pre]; cbn in H.
      * injection H as E2. exists name, (escapeHtml s). auto.
      * injection H as E1 E2.
        (* the unit 38 lies further on: it is not inside the name *)
        assert (Hsplit : exists pre', pre = name ++ pre' /\
                  escapeHtml s = pre' ++ 38%N :: post).
        { clear IH E1 E. revert pre E2.
          assert (Hplain : forall ch, In ch name -> ch <> 38%N).
          { intros ch Hch ->.
            pose proof (reference_name_plain name 38%N Hn Hch). discriminate. }
          clear Hn. induction name as [|n name IHn]; intros pre E2.
          - exists pre. auto.
          - destruct pre as [|q pre]; cbn in E2; injection E2 as E3 E4.
            + exfalso. apply (Hplain n); [now left|assumption].
            + subst q. destruct (IHn (fun ch H => Hplain ch (or_intror H)) pre E4)
                as (pre' & -> & E). exists pre'. auto. }
        destruct Hsplit as (pre' & _ & E'). now apply (IH pre' post).
Qed.

Lemma escape_unit_nonempty ch : escape_unit ch <> [].
Proof.
  destruct (escape_unit_cases ch) as [[_ E]|[_ (name & _ & E)]];
    rewrite E; discriminate.
Qed.

Lemma reference_names_prefix_free n1 n2 r1 r2 :
  In n1 reference_names -> In n2 reference_names ->
  n1 ++ r1 = n2 ++ r2 -> n1 = n2 /\ r1 = r2.
Proof.
  intros H1 H2. simpl in H1, H2.
  destruct H1 as [<-|[<-|[<-|[<-|[]]]]];
    destruct H2 as [<-|[<-|[<-|[<-|[]]]]]; cbn; intros E;
    try discriminate; split; try reflexivity; congruence.
Qed.

Lemma escape_unit_name_inj c c' name :
  escape_unit c = 38%N :: name -> escape_unit c' = 38%N :: name ->
  is_escaped c = true -> is_escaped c' = true -> c = c'.
Proof.
  unfold escape_unit, is_escaped.
  destruct (N.eqb_spec c 38), (N.eqb_spec c 160), (N.eqb_spec c 60),
    (N.eqb_spec c 62), (N.eqb_spec c' 38), (N.eqb_spec c' 160),
    (N.eqb_spec c' 60), (N.eqb_spec c' 62); subst; cbn;
    intros E1 E2; try discriminate; try congruence;
    rewrite E1 in E2 || rewrite <- E1 in E2; try discriminate; congruence.
Qed.

Lemma escapeHtml_inj a : forall b, escapeHtml a = escapeHtml b -> a = b.
Proof.
  induction a as [|c a IH]; intros [|c' b] H.
  - reflexivity.
  - rewrite escapeHtml_cons in H. exfalso.
    destruct (escape_unit c') eqn:E; [now apply (escape_unit_nonempty c')|].
    discriminate.
  - rewrite escapeHtml_cons in H. exfalso.
    destruct (escape_unit c) eqn:E; [now apply (escape_unit_nonempty c)|].
    discriminate.
  - rewrite !escapeHtml_cons in H.
    destruct (escape_unit_cases c) as [[Hc E]|[Hc (n & Hn & E)]];
      destruct (escape_unit_cases c') as [[Hc' E']|[Hc' (n' & Hn' & E')]];
      rewrite E, E' in H; cbn in H.
    + injection H as -> H. f_equal. now apply IH.
    + injection H as -> H. discriminate.
    + injection H as <- H. discriminate.
    + injection H as H.
      destruct (reference_names_prefix_free _ _ _ _ Hn Hn' H) as [-> H'].
      f_equal; [|now apply IH].
      now apply (escape_unit_name_inj c c' n').
Qed.

Lemma escape_unit_length ch :
  (is_escaped ch = false /\ escape_unit ch = [ch]) \/
  (is_escaped ch = true /\ 1 < length (escape_unit ch)).
Proof.
  destruct (escape_unit_cases ch) as [H|[H (name & Hn & E)]]; [now left|].
  right. split; [assumption|]. rewrite E. simpl in Hn.
  destruct Hn as [<-|[<-|[<-|[<-|[]]]]]; simpl; lia.
Qed.

Lemma escapeHtml_length s :
  length s <= length (escapeHtml s) /\
  (length (escapeHtml s) = length s ->
   forallb (fun ch => negb (is_escaped ch)) s = true).
Proof.
  induction s as [|c s [IH1 IH2]]; [split; [apply le_n|reflexivity]|].
  rewrite escapeHtml_cons, length_app. cbn [length forallb].
  destruct (escape_unit_length c) as [[Hc E]|[Hc Hl]].
  - rewrite E, Hc. cbn [length negb andb]. split; [lia|]. intros H. apply IH2. lia.
  - split; lia.
Qed.

Lemma escapeHtml_plain s :
  forallb (fun ch => negb (is_escaped ch)) s = true -> escapeHtml s = s.
Proof.
  induction s as [|c s IH]; [reflexivity|]. cbn [forallb].
  intros H. apply andb_prop in H. destruct H as [Hc Hs].
  rewrite escapeHtml_cons, (IH Hs).
  destruct (escape_unit_cases c) as [[_ ->]|[Hc' _]]; [reflexivity|].
  rewrite Hc' in Hc. discriminate.
Qed.

Lemma count_occ_escape_unit ch q :
  is_escaped q = false -> (forall name, In name reference_names -> ~ In q name) ->
  count_occ N.eq_dec (escape_unit ch) q = count_occ N.eq_dec [ch] q.
Proof.
  intros Hq Hnames.
  destruct (escape_unit_cases ch) as [[_ ->]|[Hc (name & Hn & ->)]];
    [reflexivity|].
  cbn [count_occ].
  destruct (N.eq_dec 38 q) as [<-|_]; [discriminate|].
  destruct (N.eq_dec ch q) as [->|_]; [congruence|].
  apply count_occ_not_In. now apply Hnames.
Qed.

(** X1.  Whatever the text, the markup [escapeHtml] returns contains no
    [<], no [>] and no no-break space, and every [&] in it starts one of
    the references [&amp;], [&nbsp;], [&lt;] and [&gt;]: the markup
    denotes text and no element. *)
Theorem escapeHtml_output_is_text (text : jsstring) :
  (forall ch, In ch (escapeHtml text) ->
     ch <> 60%N /\ ch <> 62%N /\ ch <> 160%N) /\
  (forall pre post, escapeHtml text = pre ++ 38%N :: post ->
     exists name rest, In name reference_names /\ post = name ++ rest).
Proof.
  split; [|apply escapeHtml_references].
  intros ch Hin.
  repeat split; intros ->;
    now pose proof (escapeHtml_units text _ Hin eq_refl).
Qed.

(** X2.  Distinct texts are escaped to distinct markups; a text that
    already spells a reference is not taken for the character it names. *)
Theorem escapeHtml_injective (a b : jsstring) :
  a <> b -> escapeHtml a <> escapeHtml b.
Proof.
  intros Hne H. apply Hne. now apply escapeHtml_inj.
Qed.

Lemma escapeHtml_injective_witness :
  escapeHtml (js "<") <> escapeHtml (js "&lt;").
Proof.
  apply (escapeHtml_injective (js "<") (js "&lt;")). discriminate.
Defined.

(** X3.  [escapeHtml] returns the text as it is exactly when it holds
    none of [&], the no-break space, [<] and [>]; and it leaves every
    double and single quote of the text in place, so the markup is not
    safe to put between the quotes of an attribute value. *)
Theorem escapeHtml_keeps_quotes (text : jsstring) :
  (escapeHtml text = text
   <-> forallb (fun ch => negb (is_escaped ch)) text = true) /\
  count_occ N.eq_dec (escapeHtml text) 34%N = count_occ N.eq_dec text 34%N /\
  count_occ N.eq_dec (escapeHtml text) 39%N = count_occ N.eq_dec text 39%N.
Proof.
  split; [split|].
  - intros H. apply escapeHtml_length. now rewrite H.
  - apply escapeHtml_plain.
  - assert (Hq : forall q, (q = 34 \/ q = 39)%N ->
      count_occ N.eq_dec (escapeHtml text) q = count_occ N.eq_dec text q).
    { intros q Hq. induction text as [|c s IH]; [reflexivity|].
      rewrite escapeHtml_cons, count_occ_app, IH.
      change (c :: s) with ([c] ++ s). rewrite count_occ_app. f_equal.
      apply count_occ_escape_unit.
      - destruct Hq as [-> | ->]; reflexivity.
      - intros name Hn Hin. simpl in Hn.
        destruct Hn as [<-|[<-|[<-|[<-|[]]]]]; simpl in Hin;
          destruct Hq as [-> | ->];
          repeat (destruct Hin as [Hin|Hin]; [discriminate|]); contradiction. }
    split; apply Hq; auto.
Qed.

(* ------------------------------------------------------------------ *)
(** ** The changelog *)

Lemma insert_by_ext_in {A} (cmp cmp' : A -> A -> Z) x l :
  (forall y, In y l -> cmp x y = cmp' x y) ->
  insert_by cmp x l = insert_by cmp' x l.
Proof.
  induction l as [|y l IH]; intros H; [reflexivity|].
  cbn [insert_by]. rewrite (H y) by now left.
  destruct (cmp' x y <=? 0)%Z; [reflexivity|].
  f_equal. apply IH. intros z Hz. apply H. now right.
Qed.

Lemma array_sort_ext_in {A} (cmp cmp' : A -> A -> Z) l :
  (forall x y, In x l -> In y l -> cmp x y = cmp' x y) ->
  array_sort cmp l = array_sort cmp' l.
Proof.
  induction l as [|x l IH]; intros H; [reflexivity|].
  cbn [array_sort fold_right]. fold (array_sort cmp l). fold (array_sort cmp' l).
  rewrite IH by (intros; apply H; now right).
  apply insert_by_ext_in. intros y Hy. apply H; [now left|right].
  now apply (Permutation_in _ (array_sort_perm cmp' l)).
Qed.

(** A stable sort keeps the order of the elements of a class that the
    comparator does not separate. *)
Lemma filter_insert_by {A} (p : A -> bool) (cmp : A -> A -> Z) x l :
  (forall y, In y l -> p x = true -> p y = true -> (cmp x y <= 0)%Z) ->
  filter p (insert_by cmp x l) = filter p (x :: l).
Proof.
  induction l as [|y l IH]; intros H; [reflexivity|].
  cbn [insert_by]. destruct (cmp x y <=? 0)%Z eqn:E; [reflexivity|].
  apply Z.leb_gt in E. cbn [filter].
  rewrite IH by (intros z Hz; apply H; now right). cbn [filter].
  destruct (p x) eqn:Px; [|reflexivity].
  destruct (p y) eqn:Py; [|reflexivity].
  specialize (H y (or_introl eq_refl) eq_refl Py). lia.
Qed.

Lemma filter_array_sort {A} (p : A -> bool) (cmp : A -> A -> Z) l :
  (forall x y, In x l -> In y l -> p x = true -> p y = true ->
     (cmp x y <= 0)%Z) ->
  filter p (array_sort cmp l) = filter p l.
Proof.
  induction l as [|x l IH]; intros H; [reflexivity|].
  cbn [array_sort fold_right]. fold (array_sort cmp l).
  rewrite filter_insert_by.
  - cbn [filter]. rewrite IH by (intros; apply H; try (now right); assumption).
    reflexivity.
  - intros y Hy. apply H; [now left|right].
    now apply (Permutation_in _ (array_sort_perm cmp l)).
Qed.

(** X4.  When every entry of a non-empty changelog has a valid date,
    [renderChangelog] writes one article for each entry, newest first: an
    article never comes before one of a later date, and entries of the
    same date keep the order they have in the document. *)
Theorem renderChangelog_newest_first (Date_value : jsstring -> option Z)
    (w : World) (es : list ChangelogEntry) :
  entries (changelog w) = Some es -> es <> [] ->
  Forall (fun entry => Date_value (entry_date entry) <> None) es ->
  exists sorted,
    renderChangelog Date_value w
    = ChangelogArticles (map changelog_article sorted) /\
    Permutation sorted es /\
    (forall l1 a l2 b l3 ta tb,
       sorted = l1 ++ a :: l2 ++ b :: l3 ->
       Date_value (entry_date a) = Some ta ->
       Date_value (entry_date b) = Some tb -> (tb <= ta)%Z) /\
    (forall t, filter (dated Date_value t) sorted
               = filter (dated Date_value t) es).
Proof.
  intros He Hne Hvalid. rewrite Forall_forall in Hvalid.
  exists (array_sort (by_date_descending Date_value) es).
  split; [|split; [apply array_sort_perm|split]].
  - unfold renderChangelog. rewrite He. destruct es; [contradiction|reflexivity].
  - set (time_of := fun entry =>
           match Date_value (entry_date entry) with
           | Some t => t
           | None => 0%Z
           end).
    set (cmp := fun a b : ChangelogEntry => (time_of b - time_of a)%Z).
    assert (Hsort : array_sort (by_date_descending Date_value) es
                    = array_sort cmp es).
    { apply array_sort_ext_in. intros x y Hx Hy.
      unfold by_date_descending, cmp, time_of.
      destruct (Date_value (entry_date y)) eqn:Ey;
        [|now apply Hvalid in Hy].
      destruct (Date_value (entry_date x)) eqn:Ex;
        [reflexivity|now apply Hvalid in Hx]. }
    rewrite Hsort. intros l1 a l2 b l3 ta tb E Ha Hb.
    assert (Hs : StronglySorted (fun a b => (cmp a b <= 0)%Z)
                   (array_sort cmp es)).
    { apply array_sort_sorted; unfold cmp; intros; lia. }
    rewrite E in Hs. apply sorted_before in Hs.
    unfold cmp, time_of in Hs. rewrite Ha, Hb in Hs. lia.
  - intros t. apply filter_array_sort. intros x y _ _.
    unfold dated, by_date_descending.
    destruct (Date_value (entry_date x)); [|discriminate].
    destruct (Date_value (entry_date y)); [|discriminate].
    intros Hx Hy. apply Z.eqb_eq in Hx, Hy. lia.
Qed.

(** Two entries of the same day keep their order, behind the newer one. *)
Lemma renderChangelog_newest_first_witness :
  exists sorted,
    renderChangelog Sample.day_number Sample.world_with_changelog
    = ChangelogArticles (map changelog_article sorted) /\
    Permutation sorted Sample.changelog_entries /\
    (forall l1 a l2 b l3 ta tb,
       sorted = l1 ++ a :: l2 ++ b :: l3 ->
       Sample.day_number (entry_date a) = Some ta ->
       Sample.day_number (entry_date b) = Some tb -> (tb <= ta)%Z) /\
    (forall t, filter (dated Sample.day_number t) sorted
               = filter (dated Sample.day_number t) Sample.changelog_entries).
Proof.
  apply (renderChangelog_newest_first Sample.day_number
           Sample.world_with_changelog Sample.changelog_entries).
  - reflexivity.
  - discriminate.
  - repeat constructor; discriminate.
Defined.

(* ------------------------------------------------------------------ *)
(** ** The console and the changelog after loading *)

Lemma loadJSON_console {A} path (r : FetchOutcome A) w :
  console (snd (loadJSON path r w))
  = console w ++ match error_of r with
                 | Some error => [FailedToLoad path error]
                 | None => []
                 end /\
  changelog (snd (loadJSON path r w)) = changelog w.
Proof.
  unfold loadJSON, error_of. destruct (loadJSON_try r); cbn.
  - split; reflexivity.
  - now rewrite app_nil_r.
Qed.

Lemma run_task_console net t w :
  console (snd (run_task net t w)) = console w ++ logged net t /\
  changelog (snd (run_task net t w))
  = match t with
    | LoadChangelog =>
        match fetched (serve_changelog net changelog_file) with
        | Some c => c
        | None => changelog w
        end
    | _ => changelog w
    end.
Proof.
  unfold logged, task_error.
  destruct t as [id|id|id|]; unfold run_task, bind; cbn [task_path].
  - destruct (loadJSON_returns (data_file "ides" id)
                (serve_ide net (data_file "ides" id)) w) as (H1 & _).
    destruct (loadJSON_console (data_file "ides" id)
                (serve_ide net (data_file "ides" id)) w) as (H2 & H3).
    destruct (loadJSON _ _ w) as [r w']. simpl in *. subst r.
    destruct (fetched _); simpl; rewrite ?H2, ?H3; split; reflexivity.
  - destruct (loadJSON_returns (data_file "ai-clients" id)
                (serve_ai_client net (data_file "ai-clients" id)) w) as (H1 & _).
    destruct (loadJSON_console (data_file "ai-clients" id)
                (serve_ai_client net (data_file "ai-clients" id)) w)
      as (H2 & H3).
    destruct (loadJSON _ _ w) as [r w']. simpl in *. subst r.
    destruct (fetched _); simpl; rewrite ?H2, ?H3; split; reflexivity.
  - destruct (loadJSON_returns (data_file "features" id)
                (serve_feature net (data_file "features" id)) w) as (H1 & _).
    destruct (loadJSON_console (data_file "features" id)
                (serve_feature net (data_file "features" id)) w) as (H2 & H3).
    destruct (loadJSON _ _ w) as [r w']. simpl in *. subst r.
    destruct (fetched _); simpl; rewrite ?H2, ?H3; split; reflexivity.
  - destruct (loadJSON_returns changelog_file
                (serve_changelog net changelog_file) w) as (H1 & _).
    destruct (loadJSON_console changelog_file
                (serve_changelog net changelog_file) w) as (H2 & H3).
    destruct (loadJSON _ _ w) as [r w']. simpl in *. subst r.
    destruct (fetched _); simpl; rewrite ?H2, ?H3; split; reflexivity.
Qed.

Lemma fold_settle_console net sched :
  forall l, NoDup sched -> (forall t, In t sched -> is_pending t l = true) ->
  let l' := fold_left (settle net) sched l in
  console (world l') = console (world l) ++ flat_map (logged net) sched /\
  changelog (world l')
  = if in_dec task_eq_dec LoadChangelog sched
    then match fetched (serve_changelog net changelog_file) with
         | Some c => c
         | None => changelog (world l)
         end
    else changelog (world l).
Proof.
  induction sched as [|t ts IH]; intros l Hnd Hp; cbn [fold_left flat_map].
  - cbn. now rewrite app_nil_r.
  - inversion Hnd as [|? ? Hnotin Hnd']; subst.
    assert (Ht : is_pending t l = true) by (apply Hp; now left).
    destruct (IH (settle net l t) Hnd') as (Ic & Ich).
    { intros t' Ht'. rewrite is_pending_settle_other; [apply Hp; now right|].
      intros ->. contradiction. }
    cbv zeta in *. rewrite Ic, Ich. rewrite settle_pending by assumption.
    cbn [world]. destruct (run_task_console net t (world l)) as (Ec & Ech).
    rewrite Ec, Ech, app_assoc. split; [reflexivity|].
    destruct (in_dec task_eq_dec LoadChangelog ts) as [Hin|Hout];
      destruct (in_dec task_eq_dec LoadChangelog (t :: ts)) as [Hin'|Hout'].
    + destruct t; try reflexivity. contradiction.
    + exfalso. apply Hout'. now right.
    + destruct Hin' as [->|Hin']; [|contradiction]. reflexivity.
    + destruct t; try reflexivity. exfalso. apply Hout'. now left.
Qed.

Lemma start_pending sched w :
  incl sched started_tasks ->
  forall t, In t sched -> is_pending t (start w) = true.
Proof.
  intros Hincl t Ht. now apply is_pending_start, Hincl.
Qed.



(** X6.  While the data load, the console receives one entry for each
    load that has completed with a failure, in the order in which they
    completed, naming the path of the file and the error caught: a network
    error, the status of a response that is not [ok], or a body that is
    not JSON; a load that yields a document logs nothing. *)
Theorem console_lists_failed_fetches (net : Network) (schedule : list Task) :
  NoDup schedule -> incl schedule started_tasks ->
  console (world (loadAllData net schedule initial_world))
  = flat_map (logged net) schedule.
Proof.
  intros Hnd Hincl.
  now destruct (fold_settle_console net schedule (start initial_world) Hnd
                  (start_pending schedule initial_world Hincl)) as (H & _).
Qed.

(** The load of the missing ["roots"] completes first. *)
Lemma console_lists_failed_fetches_witness :
  console (world (loadAllData Sample.network [LoadFeature (js "roots")]
                    initial_world))
  = [FailedToLoad (js "./data/features/roots.json") (HttpError 404)].
Proof.
  rewrite (console_lists_failed_fetches Sample.network
             [LoadFeature (js "roots")]).
  - reflexivity.
  - constructor; [intros []|constructor].
  - intros t [<-|[]]. apply started_tasks_ids.
    unfold FEATURE_FILES. cbn [map In]. intuition.
Defined.

(* ------------------------------------------------------------------ *)
(** ** The plugin-availability view in closed form *)

Lemma partition_fold loaded ids : forall eco nat,
  fold_left (fun '(pluginEcosystems, nativeOnly) ideId =>
    match obj_get loaded ideId with
    | None => (pluginEcosystems, nativeOnly)
    | Some ide =>
        if hasPlugins (compatible ide)
        then (pluginEcosystems ++ [spread_ide ideId ide], nativeOnly)
        else (pluginEcosystems, nativeOnly ++ [spread_ide ideId ide])
    end) ids (eco, nat)
  = (eco ++ flat_map (fun ideId =>
              match obj_get loaded ideId with
              | Some ide =>
                  if Bool.eqb (hasPlugins (compatible ide)) true
                  then [spread_ide ideId ide] else []
              | None => []
              end) ids,
     nat ++ flat_map (fun ideId =>
              match obj_get loaded ideId with
              | Some ide =>
                  if Bool.eqb (hasPlugins (compatible ide)) false
                  then [spread_ide ideId ide] else []
              | None => []
              end) ids).
Proof.
  induction ids as [|id ids IH]; intros eco nat; cbn [fold_left flat_map].
  - now rewrite !app_nil_r.
  - destruct (obj_get loaded id) as [ide|]; [|apply IH].
    destruct (hasPlugins (compatible ide)); rewrite IH; cbn [Bool.eqb app];
      now rewrite <- ?app_assoc.
Qed.

Lemma partition_ides_eq loaded :
  partition_ides loaded
  = (interfaces_where true loaded, interfaces_where false loaded).
Proof. unfold partition_ides. now rewrite partition_fold. Qed.

Lemma renderPluginsMatrix_view w :
  exec renderPluginsMatrix w = set_plugins_matrix (plugins_view w) w.
Proof.
  unfold exec, renderPluginsMatrix, bind, gets, plugins_view. cbn [fst snd].
  destruct ((length (obj_keys (ides w)) =? 0)
            || (length (obj_keys (aiClients w)) =? 0)); [reflexivity|].
  rewrite partition_ides_eq. reflexivity.
Qed.

Lemma render_all_plugins lc w :
  plugins_matrix (document (exec (render_all lc) w)) = plugins_view w.
Proof.
  unfold render_all. rewrite exec_bind, renderFeaturesMatrix_eq.
  rewrite renderPluginsMatrix_view. reflexivity.
Qed.

Lemma map_flat_map {A B C} (g : B -> C) (f : A -> list B) l :
  map g (flat_map f l) = flat_map (fun x => map g (f x)) l.
Proof.
  induction l as [|x l IH]; [reflexivity|].
  cbn [flat_map]. now rewrite map_app, IH.
Qed.



Lemma exec_renderPluginsMatrix_view w :
  plugins_matrix (document (exec renderPluginsMatrix w)) = plugins_view w.
Proof. now rewrite renderPluginsMatrix_view. Qed.



(* ------------------------------------------------------------------ *)
(** ** The plugin view and the order of the fetches *)

Lemma obj_empty_iff {A} (o : jsobj A) :
  length (obj_keys o) = 0 <-> forall id, obj_get o id = None.
Proof.
  destruct o as [|[k v] o]; cbn.
  - split; reflexivity.
  - split; [discriminate|]. intros H. specialize (H k).
    destruct (jsstring_eq_dec k k); [discriminate|contradiction].
Qed.

Lemma obj_empty_ext {A} (o1 o2 : jsobj A) :
  (forall id, obj_get o1 id = obj_get o2 id) ->
  (length (obj_keys o1) =? 0) = (length (obj_keys o2) =? 0).
Proof.
  intros H.
  destruct (Nat.eqb_spec (length (obj_keys o1)) 0) as [E1|E1];
    destruct (Nat.eqb_spec (length (obj_keys o2)) 0) as [E2|E2];
    try reflexivity; exfalso.
  - apply E2, obj_empty_iff. intros id. rewrite <- H.
    now apply obj_empty_iff.
  - apply E1, obj_empty_iff. intros id. rewrite H.
    now apply obj_empty_iff.
Qed.

Lemma interfaces_where_ext p o1 o2 :
  (forall id, obj_get o1 id = obj_get o2 id) ->
  interfaces_where p o1 = interfaces_where p o2.
Proof.
  intros H. unfold interfaces_where. apply flat_map_ext. intros id.
  now rewrite H.
Qed.

Lemma native_name_ext c1 c2 ide :
  (forall id, obj_get c1 id = obj_get c2 id) ->
  native_name c1 ide = native_name c2 ide.
Proof. intros H. unfold native_name. now rewrite H. Qed.

Lemma plugins_view_ext w1 w2 :
  (forall id, obj_get (ides w1) id = obj_get (ides w2) id) ->
  (forall id, obj_get (aiClients w1) id = obj_get (aiClients w2) id) ->
  plugins_view w1 = plugins_view w2.
Proof.
  intros Hi Ha. unfold plugins_view.
  rewrite (obj_empty_ext _ _ Hi), (obj_empty_ext _ _ Ha).
  rewrite !(interfaces_where_ext _ _ _ Hi).
  destruct ((length (obj_keys (ides w2)) =? 0)
            || (length (obj_keys (aiClients w2)) =? 0)); [reflexivity|].
  f_equal.
  - f_equal. apply map_ext. intros c. unfold column_name, obj_lookup.
    now rewrite Ha.
  - apply map_ext. intros ide. unfold ecosystem_row.
    now rewrite (native_name_ext _ _ ide Ha).
  - destruct (0 <? _); [|reflexivity]. f_equal. apply map_ext. intros ide.
    unfold native_only_row. now rewrite (native_name_ext _ _ ide Ha).
Qed.

(** What a complete load stores under any identifier, listed or not. *)
Lemma loaded_lookups net sched :
  Permutation sched started_tasks ->
  let w := world (loadAllData net sched initial_world) in
  (forall id, obj_get (ides w) id
     = if in_dec jsstring_eq_dec id IDE_FILES
       then fetched (serve_ide net (data_file "ides" id)) else None) /\
  (forall id, obj_get (aiClients w) id
     = if in_dec jsstring_eq_dec id AI_CLIENT_FILES
       then fetched (serve_ai_client net (data_file "ai-clients" id))
       else None) /\
  (forall id, obj_get (features w) id
     = if in_dec jsstring_eq_dec id FEATURE_FILES
       then fetched (serve_feature net (data_file "features" id))
       else None).
Proof.
  intros Hp. destruct (complete_schedule sched Hp) as (Hnd & Hi1 & Hi2).
  destruct (loadAllData_world net sched Hnd Hi1) as (Ei & Ea & Ef & _).
  cbv zeta in *. rewrite Ei, Ea, Ef.
  destruct (ids_of_schedule sched) as (Si & Sa & Sf).
  destruct started_tasks_ids as (Ti & Ta & Tf).
  repeat split; intros id; rewrite obj_get_loaded_entries.
  - destruct (in_dec jsstring_eq_dec id (ide_ids sched)) as [H|H];
      destruct (in_dec jsstring_eq_dec id IDE_FILES) as [H'|H'];
      try reflexivity; exfalso.
    + apply H', Ti, Hi1, Si, H.
    + apply H, Si, Hi2, Ti, H'.
  - destruct (in_dec jsstring_eq_dec id (ai_client_ids sched)) as [H|H];
      destruct (in_dec jsstring_eq_dec id AI_CLIENT_FILES) as [H'|H'];
      try reflexivity; exfalso.
    + apply H', Ta, Hi1, Sa, H.
    + apply H, Sa, Hi2, Ta, H'.
  - destruct (in_dec jsstring_eq_dec id (feature_ids sched)) as [H|H];
      destruct (in_dec jsstring_eq_dec id FEATURE_FILES) as [H'|H'];
      try reflexivity; exfalso.
    + apply H', Tf, Hi1, Sf, H.
    + apply H, Sf, Hi2, Tf, H'.
Qed.

Lemma init_complete lc net sched :
  Permutation sched started_tasks ->
  init lc net sched initial_world
  = exec (render_all lc) (world (loadAllData net sched initial_world)).
Proof.
  intros Hp. destruct (complete_schedule sched Hp) as (Hnd & Hi1 & Hi2).
  unfold init. now rewrite (proj2 (load_complete_iff net sched Hnd Hi1) Hi2).
Qed.

(** X8.  The plugin view does not depend on the order in which the
    loads complete, nor on the collation of the host: any two complete
    loads from the same network show the same columns and rows. *)
Theorem plugin_view_ignores_fetch_order
    (localeCompare localeCompare' : jsstring -> jsstring -> Z)
    (net : Network) (schedule schedule' : list Task) :
  Permutation schedule started_tasks ->
  Permutation schedule' started_tasks ->
  plugins_matrix (document (init localeCompare net schedule initial_world))
  = plugins_matrix (document (init localeCompare' net schedule' initial_world)).
Proof.
  intros Hp Hp'. rewrite !init_complete by assumption.
  rewrite !render_all_plugins.
  destruct (loaded_lookups net schedule Hp) as (Hi & Ha & _).
  destruct (loaded_lookups net schedule' Hp') as (Hi' & Ha' & _).
  cbv zeta in *. apply plugins_view_ext; intros id.
  - now rewrite Hi, Hi'.
  - now rewrite Ha, Ha'.
Qed.

(** The sample site, its fetches settling in the order of the lists and
    in the reverse order. *)
Lemma plugin_view_ignores_fetch_order_witness :
  plugins_matrix (document (init Sample.compare_names Sample.network
                              started_tasks initial_world))
  = plugins_matrix (document (init Sample.compare_names Sample.network
                                (rev started_tasks) initial_world)).
Proof.
  apply (plugin_view_ignores_fetch_order Sample.compare_names
           Sample.compare_names Sample.network started_tasks
           (rev started_tasks)).
  - apply Permutation_refl.
  - apply Permutation_sym, Permutation_rev.
Defined.

(* ------------------------------------------------------------------ *)
(** ** The columns and cells of the plugin view *)









(** X11.  An interface that [IDE_FILES] lists and whose document names no
    compatible client, or has no such list, is shown in the native-only
    table with a check mark, although it declares no native client. *)
Theorem interface_without_clients_shown_native (w : World) (id : jsstring)
    (ide : Ide.t) :
  In id IDE_FILES -> obj_get (ides w) id = Some ide ->
  compatible ide = [] -> aiClients w <> [] ->
  exists cols eco rows row cell,
    plugins_matrix (document (exec renderPluginsMatrix w))
    = PluginsTables cols eco (Some rows) /\
    In row rows /\
    tr_label row = InterfaceCell (Ide.name ide) /\
    tr_cells row = [cell] /\
    has_class (js "support-y") (classList cell) = true /\
    innerHTML cell = js "&#10003;".
Proof.
  intros Hid Hget Hcompat Hclients.
  rewrite exec_renderPluginsMatrix_view. unfold plugins_view.
  assert (Hi : (length (obj_keys (ides w)) =? 0) = false).
  { apply Nat.eqb_neq. intros H.
    rewrite (proj1 (obj_empty_iff _) H id) in Hget. discriminate. }
  assert (Ha : (length (obj_keys (aiClients w)) =? 0) = false).
  { destruct (aiClients w); [contradiction|reflexivity]. }
  rewrite Hi, Ha. cbn [orb].
  assert (Hin : In (spread_ide id ide) (interfaces_where false (ides w))).
  { unfold interfaces_where. apply in_flat_map. exists id.
    split; [assumption|]. rewrite Hget, Hcompat. now left. }
  destruct (interfaces_where false (ides w)) as [|i l] eqn:E; [contradiction|].
  cbn [length Nat.ltb Nat.leb].
  do 3 eexists. exists (native_only_row (aiClients w) (spread_ide id ide)).
  eexists. split; [reflexivity|].
  split; [apply in_map; assumption|]. repeat split.
Qed.

(** On the site whose interfaces declare no client, VS Code is a row of
    the native-only table. *)
Lemma interface_without_clients_shown_native_witness :
  exists cols eco rows row cell,
    plugins_matrix (document (exec renderPluginsMatrix
      (world (loadAllData Sample.unpaired_network started_tasks
                initial_world))))
    = PluginsTables cols eco (Some rows) /\
    In row rows /\
    tr_label row = InterfaceCell (js "An editor") /\
    tr_cells row = [cell] /\
    has_class (js "support-y") (classList cell) = true /\
    innerHTML cell = js "&#10003;".
Proof.
  apply (interface_without_clients_shown_native
           (world (loadAllData Sample.unpaired_network started_tasks
                     initial_world))
           (js "vscode") (Ide.mk None (js "An editor") None)).
  - unfold IDE_FILES. cbn [map In]. auto.
  - vm_compute. reflexivity.
  - reflexivity.
  - vm_compute. discriminate.
Defined.

(* ------------------------------------------------------------------ *)
(** ** When the page is rendered, and the placeholders *)

Lemma plugins_view_not_static w : plugins_view w <> PluginsStatic.
Proof.
  unfold plugins_view.
  destruct ((length (obj_keys (ides w)) =? 0)
            || (length (obj_keys (aiClients w)) =? 0)); discriminate.
Qed.

Lemma features_view_not_static lc w : features_view lc w <> FeaturesStatic.
Proof.
  unfold features_view.
  destruct ((length _ =? 0) || (length (obj_keys (features w)) =? 0));
    discriminate.
Qed.

Lemma render_all_modal lc w :
  source_modal (document (exec (render_all lc) w)) = source_modal (document w).
Proof.
  unfold render_all. rewrite exec_bind, renderFeaturesMatrix_eq.
  rewrite renderPluginsMatrix_view. reflexivity.
Qed.

(** X12.  [init] renders nothing while a load is outstanding: the page
    is the static one until the last of the started loads is complete,
    and from then on both matrix containers hold what the renderers
    wrote, a table or the placeholder. *)
Theorem init_renders_after_last_fetch
    (localeCompare : jsstring -> jsstring -> Z) (net : Network)
    (schedule : list Task) :
  NoDup schedule -> incl schedule started_tasks ->
  let page := document (init localeCompare net schedule initial_world) in
  (~ incl started_tasks schedule -> page = document initial_world) /\
  (incl started_tasks schedule ->
     plugins_matrix page <> PluginsStatic /\
     features_matrix page <> FeaturesStatic).
Proof.
  intros Hnd Hincl. cbv zeta. unfold init.
  pose proof (load_complete_iff net schedule Hnd Hincl) as Hc.
  destruct (load_complete (loadAllData net schedule initial_world)).
  - split.
    + intros Hn. exfalso. now apply Hn, Hc.
    + intros _. rewrite render_all_plugins, render_all_features.
      split; [apply plugins_view_not_static|apply features_view_not_static].
  - split.
    + intros _. now destruct (loadAllData_world net schedule Hnd Hincl)
        as (_ & _ & _ & H).
    + intros H. apply Hc in H. discriminate.
Qed.

(** With the fetch of the changelog still outstanding the page is the
    static one. *)
Lemma init_renders_after_last_fetch_witness :
  document (init Sample.compare_names Sample.network
              (map LoadIde IDE_FILES) initial_world)
  = document initial_world.
Proof.
  apply (init_renders_after_last_fetch Sample.compare_names Sample.network
           (map LoadIde IDE_FILES)).
  - apply (NoDup_app_remove_r _ _ started_tasks_NoDup).
  - intros t Ht. unfold started_tasks. apply in_or_app. now left.
  - intros H. specialize (H LoadChangelog).
    assert (Hin : In LoadChangelog started_tasks).
    { unfold started_tasks. rewrite !in_app_iff. right. right. right.
      now left. }
    apply H, in_map_iff in Hin. destruct Hin as (id & E & _). discriminate.
Defined.




(* ------------------------------------------------------------------ *)
(** ** The rows of the feature table *)

Lemma filter_flat_map {A B} (p : B -> bool) (f : A -> list B) l :
  filter p (flat_map f l) = flat_map (fun x => filter p (f x)) l.
Proof.
  induction l as [|x l IH]; [reflexivity|].
  cbn [flat_map]. now rewrite filter_app, IH.
Qed.

Lemma filter_split_perm {A} (p : A -> bool) l :
  Permutation (filter p l ++ filter (fun x => negb (p x)) l) l.
Proof.
  induction l as [|x l IH]; [constructor|].
  cbn [filter]. destruct (p x); cbn [negb app].
  - now constructor.
  - apply Permutation_sym, Permutation_cons_app, Permutation_sym, IH.
Qed.

Lemma filter_filter {A} (p q : A -> bool) l :
  filter p (filter q l) = filter (fun x => q x && p x) l.
Proof.
  induction l as [|x l IH]; [reflexivity|].
  cbn [filter]. destruct (q x); cbn [filter andb]; rewrite IH; reflexivity.
Qed.

Lemma filter_none {A} (p : A -> bool) l :
  (forall x, In x l -> p x = false) -> filter p l = [].
Proof.
  induction l as [|x l IH]; intros H; [reflexivity|].
  cbn [filter]. rewrite (H x) by now left. apply IH. intros; apply H. now right.
Qed.

Lemma of_interface_other id k c :
  id <> k -> of_interface k c && of_interface id c = false.
Proof.
  intros Hne. unfold of_interface.
  destruct (jseqb (ideId c) k) eqn:Ek; [|reflexivity].
  apply jseqb_eq in Ek. cbn [andb]. apply jseqb_neq. congruence.
Qed.

(** Listing the combinations interface by interface, each interface once,
    rearranges them and keeps the order inside an interface. *)
Lemma by_interface_perm ks : forall cs,
  NoDup ks -> (forall c, In c cs -> In (ideId c) ks) ->
  Permutation (flat_map (fun id => filter (of_interface id) cs) ks) cs.
Proof.
  induction ks as [|k ks IH]; intros cs Hnd Hin.
  - destruct cs as [|c cs]; [constructor|]. destruct (Hin c (or_introl eq_refl)).
  - inversion Hnd as [|? ? Hk Hnd']; subst. cbn [flat_map].
    etransitivity; [|apply (filter_split_perm (of_interface k) cs)].
    apply Permutation_app_head.
    etransitivity;
      [|apply (IH (filter (fun c => negb (of_interface k c)) cs) Hnd')].
    + apply Permutation_refl'. apply flat_map_ext_in. intros id Hid.
      rewrite filter_filter. apply filter_ext. intros c.
      unfold of_interface.
      destruct (jseqb (ideId c) id) eqn:E; [|now rewrite andb_false_r].
      apply jseqb_eq in E. rewrite andb_true_r.
      assert (Hne : jseqb (ideId c) k = false).
      { apply jseqb_neq. intros <-. congruence. }
      now rewrite Hne.
    + intros c Hc. apply filter_In in Hc. destruct Hc as [Hc Hn].
      destruct (Hin c Hc) as [E|H]; [|assumption].
      unfold of_interface in Hn. rewrite <- E, jseqb_refl in Hn. discriminate.
Qed.

Lemma by_interface_order ks cs id :
  NoDup ks -> In id ks ->
  filter (of_interface id) (flat_map (fun k => filter (of_interface k) cs) ks)
  = filter (of_interface id) cs.
Proof.
  induction 1 as [|k ks Hk Hnd IH]; intros Hin; [destruct Hin|].
  cbn [flat_map]. rewrite filter_app, filter_filter.
  destruct (jsstring_eq_dec id k) as [->|Hne].
  - rewrite filter_flat_map.
    assert (E : flat_map (fun x => filter (of_interface k)
                                     (filter (of_interface x) cs)) ks = []).
    { clear IH Hin Hnd. induction ks as [|k' ks IHk]; [reflexivity|].
      cbn [flat_map]. rewrite IHk by (intros H; apply Hk; now right).
      rewrite filter_filter, app_nil_r. apply filter_none. intros c _.
      apply of_interface_other. intros <-. apply Hk. now left. }
    rewrite E, app_nil_r. apply filter_ext. intros c.
    now destruct (of_interface k c).
  - destruct Hin as [E|Hin]; [congruence|].
    rewrite IH by assumption.
    rewrite (filter_none (fun x => of_interface k x && of_interface id x));
      [reflexivity|].
    intros c _. now apply of_interface_other.
Qed.

Lemma render_group_data fl g id :
  map tr_cells (filter is_data_row (render_group fl g id))
  = map (support_cells fl)
        match obj_get g id with
        | Some grp => combos grp
        | None => []
        end.
Proof.
  unfold render_group. destruct (obj_get g id) as [grp|]; [|reflexivity].
  assert (Hm : forall cs,
    map tr_cells (filter is_data_row
      (map (fun combo =>
              mkTr [js "ide-group-row"; group_id id] None None (js "none")
                   (ClientName (client_label id (group_ide grp) combo))
                   (support_cells fl combo)) cs))
    = map (support_cells fl) cs).
  { induction cs as [|c cs IH]; [reflexivity|].
    cbn [map filter is_data_row tr_label tr_cells]. now rewrite IH. }
  destruct (combos grp) as [|c [|c' cs]].
  - reflexivity.
  - reflexivity.
  - cbn [filter is_data_row tr_label]. apply Hm.
Qed.

Lemma group_combos cs id :
  match obj_get (group_by_ide cs) id with
  | Some grp => combos grp
  | None => []
  end = filter (of_interface id) cs.
Proof.
  rewrite (proj2 (group_by_ide_spec cs)). unfold group_spec.
  now destruct (filter (of_interface id) cs).
Qed.

Lemma features_view_table lc w head body :
  features_view lc w = FeaturesTable head body ->
  let cs := flat_map (combinations_of (aiClients w)) (obj_entries (ides w)) in
  let fl := feature_list (features w) in
  cs <> [] /\
  head = map header_cell fl /\
  body = flat_map (render_group fl (group_by_ide cs))
                  (sortedIdeIds lc (group_by_ide cs)).
Proof.
  unfold features_view.
  destruct (flat_map (combinations_of (aiClients w)) (obj_entries (ides w)))
    as [|c cs] eqn:E; [discriminate|].
  cbn [length Nat.eqb orb].
  destruct (length (obj_keys (features w)) =? 0); [discriminate|].
  intros H. injection H as <- <-. cbv zeta. repeat split. discriminate.
Qed.

Lemma exec_renderFeaturesMatrix_view lc w :
  features_matrix (document (exec (renderFeaturesMatrix lc) w))
  = features_view lc w.
Proof. now rewrite renderFeaturesMatrix_eq. Qed.

Lemma sortedIdeIds_In lc cs id :
  In id (sortedIdeIds lc (group_by_ide cs)) <-> exists c, In c cs /\ ideId c = id.
Proof.
  rewrite <- group_keys. unfold sortedIdeIds. split; intros H.
  - now apply (Permutation_in _ (array_sort_perm
      (by_count_then_name lc (group_by_ide cs)) (obj_keys (group_by_ide cs)))).
  - now apply (Permutation_in _ (Permutation_sym (array_sort_perm
      (by_count_then_name lc (group_by_ide cs)) (obj_keys (group_by_ide cs))))).
Qed.

(** The data rows of the feature table, by combinations. *)
Lemma features_view_data_rows lc w head body :
  features_view lc w = FeaturesTable head body ->
  let cs := flat_map (combinations_of (aiClients w)) (obj_entries (ides w)) in
  exists shown : list Combination,
    Permutation shown cs /\
    (forall id, filter (of_interface id) shown = filter (of_interface id) cs) /\
    map tr_cells (filter is_data_row body)
    = map (support_cells (feature_list (features w))) shown.
Proof.
  intros Hv. destruct (features_view_table _ _ _ _ Hv) as (_ & _ & ->).
  cbv zeta.
  set (cs := flat_map (combinations_of (aiClients w)) (obj_entries (ides w))).
  set (sorted := sortedIdeIds lc (group_by_ide cs)).
  assert (Hnd : NoDup sorted) by apply sortedIdeIds_NoDup.
  exists (flat_map (fun id => filter (of_interface id) cs) sorted).
  split; [|split].
  - apply by_interface_perm; [assumption|].
    intros c Hc. apply sortedIdeIds_In. eauto.
  - intros id. destruct (in_dec jsstring_eq_dec id sorted) as [Hin|Hout].
    + now apply by_interface_order.
    + assert (E : forall c, In c cs -> of_interface id c = false).
      { intros c Hc. unfold of_interface.
        apply jseqb_neq. intros E. apply Hout, sortedIdeIds_In. eauto. }
      rewrite (filter_none _ cs E). apply filter_none.
      intros c Hc. apply in_flat_map in Hc. destruct Hc as (k & _ & Hc).
      apply filter_In in Hc. now apply E.
  - rewrite filter_flat_map, map_flat_map.
    rewrite (map_flat_map (support_cells (feature_list (features w)))).
    apply flat_map_ext. intros id.
    now rewrite render_group_data, group_combos.
Qed.

(** X14.  In the feature table, rendered for interface identifiers that
    name no inherited member, every combination has exactly one data
    row, whatever the comparison of names does: the cells of the data
    rows, read from top to bottom, are the support cells of the
    combinations in a rearranged order, which keeps the combinations of
    one interface in the order [getClientCombinations] gave them. *)
Theorem every_combination_has_one_row
    (localeCompare : jsstring -> jsstring -> Z) (w : World)
    (head : list HeaderCell) (body : list Tr) :
  grouping_throws (eval getClientCombinations w) = false ->
  features_matrix (document (exec (renderFeaturesMatrix localeCompare) w))
  = FeaturesTable head body ->
  exists shown : list Combination,
    Permutation shown (eval getClientCombinations w) /\
    (forall id, filter (of_interface id) shown
                = filter (of_interface id) (eval getClientCombinations w)) /\
    map tr_cells (filter is_data_row body)
    = map (support_cells (feature_list (features w))) shown.
Proof.
  intros _. rewrite exec_renderFeaturesMatrix_view. intros Hv.
  unfold eval. rewrite getClientCombinations_eq. cbn [fst].
  now apply (features_view_data_rows localeCompare w head body).
Qed.

(** The combinations of the sample site fill five data rows. *)
Lemma every_combination_has_one_row_witness :
  exists shown : list Combination,
    Permutation shown (eval getClientCombinations Sample.loaded) /\
    (forall id, filter (of_interface id) shown
                = filter (of_interface id)
                         (eval getClientCombinations Sample.loaded)) /\
    map tr_cells (filter is_data_row Sample.body)
    = map (support_cells (feature_list (features Sample.loaded))) shown.
Proof.
  apply (every_combination_has_one_row Sample.compare_names Sample.loaded
           Sample.head Sample.body).
  - vm_compute. reflexivity.
  - vm_compute. reflexivity.
Defined.

Lemma flat_map_only {A B} (dec : forall a b : A, {a = b} + {a <> b})
    (f : A -> list B) (x : A) l :
  NoDup l -> In x l -> (forall y, In y l -> y <> x -> f y = []) ->
  flat_map f l = f x.
Proof.
  induction 1 as [|k ks Hk Hnd IH]; intros Hin Hf; [destruct Hin|].
  cbn [flat_map]. destruct (dec k x) as [->|Hne].
  - assert (E : flat_map f ks = []).
    { clear IH Hin Hnd. induction ks as [|y ks IHk]; [reflexivity|].
      cbn [flat_map]. rewrite IHk.
      + rewrite (Hf y); [reflexivity|right; now left|].
        intros ->. apply Hk. now left.
      + intros H. apply Hk. now right.
      + intros z Hz. apply Hf. destruct Hz as [->|Hz]; [now left|].
        right. now right. }
    now rewrite E, app_nil_r.
  - destruct Hin as [E|Hin]; [contradiction|].
    rewrite (Hf k) by (auto; now left). cbn [app]. apply IH; [assumption|].
    intros y Hy. apply Hf. now right.
Qed.

Lemma render_group_members fl g id id0 :
  members_of (group_id id0) (render_group fl g id)
  = if jsstring_eq_dec id id0 then
      match obj_get g id with
      | Some grp =>
          match combos grp with
          | [_] => []
          | cs =>
              map (fun combo =>
                mkTr [js "ide-group-row"; group_id id] None None (js "none")
                     (ClientName (client_label id (group_ide grp) combo))
                     (support_cells fl combo)) cs
          end
      | None => []
      end
    else [].
Proof.
  unfold members_of, render_group.
  assert (Hm : forall ideV cs,
    filter (fun row => has_class (group_id id0) (tr_classList row))
      (map (fun combo =>
              mkTr [js "ide-group-row"; group_id id] None None (js "none")
                   (ClientName (client_label id ideV combo))
                   (support_cells fl combo)) cs)
    = if jsstring_eq_dec id id0
      then map (fun combo =>
              mkTr [js "ide-group-row"; group_id id] None None (js "none")
                   (ClientName (client_label id ideV combo))
                   (support_cells fl combo)) cs
      else []).
  { intros ideV cs. induction cs as [|c cs IH];
      [now destruct (jsstring_eq_dec id id0)|].
    cbn [map filter tr_classList]. rewrite IH, member_classes_group.
    destruct (jsstring_eq_dec id id0) as [->|Hne].
    - now rewrite jseqb_refl.
    - assert (E : jseqb (group_id id0) (group_id id) = false).
      { apply jseqb_neq. intros E. apply group_id_inj in E. congruence. }
      now rewrite E. }
  destruct (obj_get g id) as [grp|];
    [|now destruct (jsstring_eq_dec id id0)].
  destruct (combos grp) as [|c [|c' cs]].
  - cbn [filter tr_classList map].
    rewrite (header_classes_group id0 false).
    now destruct (jsstring_eq_dec id id0).
  - cbn [filter tr_classList]. unfold has_class, includes. cbn [existsb].
    now destruct (jsstring_eq_dec id id0).
  - cbn [filter tr_classList]. rewrite (header_classes_group id0 false).
    apply Hm.
Qed.

Lemma render_group_header fl g id hdr groupId :
  In hdr (render_group fl g id) -> tr_data_group hdr = Some groupId ->
  groupId = group_id id /\
  exists grp, obj_get g id = Some grp /\
    (forall c, combos grp <> [c]) /\
    hdr = mkTr [js "ide-group-header"] (Some (group_id id)) (Some (group_id id))
               (js "")
               (IdeHeaderCell (length fl + 1) (Ide.name (group_ide grp))
                              (length (combos grp))) [].
Proof.
  unfold render_group. destruct (obj_get g id) as [grp|]; [|intros []].
  assert (Hm : forall cs,
    In hdr (map (fun combo =>
              mkTr [js "ide-group-row"; group_id id] None None (js "none")
                   (ClientName (client_label id (group_ide grp) combo))
                   (support_cells fl combo)) cs) ->
    tr_data_group hdr = Some groupId -> False).
  { intros cs Hin Hd. apply in_map_iff in Hin. destruct Hin as (c & <- & _).
    discriminate. }
  destruct (combos grp) as [|c [|c' cs]] eqn:E.
  - intros [<-|[]] Hd. injection Hd as <-. split; [reflexivity|].
    exists grp. rewrite E. repeat split. discriminate.
  - intros [<-|[]] Hd. discriminate.
  - intros [<-|Hin] Hd; [|destruct (Hm _ Hin Hd)].
    injection Hd as <-. split; [reflexivity|].
    exists grp. rewrite E. repeat split. discriminate.
Qed.

(** X15.  Every group header of the feature table, rendered for
    interface identifiers that name no inherited member, spans the whole
    table ([colspan] is the number of feature columns plus one), toggles its
    own group when clicked, has no support cell, and announces as its
    number of plugins the number of rows that carry the class of its
    group, which is at least two. *)
Theorem group_header_counts (localeCompare : jsstring -> jsstring -> Z)
    (w : World) (head : list HeaderCell) (body : list Tr)
    (hdr : Tr) (groupId : jsstring) :
  grouping_throws (eval getClientCombinations w) = false ->
  features_matrix (document (exec (renderFeaturesMatrix localeCompare) w))
  = FeaturesTable head body ->
  In hdr body -> tr_data_group hdr = Some groupId ->
  exists name n,
    tr_label hdr = IdeHeaderCell (S (length head)) name n /\
    n = length (members_of groupId body) /\ 2 <= n /\
    tr_onclick hdr = Some groupId /\ tr_cells hdr = [].
Proof.
  intros _. rewrite exec_renderFeaturesMatrix_view. intros Hv Hin Hd.
  destruct (features_view_table _ _ _ _ Hv) as (_ & -> & ->).
  set (cs := flat_map (combinations_of (aiClients w)) (obj_entries (ides w)))
    in *.
  set (fl := feature_list (features w)) in *.
  set (g := group_by_ide cs) in *.
  apply in_flat_map in Hin. destruct Hin as (id & Hid & Hin).
  destruct (render_group_header fl g id hdr groupId Hin Hd)
    as (-> & grp & Hg & Hne & ->).
  exists (Ide.name (group_ide grp)), (length (combos grp)).
  assert (Hcombos : combos grp = filter (of_interface id) cs).
  { pose proof (group_combos cs id) as H. fold g in H. now rewrite Hg in H. }
  assert (Hmem : members_of (group_id id)
                   (flat_map (render_group fl g) (sortedIdeIds localeCompare g))
                 = map (fun combo =>
                     mkTr [js "ide-group-row"; group_id id] None None
                          (js "none")
                          (ClientName (client_label id (group_ide grp) combo))
                          (support_cells fl combo)) (combos grp)).
  { unfold members_of. rewrite filter_flat_map.
    rewrite (flat_map_only jsstring_eq_dec _ id).
    - pose proof (render_group_members fl g id id) as H.
      unfold members_of in H. rewrite H, Hg.
      destruct (jsstring_eq_dec id id); [|contradiction].
      destruct (combos grp) as [|c [|c' l]]; try reflexivity.
      now destruct (Hne c).
    - apply sortedIdeIds_NoDup.
    - assumption.
    - intros y _ Hy. pose proof (render_group_members fl g y id) as H.
      unfold members_of in H. rewrite H.
      now destruct (jsstring_eq_dec y id). }
  rewrite Hmem, !length_map. cbn [tr_label tr_onclick tr_cells].
  rewrite Nat.add_1_r. repeat split.
  assert (Hc : exists c, In c cs /\ ideId c = id)
    by now apply (sortedIdeIds_In localeCompare).
  destruct Hc as (c & Hc & Hcid).
  assert (Hf : In c (combos grp)).
  { rewrite Hcombos. apply filter_In. split; [assumption|].
    unfold of_interface. rewrite Hcid. apply jseqb_refl. }
  destruct (combos grp) as [|c1 [|c2 l]]; [destruct Hf| |cbn; lia].
  now destruct (Hne c1).
Qed.

(** The header of Cursor on the sample page announces two plugins. *)
Lemma group_header_counts_witness :
  2 <= length (members_of (js "group-cursor") Sample.body).
Proof.
  destruct (group_header_counts Sample.compare_names Sample.loaded
              Sample.head Sample.body
              (nth 0 Sample.body (mkTr [] None None [] (ClientName []) []))
              (js "group-cursor"))
    as (name & n & _ & Hn & H2 & _).
  - vm_compute. reflexivity.
  - vm_compute. reflexivity.
  - vm_compute. now left.
  - vm_compute. reflexivity.
  - rewrite <- Hn. exact H2.
Defined.

(* ------------------------------------------------------------------ *)
(** ** What a toggle leaves alone *)

Lemma toggle_header_None groupId body :
  toggle_header groupId body = None <-> ~ In groupId (headers body).
Proof.
  split; [|intros H; now apply no_header_map].
  induction body as [|row body IH]; [intros _ []|].
  cbn [toggle_header]. unfold headers. cbn [flat_map].
  fold (headers body).
  destruct (is_group_header groupId row) eqn:E.
  - destruct (classList_toggle (js "expanded") (tr_classList row)).
    discriminate.
  - destruct (toggle_header groupId body) as [[toggled isExpanded]|];
      [discriminate|].
    intros _ Hin. apply in_app_or in Hin. destruct Hin as [Hin|Hin].
    + unfold is_group_header in E.
      destruct (tr_data_group row) as [g|]; [|destruct Hin].
      destruct Hin as [->|[]]. rewrite jseqb_refl in E. discriminate.
    + now apply IH.
Qed.

Lemma toggleGroup_frame groupId w w' :
  toggleGroup groupId w = Some w' ->
  w' = set_features_matrix (features_matrix (document w')) w.
Proof.
  unfold toggleGroup.
  destruct (features_matrix (document w)) as [| |head body]; try discriminate.
  destruct (toggle_rows groupId body); [|discriminate].
  intros H. injection H as <-. reflexivity.
Qed.

Lemma set_features_matrix_same w :
  set_features_matrix (features_matrix (document w)) w = w.
Proof. destruct w as [i a f c l d]. now destruct d. Qed.

Lemma set_features_matrix_twice v v' w :
  set_features_matrix v (set_features_matrix v' w) = set_features_matrix v w.
Proof. reflexivity. Qed.

Lemma toggle_groups_frame clicks : forall w,
  toggle_groups clicks w
  = set_features_matrix (features_matrix (document (toggle_groups clicks w))) w.
Proof.
  induction clicks as [|g clicks IH]; intros w.
  - cbn. now rewrite set_features_matrix_same.
  - cbn [toggle_groups fold_left]. fold (toggle_groups clicks).
    destruct (toggleGroup g w) as [w'|] eqn:E; [|apply IH].
    rewrite (IH w') at 1. rewrite (toggleGroup_frame g w w' E) at 2.
    apply set_features_matrix_twice.
Qed.

(** X16.  [toggleGroup] throws exactly when no row of the feature table
    carries the group identifier in [data-group], in particular when the
    feature view is a placeholder; when it returns it has changed nothing
    but rows of the feature table: the data, the console, the plugin view,
    the overlay and every support icon are as before. *)
Theorem toggleGroup_throws_without_header (groupId : jsstring) (w : World) :
  (toggleGroup groupId w = None
   <-> forall head body,
         features_matrix (document w) = FeaturesTable head body ->
         ~ In groupId (headers body)) /\
  (forall w', toggleGroup groupId w = Some w' ->
     ides w' = ides w /\ aiClients w' = aiClients w /\
     features w' = features w /\ changelog w' = changelog w /\
     console w' = console w /\
     plugins_matrix (document w') = plugins_matrix (document w) /\
     source_modal (document w') = source_modal (document w) /\
     keydown_listeners (document w') = keydown_listeners (document w) /\
     all_spans (document w') = all_spans (document w)).
Proof.
  split.
  - unfold toggleGroup, toggle_rows.
    destruct (features_matrix (document w)) as [| |head body].
    + split; [discriminate|reflexivity].
    + split; [discriminate|reflexivity].
    + pose proof (toggle_header_None groupId body) as H.
      destruct (toggle_header groupId body) as [[toggled isExpanded]|].
      * split; [discriminate|]. intros Hn. exfalso.
        assert (Hc : ~ ~ In groupId (headers body)).
        { intros Hc. apply H in Hc. discriminate. }
        apply Hc. now apply (Hn head body).
      * split; [|reflexivity]. intros _ head' body' E.
        injection E as _ <-. now apply H.
  - intros w' H. pose proof (toggleGroup_spans _ _ _ H) as Hs.
    rewrite (toggleGroup_frame _ _ _ H). rewrite <- (toggleGroup_frame _ _ _ H).
    rewrite (toggleGroup_frame _ _ _ H) at 1 2 3 4 5 6 7 8.
    repeat split. exact Hs.
Qed.

(** On the sample page the header of Cursor exists and toggling it
    leaves the plugin view alone. *)
Lemma toggleGroup_throws_without_header_witness :
  exists w', toggleGroup (js "group-cursor") Sample.page = Some w' /\
    plugins_matrix (document w') = plugins_matrix (document Sample.page).
Proof.
  destruct (toggleGroup (js "group-cursor") Sample.page) as [w'|] eqn:E;
    [|vm_compute in E; discriminate].
  exists w'. split; [reflexivity|].
  now destruct (proj2 (toggleGroup_throws_without_header (js "group-cursor")
                         Sample.page) w' E)
    as (_ & _ & _ & _ & _ & H & _).
Defined.

Lemma after_clicks_parity clicks clicks' row :
  (forall g, Nat.odd (clicks_on g clicks) = Nat.odd (clicks_on g clicks')) ->
  after_clicks clicks row = after_clicks clicks' row.
Proof.
  intros H. unfold after_clicks.
  destruct (tr_data_group row) as [g|]; [now rewrite H|].
  destruct (tr_classList row) as [|c1 [|c2 [|c3 l]]]; try reflexivity.
  now rewrite H.
Qed.

(** X17.  On the feature table rendered for interface identifiers that
    name no inherited member, the whole state of the program
    after a run of [toggleGroup] calls depends only on whether each group
    was toggled an odd or an even number of times: toggles of different
    groups commute, and toggling a group twice restores the page exactly. *)
Theorem toggles_depend_on_parity (localeCompare : jsstring -> jsstring -> Z)
    (w : World) (clicks clicks' : list jsstring) :
  grouping_throws (eval getClientCombinations w) = false ->
  (forall g, Nat.odd (clicks_on g clicks) = Nat.odd (clicks_on g clicks')) ->
  toggle_groups clicks (exec (renderFeaturesMatrix localeCompare) w)
  = toggle_groups clicks' (exec (renderFeaturesMatrix localeCompare) w).
Proof.
  intros _ Hpar. set (w0 := exec (renderFeaturesMatrix localeCompare) w).
  rewrite (toggle_groups_frame clicks w0), (toggle_groups_frame clicks' w0).
  f_equal.
  destruct (features_matrix (document w0)) as [| |head body0] eqn:Ev.
  - assert (H : forall cl, toggle_groups cl w0 = w0).
    { induction cl as [|g cl IH]; [reflexivity|].
      cbn [toggle_groups fold_left]. fold (toggle_groups cl).
      destruct (toggleGroup g w0) eqn:E; [|exact IH].
      unfold toggleGroup in E. rewrite Ev in E. discriminate. }
    now rewrite !H.
  - assert (H : forall cl, toggle_groups cl w0 = w0).
    { induction cl as [|g cl IH]; [reflexivity|].
      cbn [toggle_groups fold_left]. fold (toggle_groups cl).
      destruct (toggleGroup g w0) eqn:E; [|exact IH].
      unfold toggleGroup in E. rewrite Ev in E. discriminate. }
    now rewrite !H.
  - destruct (rendered_table _ _ _ _ Ev) as (Hnd & Hrows & Hg).
    assert (H0 : features_matrix (document w0)
                 = FeaturesTable head (map (after_clicks []) body0)).
    { rewrite Ev. f_equal. symmetry.
      now apply (map_after_no_clicks (headers body0)). }
    rewrite (toggle_groups_closed head body0 Hnd Hrows Hg clicks [] w0 H0).
    rewrite (toggle_groups_closed head body0 Hnd Hrows Hg clicks' [] w0 H0).
    f_equal. apply map_ext. intros row. now apply after_clicks_parity.
Qed.

(** Cursor toggled twice around a toggle of VS Code, and VS Code toggled
    once. *)
Lemma toggles_depend_on_parity_witness :
  toggle_groups [js "group-cursor"; js "group-vscode"; js "group-cursor"]
    (exec (renderFeaturesMatrix Sample.compare_names) Sample.loaded)
  = toggle_groups [js "group-vscode"]
      (exec (renderFeaturesMatrix Sample.compare_names) Sample.loaded).
Proof.
  apply (toggles_depend_on_parity Sample.compare_names Sample.loaded);
    [vm_compute; reflexivity|].
  intros g. unfold clicks_on. cbn [count_occ].
  destruct (jsstring_eq_dec (js "group-cursor") g);
    destruct (jsstring_eq_dec (js "group-vscode") g); reflexivity.
Defined.

(* ------------------------------------------------------------------ *)
(** ** The rendered row groups *)

Section RenderedGroups.

Variable localeCompare : jsstring -> jsstring -> Z.

Hypothesis localeCompare_antisym :
  forall a b, (localeCompare a b < 0 <-> 0 < localeCompare b a)%Z.
Hypothesis localeCompare_trans :
  forall a b c, (localeCompare a b <= 0 -> localeCompare b c <= 0 ->
                 localeCompare a c <= 0)%Z.

(** C4.  With [localeCompare] a consistent comparison of names, in a
    state with at least one combination and one feature, whose interface
    identifiers name no inherited member, [renderFeaturesMatrix] leaves a
    table in [#features-matrix] whose row groups, read from top to bottom
    by the names that head them, are the interfaces with at least one
    combination, each once, in this order: the count of a group is the
    number of combinations of its interface and its name is the name of
    that interface; a group that comes before another has at least its
    count and, at equal counts, a name that does not compare after the
    other's.  So a group with a greater count, or with the same count and
    a name that compares before, comes first. *)
Theorem row_groups_sorted (w : World) :
  let cs := eval getClientCombinations w in
  let count id := group_size (group_by_ide cs) id in
  let name id := group_name (group_by_ide cs) id in
  cs <> [] -> obj_keys (features w) <> [] -> grouping_throws cs = false ->
  exists head body sorted,
    features_matrix (document (exec (renderFeaturesMatrix localeCompare) w))
    = FeaturesTable head body /\
    flat_map leader body = map name sorted /\
    NoDup sorted /\
    (forall id, In id sorted <-> exists c, In c cs /\ ideId c = id) /\
    (forall id, count id = Z.of_nat (length (filter (of_interface id) cs))) /\
    (forall id c l, filter (of_interface id) cs = c :: l ->
       name id = Ide.name (ide c)) /\
    (forall l1 a l2 b l3, sorted = l1 ++ a :: l2 ++ b :: l3 ->
       (count b <= count a)%Z /\
       (count a = count b -> (localeCompare (name a) (name b) <= 0)%Z)) /\
    (forall a b, In a sorted -> In b sorted ->
       (count b < count a)%Z \/
       (count a = count b /\ (localeCompare (name a) (name b) < 0)%Z) ->
       exists l1 l2 l3, sorted = l1 ++ a :: l2 ++ b :: l3).
Proof.
  cbv zeta. unfold eval. rewrite getClientCombinations_eq. cbn [fst].
  set (cs := flat_map (combinations_of (aiClients w)) (obj_entries (ides w))).
  intros Hcs Hfs _.
  destruct (sortedIdeIds_spec localeCompare localeCompare_antisym
              localeCompare_trans cs) as (_ & Hnd & Hin & Hcount & Hord & Hfirst & Hlead).
  cbv zeta in *.
  exists (map header_cell (feature_list (features w))),
         (flat_map (render_group (feature_list (features w)) (group_by_ide cs))
                   (sortedIdeIds localeCompare (group_by_ide cs))),
         (sortedIdeIds localeCompare (group_by_ide cs)).
  split.
  { rewrite exec_renderFeaturesMatrix_view. unfold features_view. fold cs.
    destruct cs as [|c cs']; [contradiction|].
    destruct (obj_keys (features w)); [contradiction|]. reflexivity. }
  split; [apply Hlead|].
  split; [assumption|]. split; [assumption|]. split; [assumption|].
  split; [|split; assumption].
  intros id c l E. unfold group_name.
  rewrite (proj2 (group_by_ide_spec cs)). unfold group_spec. now rewrite E.
Qed.

End RenderedGroups.

(** On the sample site Cursor and VS Code have two combinations each, and
    the group of Cursor is rendered before the group of VS Code. *)
Lemma row_groups_sorted_witness :
  exists head body sorted l1 l2 l3,
    features_matrix
      (document (exec (renderFeaturesMatrix Sample.compare_names) Sample.loaded))
    = FeaturesTable head body /\
    flat_map leader body
    = map (group_name (group_by_ide (eval getClientCombinations Sample.loaded)))
          sorted /\
    sorted = l1 ++ js "cursor" :: l2 ++ js "vscode" :: l3.
Proof.
  assert (Hanti : forall a b,
    (Sample.compare_names a b < 0 <-> 0 < Sample.compare_names b a)%Z)
    by (intros a b; unfold Sample.compare_names; lia).
  assert (Htrans : forall a b c,
    (Sample.compare_names a b <= 0 -> Sample.compare_names b c <= 0 ->
     Sample.compare_names a c <= 0)%Z)
    by (intros a b c; unfold Sample.compare_names; lia).
  destruct (row_groups_sorted Sample.compare_names Hanti Htrans Sample.loaded)
    as (head & body & sorted & Hv & Hl & _ & Hin & _ & _ & _ & Hfirst).
  - vm_compute. discriminate.
  - vm_compute. discriminate.
  - vm_compute. reflexivity.
  - destruct (Hfirst (js "cursor") (js "vscode")) as (l1 & l2 & l3 & E).
    + apply Hin. exists (nth 2 (eval getClientCombinations Sample.loaded)
                              (mkCombination [] Sample.cursor [] (Inherited []) [])).
      split; [vm_compute; auto|vm_compute; reflexivity].
    + apply Hin. exists (nth 0 (eval getClientCombinations Sample.loaded)
                              (mkCombination [] Sample.cursor [] (Inherited []) [])).
      split; [vm_compute; auto|vm_compute; reflexivity].
    + right. split; vm_compute; reflexivity.
    + exists head, body, sorted, l1, l2, l3. repeat split; assumption.
Defined.

(* ------------------------------------------------------------------ *)
(** ** Feature identifiers that find no feature *)




(* ------------------------------------------------------------------ *)
(** ** What the page shows of a partly failed load *)







(* ------------------------------------------------------------------ *)
(** ** The feature table under events *)

Lemma imap_from_map_comm {A} (F : nat -> A -> A) (G : A -> A) l :
  (forall r x, F r (G x) = G (F r x)) ->
  forall i, imap_from i F (map G l) = map G (imap_from i F l).
Proof.
  intros H. induction l as [|x l IH]; intros i; [reflexivity|].
  cbn [map imap_from]. now rewrite H, IH.
Qed.

Lemma after_clicks_cells clicks cells row :
  after_clicks clicks (set_tr_cells cells row)
  = set_tr_cells cells (after_clicks clicks row).
Proof.
  destruct row as [cl dg oc disp lbl cs]. unfold after_clicks.
  cbn [tr_data_group tr_classList set_tr_cells tr_onclick tr_display tr_label].
  destruct dg; [reflexivity|].
  destruct cl as [|c1 [|c2 [|c3 l]]]; reflexivity.
Qed.

Lemma after_clicks_tr_cells clicks row :
  tr_cells (after_clicks clicks row) = tr_cells row.
Proof.
  destruct row as [cl dg oc disp lbl cs]. unfold after_clicks.
  cbn [tr_data_group tr_classList].
  destruct dg; [reflexivity|].
  destruct cl as [|c1 [|c2 [|c3 l]]]; reflexivity.
Qed.

Lemma map_table_spans_after t f clicks body :
  map_table_spans t f (map (after_clicks clicks) body)
  = map (after_clicks clicks) (map_table_spans t f body).
Proof.
  unfold map_table_spans. apply imap_from_map_comm. intros r row.
  now rewrite after_clicks_tr_cells, after_clicks_cells.
Qed.

Lemma imap_from_map_out {A B C} (h : B -> C) (F : nat -> A -> B)
    (g : A -> C) l :
  (forall r x, h (F r x) = g x) ->
  forall i, map h (imap_from i F l) = map g l.
Proof.
  intros H. induction l as [|x l IH]; intros i; [reflexivity|].
  cbn [map imap_from]. now rewrite H, IH.
Qed.

Lemma headers_map_table_spans t f body :
  headers (map_table_spans t f body) = headers body.
Proof.
  unfold headers, map_table_spans.
  rewrite !flat_map_concat_map. f_equal.
  apply imap_from_map_out. intros r row. now destruct row.
Qed.

Lemma rendered_row_cells hs cells row :
  rendered_row hs row -> rendered_row hs (set_tr_cells cells row).
Proof.
  destruct row as [cl dg oc disp lbl cs].
  intros [Hd Hc|id Hd Hc|id Hi Hd Hc Hdisp].
  - now apply plain_row.
  - now apply (header_row _ _ id).
  - now apply (member_row _ _ id).
Qed.

Lemma imap_from_Forall {A B} (P : A -> Prop) (Q : B -> Prop)
    (F : nat -> A -> B) l :
  (forall r x, P x -> Q (F r x)) -> Forall P l ->
  forall i, Forall Q (imap_from i F l).
Proof.
  intros H. induction 1 as [|x l Hx _ IH]; intros i; cbn [imap_from];
    constructor; auto.
Qed.

Lemma toggled_view_map_spans f head body :
  toggled_view (FeaturesTable head body) ->
  toggled_view (FeaturesTable head (map_table_spans FeatureMatrix f body)).
Proof.
  intros (body0 & clicks & Hnd & Hrows & Hg & ->).
  exists (map_table_spans FeatureMatrix f body0), clicks.
  rewrite headers_map_table_spans. repeat split; try assumption.
  - unfold map_table_spans.
    apply (imap_from_Forall (rendered_row (headers body0))); [|assumption].
    intros r row. apply rendered_row_cells.
  - apply map_table_spans_after.
Qed.

Lemma features_matrix_map_spans f d :
  features_matrix (map_spans f d)
  = match features_matrix d with
    | FeaturesTable head body =>
        FeaturesTable head (map_table_spans FeatureMatrix f body)
    | v => v
    end.
Proof. reflexivity. Qed.

Lemma toggled_view_spans f d :
  toggled_view (features_matrix d) ->
  toggled_view (features_matrix (map_spans f d)).
Proof.
  rewrite features_matrix_map_spans.
  destruct (features_matrix d); auto. apply toggled_view_map_spans.
Qed.

Lemma toggled_view_toggle groupId w w' :
  toggleGroup groupId w = Some w' ->
  toggled_view (features_matrix (document w)) ->
  toggled_view (features_matrix (document w')).
Proof.
  intros Ht Hv.
  destruct (features_matrix (document w)) as [| |head body] eqn:Ev;
    try (unfold toggleGroup in Ht; rewrite Ev in Ht; discriminate).
  destruct Hv as (body0 & clicks & Hnd & Hrows & Hg & ->).
  pose proof (toggle_groups_closed head body0 Hnd Hrows Hg [groupId] clicks w Ev)
    as H.
  cbn [toggle_groups fold_left] in H. rewrite Ht in H. rewrite H.
  exists body0, (clicks ++ [groupId]). repeat split; assumption.
Qed.

Lemma row_click_view t r w :
  toggled_view (features_matrix (document w)) ->
  toggled_view (features_matrix (document (exec (row_click t r) w))).
Proof.
  intros Hv. unfold row_click. rewrite exec_gets.
  destruct (nth_error (rows_of t (document w)) r) as [row|]; [|exact Hv].
  destruct (tr_onclick row) as [groupId|]; [|exact Hv].
  unfold exec, modify. cbn [snd].
  destruct (toggleGroup groupId w) as [w'|] eqn:E; [|exact Hv].
  now apply (toggled_view_toggle groupId w w').
Qed.

Lemma showSourceModal_views element w :
  features_matrix (document (exec (showSourceModal element) w))
  = features_matrix (document w) /\
  plugins_matrix (document (exec (showSourceModal element) w))
  = plugins_matrix (document w).
Proof.
  unfold exec, showSourceModal, bind, gets.
  destruct (obj_lookup (features w) (to_key (data_feature_id element)));
    [|split; reflexivity].
  destruct (source_modal (document w)); split; reflexivity.
Qed.

Lemma closeSourceModal_views w :
  features_matrix (document (exec closeSourceModal w))
  = features_matrix (document w) /\
  plugins_matrix (document (exec closeSourceModal w))
  = plugins_matrix (document w).
Proof.
  unfold exec, closeSourceModal, bind, gets.
  now destruct (source_modal (document w)).
Qed.

Lemma keydown_views k n u w :
  features_matrix (document (exec (for_of (repeat tt n) (fun _ _ =>
     if jseqb k (js "Escape") then closeSourceModal else ret tt) u) w))
  = features_matrix (document w).
Proof.
  revert u w. induction n as [|n IH]; intros u w; [reflexivity|].
  cbn [repeat for_of]. rewrite exec_bind, IH.
  destruct (jseqb k (js "Escape")); [apply closeSourceModal_views|reflexivity].
Qed.

Lemma document_click_view w :
  toggled_view (features_matrix (document w)) ->
  toggled_view (features_matrix (document (exec document_click w))).
Proof. intros H. now apply toggled_view_spans. Qed.

Lemma toggleNote_view l w :
  toggled_view (features_matrix (document w)) ->
  toggled_view (features_matrix (document (exec (toggleNote l) w))).
Proof.
  intros H. unfold exec. rewrite toggleNote_eq. cbn [snd].
  cbn [document set_document]. now apply toggled_view_spans, toggled_view_spans.
Qed.

Lemma dispatch_view e w :
  toggled_view (features_matrix (document w)) ->
  toggled_view (features_matrix (document (exec (dispatch e) w))).
Proof.
  intros Hv. destruct e as [[l|t r| | | |]|k]; cbn [dispatch].
  - rewrite exec_gets.
    destruct (span_at l (document w)) as [el|]; [|exact Hv].
    rewrite exec_bind. unfold icon_click.
    destruct (onclick el) as [[|]|].
    + destruct (showSourceModal_spans el w) as [Hs _]. unfold eval.
      rewrite Hs. cbn [exec ret snd].
      now rewrite (proj1 (showSourceModal_views el w)).
    + unfold eval. rewrite toggleNote_eq. cbn [fst].
      change (exec (ret tt) ?x) with x. now apply toggleNote_view.
    + cbn [eval ret fst]. destruct l as [[t r] c]. rewrite exec_bind.
      now apply document_click_view, row_click_view.
  - rewrite exec_bind. now apply document_click_view, row_click_view.
  - rewrite exec_bind. apply document_click_view.
    now rewrite (proj1 (closeSourceModal_views w)).
  - rewrite exec_bind. apply document_click_view.
    now rewrite (proj1 (closeSourceModal_views w)).
  - now apply document_click_view.
  - now apply document_click_view.
  - rewrite exec_gets. now rewrite keydown_views.
Qed.

Lemma run_events_view es : forall w,
  toggled_view (features_matrix (document w)) ->
  toggled_view (features_matrix (document (run_events es w))).
Proof.
  induction es as [|e es IH]; intros w Hv; [exact Hv|].
  cbn [run_events fold_left]. apply IH. now apply dispatch_view.
Qed.

Lemma features_view_toggled lc w : toggled_view (features_view lc w).
Proof.
  destruct (features_view lc w) as [| |head body] eqn:Ev; try exact I.
  assert (Hr : features_matrix (document (exec (renderFeaturesMatrix lc) w))
               = FeaturesTable head body)
    by now rewrite exec_renderFeaturesMatrix_view.
  destruct (rendered_table _ _ _ _ Hr) as (Hnd & Hrows & Hg).
  exists body, []. repeat split; try assumption.
  symmetry. now apply (map_after_no_clicks (headers body)).
Qed.

Lemma init_view lc net sched :
  toggled_view (features_matrix
                  (document (init lc net sched initial_world))).
Proof.
  unfold init. destruct (load_complete _).
  - rewrite render_all_features. apply features_view_toggled.
  - pose proof (fold_settle_document net sched (start initial_world)) as H.
    unfold loadAllData. rewrite H. exact I.
Qed.

(** X18.  Whatever the user does on the loaded page, clicking icons,
    rows and the overlay or pressing keys, the [expanded] flag of every
    group header and the display of the rows of its group agree: the rows
    are shown when the header is expanded and hidden when it is not. *)
Theorem groups_stay_consistent (localeCompare : jsstring -> jsstring -> Z)
    (net : Network) (schedule : list Task) (events : list Event)
    (head : list HeaderCell) (body : list Tr) (hdr row : Tr)
    (groupId : jsstring) :
  features_matrix
    (document (run_events events
                 (init localeCompare net schedule initial_world)))
  = FeaturesTable head body ->
  In hdr body -> tr_data_group hdr = Some groupId ->
  In row body -> has_class groupId (tr_classList row) = true ->
  tr_display row
  = display_for (has_class (js "expanded") (tr_classList hdr)).
Proof.
  intros Hv Hhdr Hd Hrow Hc.
  pose proof (run_events_view events _
                (init_view localeCompare net schedule)) as Ht.
  rewrite Hv in Ht. destruct Ht as (body0 & clicks & Hnd & Hrows & Hg & ->).
  rewrite Forall_forall in Hrows.
  apply in_map_iff in Hhdr. destruct Hhdr as (hdr0 & <- & Hhdr0).
  apply in_map_iff in Hrow. destruct Hrow as (row0 & <- & Hrow0).
  rewrite after_clicks_data_group in Hd.
  assert (Hid : exists id, groupId = group_id id).
  { apply Hg. unfold headers. apply in_flat_map. exists hdr0.
    rewrite Hd. split; [assumption|now left]. }
  destruct Hid as (id & ->).
  rewrite (header_after_clicks (headers body0) clicks hdr0 (group_id id))
    by auto.
  rewrite (after_clicks_classes (headers body0)) in Hc by auto.
  apply (after_clicks_display (headers body0)); auto.
Qed.

(** After a click on the header of Cursor its first client row is shown. *)
Lemma groups_stay_consistent_witness :
  let body :=
    match features_matrix (document
            (run_events [Click (OnRow FeatureMatrix 0)] Sample.page)) with
    | FeaturesTable _ body => body
    | _ => []
    end in
  tr_display (nth 1 body (mkTr [] None None [] (ClientName []) [])) = js "".
Proof.
  cbv zeta.
  rewrite (groups_stay_consistent Sample.compare_names Sample.network
             started_tasks [Click (OnRow FeatureMatrix 0)] Sample.head
             match features_matrix (document
                     (run_events [Click (OnRow FeatureMatrix 0)]
                                 Sample.page)) with
             | FeaturesTable _ body => body
             | _ => []
             end
             (nth 0 match features_matrix (document
                     (run_events [Click (OnRow FeatureMatrix 0)]
                                 Sample.page)) with
                    | FeaturesTable _ body => body
                    | _ => []
                    end (mkTr [] None None [] (ClientName []) []))
             _ (js "group-cursor")).
  - vm_compute. reflexivity.
  - vm_compute. reflexivity.
  - vm_compute. now left.
  - vm_compute. reflexivity.
  - vm_compute. right. now left.
  - vm_compute. reflexivity.
Defined.

(* ------------------------------------------------------------------ *)
(** ** The overlay under events *)

Lemma overlay_ok_same d d' :
  source_modal d' = source_modal d ->
  keydown_listeners d' = keydown_listeners d ->
  overlay_ok d -> overlay_ok d'.
Proof. unfold overlay_ok. now intros -> ->. Qed.

Lemma showSourceModal_overlay element w :
  overlay_ok (document w) ->
  overlay_ok (document (exec (showSourceModal element) w)).
Proof.
  unfold overlay_ok, exec, showSourceModal, bind, gets.
  destruct (obj_lookup (features w) (to_key (data_feature_id element)));
    [|intros H; exact H].
  destruct (source_modal (document w)); cbn; intros H; [exact H|].
  now rewrite H.
Qed.

Lemma closeSourceModal_overlay w :
  overlay_ok (document w) -> overlay_ok (document (exec closeSourceModal w)).
Proof.
  unfold overlay_ok, exec, closeSourceModal, bind, gets.
  destruct (source_modal (document w)) eqn:E; cbn; intros H;
    rewrite ?E; exact H.
Qed.

Lemma row_click_overlay t r w :
  source_modal (document (exec (row_click t r) w)) = source_modal (document w) /\
  keydown_listeners (document (exec (row_click t r) w))
  = keydown_listeners (document w).
Proof.
  unfold row_click. rewrite exec_gets.
  destruct (nth_error (rows_of t (document w)) r) as [row|];
    [|split; reflexivity].
  destruct (tr_onclick row) as [groupId|]; [|split; reflexivity].
  unfold exec, modify. cbn [snd].
  destruct (toggleGroup groupId w) as [w'|] eqn:E; [|split; reflexivity].
  rewrite (toggleGroup_frame _ _ _ E). split; reflexivity.
Qed.

Lemma keydown_overlay k n u w :
  overlay_ok (document w) ->
  overlay_ok (document (exec (for_of (repeat tt n) (fun _ _ =>
     if jseqb k (js "Escape") then closeSourceModal else ret tt) u) w)).
Proof.
  revert u w. induction n as [|n IH]; intros u w H; [exact H|].
  cbn [repeat for_of]. rewrite exec_bind. apply IH.
  destruct (jseqb k (js "Escape")); [now apply closeSourceModal_overlay|exact H].
Qed.

Lemma dispatch_overlay e w :
  overlay_ok (document w) -> overlay_ok (document (exec (dispatch e) w)).
Proof.
  intros Hv. destruct e as [[l|t r| | | |]|k]; cbn [dispatch].
  - rewrite exec_gets.
    destruct (span_at l (document w)) as [el|]; [|exact Hv].
    rewrite exec_bind. unfold icon_click.
    destruct (onclick el) as [[|]|].
    + destruct (showSourceModal_spans el w) as [Hs _]. unfold eval.
      rewrite Hs. cbn [exec ret snd]. now apply showSourceModal_overlay.
    + unfold eval. rewrite toggleNote_eq. cbn [fst].
      change (exec (ret tt) ?x) with x. exact Hv.
    + cbn [eval ret fst]. destruct l as [[t r] c]. rewrite exec_bind.
      destruct (row_click_overlay t r w) as [H1 H2].
      apply (overlay_ok_same (document w)); [exact H1|exact H2|exact Hv].
  - rewrite exec_bind. destruct (row_click_overlay t r w) as [H1 H2].
    apply (overlay_ok_same (document w)); [exact H1|exact H2|exact Hv].
  - rewrite exec_bind.
    apply (overlay_ok_same (document (exec closeSourceModal w)));
      [reflexivity|reflexivity|now apply closeSourceModal_overlay].
  - rewrite exec_bind.
    apply (overlay_ok_same (document (exec closeSourceModal w)));
      [reflexivity|reflexivity|now apply closeSourceModal_overlay].
  - exact Hv.
  - exact Hv.
  - rewrite exec_gets. now apply keydown_overlay.
Qed.

Lemma run_events_overlay es : forall w,
  overlay_ok (document w) -> overlay_ok (document (run_events es w)).
Proof.
  induction es as [|e es IH]; intros w Hv; [exact Hv|].
  cbn [run_events fold_left]. apply IH. now apply dispatch_overlay.
Qed.

Lemma render_all_overlay lc w :
  source_modal (document (exec (render_all lc) w)) = source_modal (document w) /\
  keydown_listeners (document (exec (render_all lc) w))
  = keydown_listeners (document w).
Proof.
  unfold render_all. rewrite exec_bind, renderFeaturesMatrix_eq.
  rewrite renderPluginsMatrix_view. split; reflexivity.
Qed.

Lemma init_overlay lc net sched :
  overlay_ok (document (init lc net sched initial_world)).
Proof.
  unfold init. destruct (load_complete _).
  - destruct (render_all_overlay lc (world (loadAllData net sched initial_world)))
      as [H1 H2].
    apply (overlay_ok_same
             (document (world (loadAllData net sched initial_world))));
      [exact H1|exact H2|].
    unfold loadAllData. rewrite fold_settle_document. reflexivity.
  - unfold loadAllData. rewrite fold_settle_document. reflexivity.
Qed.

Lemma showSourceModal_keeps_overlay element w :
  (exists modal, source_modal (document w) = Some modal) ->
  exists modal,
    source_modal (document (exec (showSourceModal element) w)) = Some modal.
Proof.
  intros (m & Hm). unfold exec, showSourceModal, bind, gets.
  destruct (obj_lookup (features w) (to_key (data_feature_id element)));
    [|cbn; eauto].
  rewrite Hm. cbn. eauto.
Qed.

Lemma closeSourceModal_keeps_overlay w :
  (exists modal, source_modal (document w) = Some modal) ->
  exists modal, source_modal (document (exec closeSourceModal w)) = Some modal.
Proof.
  intros (m & Hm). unfold exec, closeSourceModal, bind, gets.
  rewrite Hm. cbn. eauto.
Qed.

Lemma keydown_keeps_overlay k n u w :
  (exists modal, source_modal (document w) = Some modal) ->
  exists modal,
    source_modal (document (exec (for_of (repeat tt n) (fun _ _ =>
      if jseqb k (js "Escape") then closeSourceModal else ret tt) u) w))
    = Some modal.
Proof.
  revert u w. induction n as [|n IH]; intros u w H; [exact H|].
  cbn [repeat for_of]. rewrite exec_bind. apply IH.
  destruct (jseqb k (js "Escape"));
    [now apply closeSourceModal_keeps_overlay|exact H].
Qed.

Lemma dispatch_keeps_overlay e w :
  (exists modal, source_modal (document w) = Some modal) ->
  exists modal, source_modal (document (exec (dispatch e) w)) = Some modal.
Proof.
  intros Hv. destruct e as [[l|t r| | | |]|k]; cbn [dispatch].
  - rewrite exec_gets.
    destruct (span_at l (document w)) as [el|]; [|exact Hv].
    rewrite exec_bind. unfold icon_click.
    destruct (onclick el) as [[|]|].
    + destruct (showSourceModal_spans el w) as [Hs _]. unfold eval.
      rewrite Hs. cbn [exec ret snd]. now apply showSourceModal_keeps_overlay.
    + unfold eval. rewrite toggleNote_eq. cbn [fst].
      change (exec (ret tt) ?x) with x. exact Hv.
    + cbn [eval ret fst]. destruct l as [[t r] c]. rewrite exec_bind.
      destruct (row_click_overlay t r w) as [H1 _].
      destruct Hv as (m & Hm). exists m. rewrite <- Hm, <- H1. reflexivity.
  - rewrite exec_bind. destruct (row_click_overlay t r w) as [H1 _].
    destruct Hv as (m & Hm). exists m. rewrite <- Hm, <- H1. reflexivity.
  - rewrite exec_bind. now apply closeSourceModal_keeps_overlay.
  - rewrite exec_bind. now apply closeSourceModal_keeps_overlay.
  - exact Hv.
  - exact Hv.
  - rewrite exec_gets. now apply keydown_keeps_overlay.
Qed.

(** X19.  The overlay and its [keydown] listener are created together and
    at most once: in every state reached from the loaded page at most one
    listener is registered, one is registered exactly when the overlay
    element exists, and no event removes the element once it exists. *)
Theorem overlay_created_once (localeCompare : jsstring -> jsstring -> Z)
    (net : Network) (schedule : list Task) (events : list Event) :
  let w := run_events events (init localeCompare net schedule initial_world) in
  keydown_listeners (document w) <= 1 /\
  (keydown_listeners (document w) = 1
   <-> exists modal, source_modal (document w) = Some modal) /\
  (forall e,
     (exists modal, source_modal (document w) = Some modal) ->
     exists modal, source_modal (document (exec (dispatch e) w)) = Some modal).
Proof.
  cbv zeta.
  pose proof (run_events_overlay events _
                (init_overlay localeCompare net schedule)) as H.
  unfold overlay_ok in H. rewrite H.
  destruct (source_modal (document (run_events events _))) as [m|] eqn:E.
  - split; [apply le_n|]. split; [split; eauto|].
    intros e _. apply dispatch_keeps_overlay. eauto.
  - split; [apply Nat.le_0_l|]. split.
    + split; [discriminate|]. intros (m & Hm). discriminate.
    + intros e (m & Hm). discriminate.
Qed.

Lemma keydown_other k n u w :
  jseqb k (js "Escape") = false ->
  exec (for_of (repeat tt n) (fun _ _ =>
     if jseqb k (js "Escape") then closeSourceModal else ret tt) u) w = w.
Proof.
  intros Hk. revert u w. induction n as [|n IH]; intros u w; [reflexivity|].
  cbn [repeat for_of]. rewrite exec_bind, IH. now rewrite Hk.
Qed.

Lemma closeSourceModal_absent w :
  source_modal (document w) = None -> exec closeSourceModal w = w.
Proof.
  intros H. unfold exec, closeSourceModal, bind, gets. now rewrite H.
Qed.

Lemma closeSourceModal_inactive w modal :
  source_modal (document (exec closeSourceModal w)) = Some modal ->
  modal_active modal = false.
Proof.
  unfold exec, closeSourceModal, bind, gets.
  destruct (source_modal (document w)) as [m|] eqn:E; cbn.
  - intros H. injection H as <-. reflexivity.
  - rewrite E. discriminate.
Qed.

(** X20.  In every state reached from the loaded page a key press other
    than Escape changes nothing, and Escape does what [closeSourceModal]
    does, once: afterwards no overlay is active, and the two matrices and
    the data are untouched.  Before the overlay was first opened no
    listener exists and Escape changes nothing either. *)
Theorem escape_closes_overlay (localeCompare : jsstring -> jsstring -> Z)
    (net : Network) (schedule : list Task) (events : list Event)
    (k : jsstring) :
  let w := run_events events (init localeCompare net schedule initial_world) in
  let w' := exec (dispatch (KeyDown k)) w in
  w' = (if jseqb k (js "Escape") then exec closeSourceModal w else w) /\
  (k = js "Escape" ->
   forall modal, source_modal (document w') = Some modal ->
     modal_active modal = false) /\
  (source_modal (document w) = None -> w' = w) /\
  features_matrix (document w') = features_matrix (document w) /\
  plugins_matrix (document w') = plugins_matrix (document w) /\
  features w' = features w /\ console w' = console w.
Proof.
  cbv zeta.
  set (w := run_events events (init localeCompare net schedule initial_world)).
  pose proof (run_events_overlay events _
                (init_overlay localeCompare net schedule)) as H.
  fold w in H. unfold overlay_ok in H.
  assert (E : exec (dispatch (KeyDown k)) w
              = if jseqb k (js "Escape") then exec closeSourceModal w else w).
  { destruct (jseqb k (js "Escape")) eqn:Hk; cbn [dispatch];
      rewrite exec_gets; [|now apply keydown_other].
    rewrite H. destruct (source_modal (document w)) as [m|] eqn:Em.
    - cbn [repeat for_of]. rewrite exec_bind, Hk. reflexivity.
    - cbn [repeat for_of]. now rewrite closeSourceModal_absent. }
  rewrite E. split; [reflexivity|].
  split; [|split].
  - intros ->. rewrite jseqb_refl. apply closeSourceModal_inactive.
  - intros Hn. destruct (jseqb k (js "Escape")); [|reflexivity].
    now apply closeSourceModal_absent.
  - destruct (jseqb k (js "Escape")); [|repeat split].
    unfold exec, closeSourceModal, bind, gets.
    destruct (source_modal (document w)); repeat split.
Qed.
